(** * Shell-style lexer of mk12/parse: line scanner and word tokenizer

    A shallow embedding of the lexer of [parse.go]: the in-place word
    tokenizer [tokenize] with its sizing pass [countMaxTokens], the
    continuation filter [lineReader.Read], and the split function
    [scanLines] with [dropCR], driven by a scanner as [newLineScanner]
    sets it up; and of the line reader [simple_fgetline] of [simpleio.c].
    Go's [int] is modelled by [Z] (every index below is bounded by the
    length of a slice, so no wrap-around occurs), a [[]byte] by
    [list byte], and a sub-slice of a buffer by its pair of offsets into
    that buffer, so that aliasing stays visible.  An index or slice
    expression out of range panics in Go; the model returns [None] there,
    and the theorems show that this never happens.

    The in-place loops are analysed through forward scans that build
    their output ([Lex], [Cont]); the statements about the code are on
    [tokenize], [LineReader.Read] and [scanLines] themselves.

    Around the lexer, the file embeds what the two libraries do with the
    words: the parsers, [apply], [mapLines] and [Main] of [parse.go] as
    traces of events with panics and exits ([Args]), over whatever lines
    and error the scanner of Go's library gives; and, of [simpleio.c],
    the buffer of [simple_fgetline] ([Fgetline]), the in-place
    [split_words] with its buffer of pointers ([SplitWords]), and
    [foreach_line] and [sio_main] with their assertions ([Sio]).  A write
    outside of a buffer in C is an error in the model. *)

From Stdlib Require Import ZArith Lia Bool.
From Stdlib.Strings Require Import Byte String.
From stdpp Require Import base option list.

Local Open Scope Z_scope.

(** ** Bytes *)

Module Ch.
Definition nul : byte := x00.        (* byte(0): no quote is open *)
Definition nl : byte := x0a.         (* newline *)
Definition cr : byte := x0d.         (* carriage return *)
Definition space : byte := x20.      (* space *)
Definition dquote : byte := x22.     (* double quotation mark *)
Definition squote : byte := x27.     (* single quotation mark *)
Definition backslash : byte := x5c.  (* backslash *)
Definition tab : byte := x09.        (* horizontal tab *)
End Ch.

#[global] Instance byte_eq_dec : EqDecision byte := Byte.byte_eq_dec.

(** [unicode.IsSpace(rune(c))] for a single byte [c]: in the Latin-1 range
    the white space characters are U+0009 to U+000D (tab, newline,
    vertical tab, form feed, carriage return), U+0020 (space), U+0085 (NEL)
    and U+00A0 (NBSP). *)
Definition isSpace (c : byte) : bool :=
  match c with
  | x09 | x0a | x0b | x0c | x0d | x20 | x85 | xa0 => true
  | _ => false
  end.

(** The test [c] is a single or a double quotation mark. *)
Definition isQuote (c : byte) : bool :=
  Byte.eqb c Ch.squote || Byte.eqb c Ch.dquote.

Definition len {A} (l : list A) : Z := Z.of_nat (length l).

(** ** Buffers and slices *)

(** A slice of the buffer: [data[lo:hi]]. *)
Record slice := Slice { lo : Z; hi : Z }.

(** [d[i]], panicking out of range. *)
Definition index (d : list byte) (i : Z) : option byte :=
  if (0 <=? i) && (i <? len d) then d !! Z.to_nat i else None.

(** [d[i] = c], panicking out of range. *)
Definition store (d : list byte) (i : Z) (c : byte) : option (list byte) :=
  if (0 <=? i) && (i <? len d) then Some (<[Z.to_nat i := c]> d) else None.

(** [d[a:b]], panicking unless [0 <= a <= b <= len(d)].  Go checks [b]
    against the capacity; the length is at most the capacity, so a slice
    expression accepted here is accepted by Go with the same result. *)
Definition subslice (d : list byte) (a b : Z) : option slice :=
  if (0 <=? a) && (a <=? b) && (b <=? len d) then Some (Slice a b) else None.

(** The bytes a slice denotes in a buffer. *)
Definition bytes_of (d : list byte) (t : slice) : list byte :=
  take (Z.to_nat (hi t - lo t)) (drop (Z.to_nat (lo t)) d).

(** ** countMaxTokens *)

Fixpoint countMaxTokens_loop (d : list byte) (n : Z) (wasSpace : bool) : Z :=
  match d with
  | [] => n
  | c :: d' =>
      let space := isSpace c in
      let n := if wasSpace && negb space then n + 1 else n in
      countMaxTokens_loop d' n space
  end.

Definition countMaxTokens (d : list byte) : Z :=
  countMaxTokens_loop d 0 true.

(** ** tokenize *)

(** The local variables of [tokenize], with the buffer [data] it mutates
    and the token slices, which alias it. *)
Record tstate := TState {
  data : list byte;
  tokens : list slice;
  start : Z;
  shift : Z;
  wasSpace : bool;
  escaped : bool;
  quote : byte
}.

Definition tokenize_init (d : list byte) : tstate :=
  {| data := d; tokens := []; start := -1; shift := 0;
     wasSpace := true; escaped := false; quote := Ch.nul |}.

(** One iteration of [for i, c := range data]. *)
Definition tokenize_body (i : Z) (c : byte) (s : tstate) : option tstate :=
  '(tokens1, start1, wasSpace1, quote1, del) ←
    (if negb (escaped s) then
       if Byte.eqb (quote s) Ch.nul then
         let '(quote1, del) :=
           if isQuote c then (c, true) else (quote s, false) in
         let space := isSpace c in
         '(tokens1, start1) ←
           (if wasSpace s && negb space then
              Some (tokens s, i - shift s)
            else if negb (wasSpace s) && space then
              t ← subslice (data s) (start s) (i - shift s);
              Some (tokens s ++ [t], -1)
            else Some (tokens s, start s));
         Some (tokens1, start1, space, quote1, del)
       else if Byte.eqb c (quote s) then
         Some (tokens s, start s, wasSpace s, Ch.nul, true)
       else Some (tokens s, start s, wasSpace s, quote s, false)
     else Some (tokens s, start s, wasSpace s, quote s, false));
  (* An unescaped backslash escapes the next character. *)
  let escaped1 := negb (escaped s) && Byte.eqb c Ch.backslash in
  (* Delete unescaped backslashes or quotation marks. *)
  if escaped1 || del then
    Some {| data := data s; tokens := tokens1; start := start1;
            shift := shift s + 1; wasSpace := wasSpace1;
            escaped := escaped1; quote := quote1 |}
  else
    d ← store (data s) (i - shift s) c;
    Some {| data := d; tokens := tokens1; start := start1;
            shift := shift s; wasSpace := wasSpace1;
            escaped := escaped1; quote := quote1 |}.

(** [n] iterations of the range loop from index [i]; the element is read
    from the live buffer at each iteration. *)
Fixpoint tokenize_loop (n : nat) (i : Z) (s : tstate) : option tstate :=
  match n with
  | O => Some s
  | S n' =>
      c ← index (data s) i;
      s' ← tokenize_body i c s;
      tokenize_loop n' (i + 1) s'
  end.

(** The final append after the loop. *)
Definition tokenize_finish (s : tstate) : option (list byte * list slice) :=
  if negb (start s =? -1) then
    t ← subslice (data s) (start s) (len (data s) - shift s);
    Some (data s, tokens s ++ [t])
  else Some (data s, tokens s).

(** [tokenize(data)]: the buffer as the call leaves it, and the tokens as
    slices of that buffer. *)
Definition tokenize (d : list byte) : option (list byte * list slice) :=
  s ← tokenize_loop (length d) 0 (tokenize_init d);
  tokenize_finish s.

(** [tokenList.strings()], on the result of [tokenize]. *)
Definition strings (r : list byte * list slice) : list (list byte) :=
  map (bytes_of r.1) r.2.

Definition tokenize_strings (d : list byte) : option (list (list byte)) :=
  strings <$> tokenize d.

(** ** lineReader.Read *)

Module LineReader.

(** The buffer [data] that the source reader has filled with [n] bytes,
    and the locals of [Read]. *)
Record state := State {
  data : list byte;
  n : Z;
  shift : Z;
  escaped : bool
}.

(** One iteration of [for i, c := range data[:n]]. *)
Definition body (i : Z) (c : byte) (s : state) : option state :=
  let escaped1 := negb (escaped s) && Byte.eqb c Ch.backslash in
  if escaped s && Byte.eqb c Ch.nl then
    Some {| data := data s; n := n s - 2; shift := shift s + 2;
            escaped := escaped1 |}
  else
    d ← store (data s) (i - shift s) c;
    Some {| data := d; n := n s; shift := shift s; escaped := escaped1 |}.

Fixpoint loop (k : nat) (i : Z) (s : state) : option state :=
  match k with
  | O => Some s
  | S k' =>
      c ← index (data s) i;
      s' ← body i c s;
      loop k' (i + 1) s'
  end.

(** [Read] on a buffer into which the source has just read the bytes
    [chunk]: the bytes [data[:n]] that the caller receives. *)
Definition Read (chunk : list byte) : option (list byte) :=
  s ← loop (length chunk) 0
        {| data := chunk; n := len chunk; shift := 0; escaped := false |};
  if (0 <=? n s) && (n s <=? len (data s)) then
    Some (take (Z.to_nat (n s)) (data s))
  else None.

End LineReader.

(** ** dropCR and scanLines *)

Definition dropCR (d : list byte) : list byte :=
  if (0 <? len d) &&
     bool_decide (d !! Z.to_nat (len d - 1) = Some Ch.cr)
  then take (Z.to_nat (len d - 1)) d
  else d.

(** How the range loop of [scanLines] ends: it returns at the newline of
    index [i], or it falls through with its locals [escaped] and [quote]. *)
Inductive scan_result :=
  | Return (i : Z)
  | Fallthrough (escaped : bool) (quote : byte).

(** The range loop of [scanLines] from index [i] over the rest [d] of the
    data. *)
Fixpoint scanLines_loop (d : list byte) (i : Z) (escaped : bool)
    (quote : byte) : scan_result :=
  match d with
  | [] => Fallthrough escaped quote
  | c :: d' =>
      (* An unescaped backslash escapes the next character. *)
      let escaped1 := negb escaped && Byte.eqb c Ch.backslash in
      if Byte.eqb quote Ch.nul then
        if Byte.eqb c Ch.nl then Return i
        else
          scanLines_loop d' (i + 1) escaped1
            (if negb escaped && isQuote c then c else quote)
      else
        scanLines_loop d' (i + 1) escaped1
          (if negb escaped && Byte.eqb c quote then Ch.nul else quote)
  end.

(** [scanLines(data, atEOF)]: the advance and the token, [None] for a nil
    token; the error result is always nil. *)
Definition scanLines (d : list byte) (atEOF : bool)
    : Z * option (list byte) :=
  if atEOF && (len d =? 0) then (0, None)
  else
    match scanLines_loop d 0 false Ch.nul with
    | Return i => (i + 1, Some (dropCR (take (Z.to_nat i) d)))
    | Fallthrough _ _ =>
        (* If we are at EOF, we have a final, non-terminated line. *)
        if atEOF then (len d, Some (dropCR d))
        else (0, None) (* request more data *)
    end.

(** ** The scanner driving scanLines over a lineReader

    [bufio.Scanner] belongs to Go's library; this is its [Scan] loop as
    documented.  It offers the unread bytes to the split function, with
    [atEOF] set once the reader is exhausted; on a token it advances, and
    otherwise it reads once more, or stops at the end of the input.  The
    source reader is given by the chunks its successive reads deliver, each
    of which passes through [lineReader.Read].

    The limits of the library are left out: its buffer holds at most
    [MaxScanTokenSize] bytes, 64 KiB, at which it gives up with
    [ErrTooLong]; after 100 reads in a row that deliver nothing it gives
    up with [io.ErrNoProgress]; and a read may fail.  [Scan] stands for
    the scanner where none of this happens, and is used for single steps
    and for examples; what [mapLines] does with a scanner is stated for
    whatever lines and error the scanner gives ([Args.scanned]). *)
Fixpoint Scan (fuel : nat) (buf : list byte) (source : list (list byte))
    : option (list (list byte)) :=
  match fuel with
  | O => None
  | S fuel' =>
      let atEOF := match source with [] => true | _ => false end in
      match scanLines buf atEOF with
      | (advance, Some token) =>
          (token ::.) <$> Scan fuel' (drop (Z.to_nat advance) buf) source
      | (_, None) =>
          match source with
          | [] => Some []
          | chunk :: source' =>
              r ← LineReader.Read chunk;
              Scan fuel' (buf ++ r) source'
          end
      end
  end.

(** Each round consumes a chunk or at least one byte, and a last one sees
    the end of the input. *)
Definition Scan_fuel (source : list (list byte)) : nat :=
  S (length source + length (concat source)).

(** The lines [newLineScanner] yields. *)
Definition scanLines_all (source : list (list byte))
    : option (list (list byte)) :=
  Scan (Scan_fuel source) [] source.

(** The lines of an input that the source delivers in one read. *)
Definition Assemble (input : list byte) : option (list (list byte)) :=
  scanLines_all (match input with [] => [] | _ => [input] end).

(** ** simple_fgetline (simpleio.c)

    The line reader of the C library, which does in one loop what
    [lineReader.Read] and [scanLines] do together.  The stream is the list
    of the characters that [getc] has yet to return; the buffer is given
    by its first [i] bytes, what lies beyond them being overwritten before
    it is read; [-1] in [previous] and [quote] stands for none.  This is
    the loop and the bytes it stores; the size of the buffer, its growth
    and the write of the terminating zero, which can fall outside of the
    buffer, are the matter of [Fgetline] below. *)

Module Simpleio.

(** A character as the [int] that [getc] returns. *)
Definition code (c : byte) : Z := Z.of_N (Byte.to_N c).

Record state := State {
  buf : list byte;
  i : Z;
  previous : Z;
  quote : Z
}.

(** One iteration of [while (c != EOF)] on the character [c], and whether
    it leaves the loop by [break]. *)
Definition body (c : byte) (s : state) : state * bool :=
  (* buf[i++] = (char)c; *)
  let buf1 := take (Z.to_nat (i s)) (buf s) ++ [c] in
  let i1 := i s + 1 in
  let previous1 :=
    if (previous s =? code Ch.backslash) && (code c =? code Ch.backslash)
    then -1 else code c in
  if (previous s =? code Ch.backslash) && (code c =? code Ch.nl) then
    ({| buf := buf1; i := i1 - 2; previous := previous1;
        quote := quote s |}, false)
  else if quote s =? -1 then
    if code c =? code Ch.nl then
      ({| buf := buf1; i := i1; previous := previous s;
          quote := quote s |}, true)
    else if negb (previous s =? code Ch.backslash) && isQuote c then
      ({| buf := buf1; i := i1; previous := previous1;
          quote := code c |}, false)
    else
      ({| buf := buf1; i := i1; previous := previous1;
          quote := quote s |}, false)
  else if negb (previous s =? code Ch.backslash) && (code c =? quote s) then
    ({| buf := buf1; i := i1; previous := previous1; quote := -1 |}, false)
  else
    ({| buf := buf1; i := i1; previous := previous1; quote := quote s |},
     false).

Fixpoint loop (stream : list byte) (s : state) : state * list byte :=
  match stream with
  | [] => (s, [])
  | c :: stream' =>
      let '(s', stop) := body c s in
      if stop then (s', stream') else loop stream' s'
  end.

(** The line read, with its newline when one ended it, and the rest of
    the stream. *)
Definition simple_fgetline (stream : list byte) : list byte * list byte :=
  let '(s, rest) :=
    loop stream {| buf := []; i := 0; previous := -1; quote := -1 |} in
  (take (Z.to_nat (i s)) (buf s), rest).

End Simpleio.

(** ** The tokenizer as a forward scan that builds its output

    The same state machine over the input read as a list, appending the
    characters it keeps to [out] instead of shifting them inside a buffer,
    and carrying the bytes of the finished tokens ([done]) and of the token
    under construction ([cur]).  It is the device through which the
    in-place code above is analysed: [tokenize_refines] relates the two. *)

Module Lex.

Record st := St {
  out : list byte;
  done : list (list byte);
  cur : option (list byte);
  was : bool;
  esc : bool;
  q : byte
}.

Definition init : st :=
  {| out := []; done := []; cur := None; was := true; esc := false;
     q := Ch.nul |}.

Definition step (a : st) (c : byte) : st :=
  let '(done1, cur1, was1, q1, del) :=
    if negb (esc a) then
      if Byte.eqb (q a) Ch.nul then
        let '(q1, del) := if isQuote c then (c, true) else (q a, false) in
        let space := isSpace c in
        let '(done1, cur1) :=
          if was a && negb space then (done a, Some [])
          else if negb (was a) && space then
            (done a ++ [default [] (cur a)], None)
          else (done a, cur a) in
        (done1, cur1, space, q1, del)
      else if Byte.eqb c (q a) then (done a, cur a, was a, Ch.nul, true)
      else (done a, cur a, was a, q a, false)
    else (done a, cur a, was a, q a, false) in
  let esc1 := negb (esc a) && Byte.eqb c Ch.backslash in
  if esc1 || del then
    {| out := out a; done := done1; cur := cur1; was := was1;
       esc := esc1; q := q1 |}
  else
    {| out := out a ++ [c]; done := done1;
       cur := (λ t, t ++ [c]) <$> cur1; was := was1;
       esc := esc1; q := q1 |}.

Definition run (a : st) (d : list byte) : st := foldl step a d.

Definition finish (a : st) : list (list byte) :=
  match cur a with
  | Some t => done a ++ [t]
  | None => done a
  end.

Definition lex (d : list byte) : list (list byte) := finish (run init d).

End Lex.

(** The state of [tokenize] on [d] before iteration [k] of its loop. *)
Definition tokenize_at (d : list byte) (k : nat) : option tstate :=
  tokenize_loop k 0 (tokenize_init d).

(** The bytes of the token under construction in state [s], when the next
    character will be written at offset [w]. *)
Definition pending (s : tstate) (w : Z) : list byte :=
  if start s =? -1 then [] else bytes_of (data s) (Slice (start s) w).

(** Well-formed states of the forward scan: a token is under construction
    exactly when the last unquoted character was not white space, which is
    the case whenever a quote is open or an escape is pending; an open
    quote is recorded by its quotation mark. *)
Record lex_wf (a : Lex.st) : Prop := LexWf {
  wf_cur : Lex.was a = true ↔ Lex.cur a = None;
  wf_quote : Lex.q a ≠ Ch.nul → Lex.was a = false;
  wf_esc : Lex.esc a = true → Lex.was a = false;
  wf_mark : Lex.q a = Ch.nul ∨ isQuote (Lex.q a) = true
}.

(** The token slices [toks] and the start offset [st] of the in-place
    code denote, in the output [o] built so far, the finished tokens [dn]
    and the token under construction [cu]. *)
Record tokens_denote (o : list byte) (toks : list slice) (st : Z)
    (dn : list (list byte)) (cu : option (list byte)) : Prop := {
  td_range : Forall (λ t, 0 ≤ lo t ≤ hi t ∧ hi t ≤ len o) toks;
  td_done : dn = map (bytes_of o) toks;
  td_start :
    match cu with
    | None => st = -1
    | Some t => 0 ≤ st ≤ len o ∧ t = drop (Z.to_nat st) o
    end
}.

(** The in-place state [s] at index [i] of the input [d0] stands for the
    forward-scan state [a]: the buffer holds the output built so far
    followed by the input not yet overwritten. *)
Record refines (d0 : list byte) (i : Z) (s : tstate) (a : Lex.st) : Prop := {
  r_shift : shift s = i - len (Lex.out a);
  r_shift_nonneg : 0 ≤ shift s;
  r_bound : i ≤ len d0;
  r_data : data s = Lex.out a ++ drop (length (Lex.out a)) d0;
  r_tokens :
    tokens_denote (Lex.out a) (tokens s) (start s) (Lex.done a) (Lex.cur a);
  r_was : wasSpace s = Lex.was a;
  r_esc : escaped s = Lex.esc a;
  r_quote : quote s = Lex.q a
}.

(** ** The continuation filter as a forward scan

    [lineReader.Read] read as a function on lists: the bytes kept so far
    and the escape flag; an escaped newline takes back the backslash that
    precedes it. *)

Module Cont.

Record st := St { out : list byte; esc : bool }.

Definition init : st := {| out := []; esc := false |}.

Definition step (p : st) (c : byte) : st :=
  {| out := if esc p && Byte.eqb c Ch.nl
            then take (length (out p) - 1) (out p)
            else out p ++ [c];
     esc := negb (esc p) && Byte.eqb c Ch.backslash |}.

Definition run (p : st) (d : list byte) : st := foldl step p d.

End Cont.

(** The state of [Read] on [chunk] before iteration [k] of its loop. *)
Definition Read_at (chunk : list byte) (k : nat) : option LineReader.state :=
  LineReader.loop k 0
    {| LineReader.data := chunk; LineReader.n := len chunk;
       LineReader.shift := 0; LineReader.escaped := false |}.

(** The in-place state [s] of [Read] at index [i] of the chunk [d0] stands
    for the forward-scan state [p]. *)
Record read_refines (d0 : list byte) (i : Z) (s : LineReader.state)
    (p : Cont.st) : Prop := {
  rr_shift : LineReader.shift s = i - len (Cont.out p);
  rr_out : len (Cont.out p) ≤ i;
  rr_bound : 0 ≤ i ≤ len d0;
  rr_n : LineReader.n s = len d0 - LineReader.shift s;
  rr_len : length (LineReader.data s) = length d0;
  rr_kept : take (length (Cont.out p)) (LineReader.data s) = Cont.out p;
  rr_rest : drop (Z.to_nat i) (LineReader.data s) = drop (Z.to_nat i) d0;
  rr_esc : LineReader.escaped s = Cont.esc p;
  rr_last : Cont.esc p = true → Cont.out p ≠ []
}.

(** ** Reference definitions for the statements *)

(** Splitting on maximal runs of white space: the maximal runs of
    characters that are not white space, in order.  [word] is the run
    being read. *)
Fixpoint fields_from (word : list byte) (s : list byte)
    : list (list byte) :=
  match s with
  | [] => match word with [] => [] | _ => [word] end
  | c :: s' =>
      if isSpace c then
        match word with
        | [] => fields_from [] s'
        | _ => word :: fields_from [] s'
        end
      else fields_from (word ++ [c]) s'
  end.

Definition fields (s : list byte) : list (list byte) := fields_from [] s.

(** The members of a token list joined with a single space. *)
Fixpoint join_space (toks : list (list byte)) : list byte :=
  match toks with
  | [] => []
  | [t] => t
  | t :: toks' => t ++ Ch.space :: join_space toks'
  end.

(** A character with no role in the lexer: no quote, no backslash. *)
Definition plain (c : byte) : bool :=
  negb (isQuote c) && negb (Byte.eqb c Ch.backslash).

(** A non-empty word of plain characters without white space. *)
Definition plain_word (t : list byte) : bool :=
  negb (bool_decide (t = [])) && forallb (λ c, plain c && negb (isSpace c)) t.

(** The decoded characters of a line: the input without its structural
    characters, that is without the unescaped backslashes, the unescaped
    quotation marks that open a quoted region, and the unescaped marks
    that close one. *)
Fixpoint decode (escaped : bool) (quote : byte) (s : list byte)
    : list byte :=
  match s with
  | [] => []
  | c :: s' =>
      if escaped then c :: decode false quote s'
      else if Byte.eqb c Ch.backslash then decode true quote s'
      else if Byte.eqb quote Ch.nul then
        if isQuote c then decode false c s' else c :: decode false quote s'
      else
        if Byte.eqb c quote then decode false Ch.nul s'
        else c :: decode false quote s'
  end.


(** Byte strings written as text. *)
Definition B (s : string) : list byte := list_byte_of_string s.

(** ** Writing a token list as a line *)

(** Every byte of [t] behind a backslash. *)
Definition escape_bytes (t : list byte) : list byte :=
  concat (map (λ c, [Ch.backslash; c]) t).

(** An argument written so that it reads back as [t]: each byte escaped,
    and a pair of single quotation marks for the empty argument. *)
Definition quote_arg (t : list byte) : list byte :=
  match t with
  | [] => [Ch.squote; Ch.squote]
  | _ => escape_bytes t
  end.

(** Token slices in increasing order, with at least one byte between two
    of them. *)
Fixpoint separated (toks : list slice) : Prop :=
  match toks with
  | [] => True
  | t :: toks' => Forall (λ t', hi t < lo t') toks' ∧ separated toks'
  end.

(** The finished tokens lie in order, apart from each other, and before
    the token under construction and the write offset. *)
Record tokens_apart (i : Z) (s : tstate) : Prop := {
  ta_separated : separated (tokens s);
  ta_before : Forall (λ t, hi t < i - shift s) (tokens s);
  ta_start :
    start s = -1 ∨
    (start s ≤ i - shift s ∧ Forall (λ t, hi t < start s) (tokens s))
}.

(** The forward-scan state [a] behind an output [o] and finished tokens
    [dn] that a previous part of the line has left. *)
Definition lex_frame (o : list byte) (dn : list (list byte)) (a : Lex.st)
    : Lex.st :=
  {| Lex.out := o ++ Lex.out a; Lex.done := dn ++ Lex.done a;
     Lex.cur := Lex.cur a; Lex.was := Lex.was a; Lex.esc := Lex.esc a;
     Lex.q := Lex.q a |}.

(** A chunk at whose end the loop of [Read] has no escape pending. *)
Definition ends_unescaped (chunk : list byte) : Prop :=
  ∃ s, Read_at chunk (length chunk) = Some s ∧
       LineReader.escaped s = false.

(** ** Parsers, apply, mapLines and Main

    The part of the package that hands the arguments to the program.  A
    value of type [interface{}] is a [value]: nil, an [int], a [float64],
    or something of another type that a parser of the program returns.
    What the package does to the outside is a trace of events: what it
    prints, what it logs, and the calls of the function [fn] of the
    program, which is taken to return.  A function value is nil or a
    function, and a call of nil panics.  The scanner that [mapLines]
    makes with [newLineScanner] is a [bufio.Scanner] of Go's library:
    what it does on the standard input is given, as the lines for which
    [Scan] returns true and the error that [Err] returns after them. *)

Module Args.

Inductive outcome (A : Type) :=
  | Ret (a : A)
  | Panicked
  | Exited (code : Z).
Arguments Ret {A} a.
Arguments Panicked {A}.
Arguments Exited {A} code.

Section Package.

Context {F O Err : Type}.

Inductive value :=
  | VNil
  | VInt (n : Z)
  | VFloat64 (x : F)
  | VOther (x : O).

(** The messages of [log.Printf] and [log.Println] in [apply] and
    [mapLines]. *)
Inductive message :=
  | ParseError (arg : list byte) (err : Err)
  | TooFew
  | TooMany
  | ScanError (err : Err).

Inductive event :=
  | PrintUsage
  | SetPrefix (prefix : list byte)
  | LogUsage
  | Log (m : message)
  | Call (args : list value).

(** A computation: the events so far, and how it has ended. *)
Definition M (A : Type) : Type := list event * outcome A.

Definition ret {A} (a : A) : M A := ([], Ret a).

Definition bind {A B} (m : M A) (f : A → M B) : M B :=
  match m with
  | (t, Ret a) => let '(t', o) := f a in (t ++ t', o)
  | (t, Panicked) => (t, Panicked)
  | (t, Exited c) => (t, Exited c)
  end.

Definition emit (e : event) : M unit := ([e], Ret tt).
Definition panic {A} : M A := ([], Panicked).
Definition exit {A} (code : Z) : M A := ([], Exited code).

(** An index expression, which panics out of range. *)
Definition at_index {A} (l : list A) (i : nat) : M A :=
  match l !! i with Some a => ret a | None => panic end.

(** An assignment to an element, which panics out of range. *)
Definition set_index {A} (l : list A) (i : nat) (a : A) : M (list A) :=
  if bool_decide (i < length l)%nat then ret (<[i := a]> l) else panic.

(** A function value: nil, or a function that returns or panics. *)
Definition Func (A B : Type) : Type := option (A → option B).

Definition call {A B} (f : Func A B) (a : A) : M B :=
  match f with
  | Some g => match g a with Some b => ret b | None => panic end
  | None => panic
  end.

(** [type Parser func(string) (interface{}, error)]; the error is [None]
    for nil. *)
Definition Parser : Type := Func (list byte) (value * option Err).

(** The package variables [parsers] and [repeat]. *)
Record config := Config {
  parsers : list Parser;
  repeat : bool
}.

(** Their initial values. *)
Definition initial : config := {| parsers := [None]; repeat := true |}.

Definition SetEveryParser (p : Parser) : config :=
  {| parsers := [p]; repeat := true |}.

Definition SetParsers (ps : list Parser) : config :=
  {| parsers := ps; repeat := false |}.

(** [Int] and [Float64], over what [strconv.ParseInt(s, 0, 0)] and
    [strconv.ParseFloat(s, 64)] return: the number, or the error inside
    their [*NumError]. *)
Definition Int (ParseInt : list byte → Z + Err) : Parser :=
  Some (λ s, match ParseInt s with
             | inl n => Some (VInt n, None)
             | inr e => Some (VNil, Some e)
             end).

Definition Float64 (ParseFloat : list byte → F + Err) : Parser :=
  Some (λ s, match ParseFloat s with
             | inl x => Some (VFloat64 x, None)
             | inr e => Some (VNil, Some e)
             end).

Definition run_pure {A} (m : M A) : option A :=
  match m with (_, Ret a) => Some a | _ => None end.

(** [p.Restrict(pred)]: the closure it returns. *)
Definition Restrict (p : Parser) (pred : Func value (option Err)) : Parser :=
  Some (λ s, run_pure (
    bind (call p s) (λ '(x, err),
    match err with
    | Some e => ret (VNil, Some e)
    | None =>
        bind (call pred x) (λ err,
        match err with
        | Some e => ret (VNil, Some e)
        | None => ret (x, None)
        end)
    end))).

(** The loop of [AssertInts] from index [i]: a type assertion that fails
    panics. *)
Fixpoint AssertInts_loop (i : nat) (args : list value) (ints : list Z)
    : option (list Z) :=
  match args with
  | [] => Some ints
  | a :: args' =>
      match a with
      | VInt n =>
          if bool_decide (i < length ints)%nat
          then AssertInts_loop (S i) args' (<[i := n]> ints)
          else None
      | _ => None
      end
  end.

Definition AssertInts (args : list value) : option (list Z) :=
  AssertInts_loop 0 args (replicate (length args) 0).

Fixpoint AssertFloat64s_loop (zero : F) (i : nat) (args : list value)
    (floats : list F) : option (list F) :=
  match args with
  | [] => Some floats
  | a :: args' =>
      match a with
      | VFloat64 x =>
          if bool_decide (i < length floats)%nat
          then AssertFloat64s_loop zero (S i) args' (<[i := x]> floats)
          else None
      | _ => None
      end
  end.

(** [zero] is the float64 zero that [make] fills the slice with. *)
Definition AssertFloat64s (zero : F) (args : list value) : option (list F) :=
  AssertFloat64s_loop zero 0 args (replicate (length args) zero).

(** The range loop of [apply] from index [i] over the rest [args] of the
    arguments. *)
Fixpoint apply_loop (cfg : config) (i : nat) (args : list (list byte))
    (parsed : list value) (success : bool) : M (list value * bool) :=
  match args with
  | [] => ret (parsed, success)
  | arg :: args' =>
      bind (at_index (parsers cfg) 0) (λ p0,
      bind (if negb (repeat cfg) then at_index (parsers cfg) i
            else ret p0) (λ p,
      bind (call p arg) (λ '(v, err),
      bind (set_index parsed i v) (λ parsed1,
      bind (match err with
            | Some e => bind (emit (Log (ParseError arg e))) (λ _, ret false)
            | None => ret success
            end) (λ success1,
      apply_loop cfg (S i) args' parsed1 success1)))))
  end.

Definition apply (cfg : config) (args : list (list byte)) : M bool :=
  bind (apply_loop cfg 0 args (replicate (length args) VNil) true)
    (λ '(parsed, success),
  if success then bind (emit (Call parsed)) (λ _, ret true)
  else ret false).

(** The body of the loop of [mapLines] on a line of the scanner. *)
Definition mapLines_body (cfg : config) (line : list byte) (success : bool)
    : M bool :=
  match tokenize_strings line with
  | None => panic
  | Some args =>
      if negb (repeat cfg) && bool_decide (length args < length (parsers cfg))%nat
      then bind (emit (Log TooFew)) (λ _, ret false)
      else if negb (repeat cfg)
              && bool_decide (length (parsers cfg) < length args)%nat
      then bind (emit (Log TooMany)) (λ _, ret false)
      else bind (apply cfg args) (λ ok, ret (if ok then success else false))
  end.

Fixpoint mapLines_loop (cfg : config) (lines : list (list byte))
    (success : bool) : M bool :=
  match lines with
  | [] => ret success
  | line :: lines' =>
      bind (mapLines_body cfg line success) (λ success1,
      mapLines_loop cfg lines' success1)
  end.

(** What the scanner of [newLineScanner] does on the standard input, to
    its end: the lines that [Bytes] returns after the calls of [Scan] that
    return true, and what [Err] returns after the call that returns false,
    [None] for nil.  [tokenize] works in place on the bytes of a line,
    which the scanner has passed by then. *)
Definition scanned : Type := list (list byte) * option Err.

(** [mapLines], on what the scanner does on the standard input. *)
Definition mapLines (cfg : config) (stdin : scanned) : M unit :=
  bind (mapLines_loop cfg stdin.1 true) (λ success,
  bind (match stdin.2 with
        | Some err => bind (emit (Log (ScanError err))) (λ _, ret false)
        | None => ret success
        end) (λ success1,
  if success1 then ret tt else exit 1)).

(** [Main], on the arguments [os.Args[1:]], on whether the standard input
    is a terminal, and on what the scanner does on the standard input. *)
Definition Main (cfg : config) (args : list (list byte)) (isTerminal : bool)
    (stdin : scanned) : M unit :=
  if bool_decide (length args = 1%nat) &&
     (bool_decide (args !! 0%nat = Some (B "-h")) ||
      bool_decide (args !! 0%nat = Some (B "--help")))
  then emit PrintUsage
  else if bool_decide (length args = 1%nat) &&
          bool_decide (args !! 0%nat = Some (B "-"))
  then bind (emit (SetPrefix (B "error: "))) (λ _, mapLines cfg stdin)
  else if bool_decide (length args = 0%nat) && negb isTerminal
  then mapLines cfg stdin
  else if repeat cfg && bool_decide (0 < length args)%nat ||
          negb (repeat cfg) &&
          bool_decide (length args = length (parsers cfg))
  then bind (apply cfg args) (λ ok, if ok then ret tt else exit 1)
  else bind (emit (SetPrefix [])) (λ _,
       bind (emit LogUsage) (λ _, exit 1)).

(** An event that writes an error to the log. *)
Definition logged (e : event) : bool :=
  match e with
  | LogUsage | Log _ => true
  | _ => false
  end.

(** A parser that is a function and returns on every string. *)
Definition total (p : Parser) : Prop :=
  ∃ f, p = Some f ∧ ∀ s, f s ≠ None.

(** The configurations that [SetEveryParser] and [SetParsers] make from
    such parsers. *)
Inductive ready : config → Prop :=
  | ready_every p : total p → ready (SetEveryParser p)
  | ready_each ps : Forall total ps → ready (SetParsers ps).

(** What [apply] is to do with the results [rs] that the parsers give on
    the arguments: the messages, and whether every argument has parsed. *)
Definition errors (args : list (list byte))
    (rs : list (value * option Err)) : list event :=
  omap (λ ar, (λ e, Log (ParseError ar.1 e)) <$> ar.2.2) (zip args rs).

Definition all_parsed (rs : list (value * option Err)) : bool :=
  forallb (λ r, match r.2 with None => true | Some _ => false end) rs.

(** Two predicates of [Restrict] one after the other. *)
Definition pred_then (f g : value → option (option Err))
    : Func value (option Err) :=
  Some (λ x, match f x with
             | Some None => g x
             | r => r
             end).

(** A parser of integers for examples: a decimal digit. *)
Definition digit (s : list byte) : Z + unit :=
  match s with
  | [c] =>
      let n := Z.of_N (Byte.to_N c) - 48 in
      if (0 <=? n) && (n <=? 9) then inl n else inr tt
  | _ => inr tt
  end.

(** The predicate [positive] of the tests of the package. *)
Definition positive : Func value (option unit) :=
  Some (λ v, match v with
             | VInt n => if n <? 0 then Some (Some tt) else Some None
             | _ => None
             end).

(** The calls of [fn] that a configuration allows: with as many values
    as there are parsers, unless [repeat] is set. *)
Definition call_ok (cfg : config) (e : event) : Prop :=
  ∀ vs, e = Call vs → repeat cfg = false →
        length vs = length (parsers cfg).

End Package.

Arguments value : clear implicits.
Arguments message : clear implicits.
Arguments event : clear implicits.
Arguments M : clear implicits.
Arguments Parser : clear implicits.
Arguments config : clear implicits.
Arguments scanned : clear implicits.

End Args.

(** ** simple_fgetline and its buffer

    [simple_fgetline] once more, with the size of its buffer: the buffer
    grows by [block_size] when the index reaches its size, and a write at
    an index outside of it is an error.  The characters are those of
    [Simpleio.body]. *)

Module Fgetline.

Definition block_size : Z := 128.

Inductive result :=
  | OutOfBounds (i bufsize : Z)
  | Line (line : list byte) (bufsize : Z) (rest : list byte).

(** The loop [while (c != EOF)], with the buffer size. *)
Fixpoint loop (stream : list byte) (s : Simpleio.state) (bufsize : Z)
    : option (Simpleio.state * Z * list byte) :=
  match stream with
  | [] => Some (s, bufsize, [])
  | c :: stream' =>
      let bufsize1 :=
        if Simpleio.i s =? bufsize then bufsize + block_size else bufsize in
      (* buf[i++] = (char)c; *)
      if (0 <=? Simpleio.i s) && (Simpleio.i s <? bufsize1) then
        let '(s', stop) := Simpleio.body c s in
        if stop then Some (s', bufsize1, stream')
        else loop stream' s' bufsize1
      else None
  end.

(** The call on a stream that is not at its end, with the size of the
    buffer that [*lineptr] holds, or [None] when it is [NULL]; [None] for a
    write of the loop outside of the buffer. *)
Definition simple_fgetline (size : option Z) (stream : list byte)
    : option result :=
  let bufsize0 := default block_size size in
  '(s, bufsize, rest) ←
    loop stream
      {| Simpleio.buf := []; Simpleio.i := 0; Simpleio.previous := -1;
         Simpleio.quote := -1 |} bufsize0;
  (* buf[i] = 0; *)
  if (0 <=? Simpleio.i s) && (Simpleio.i s <? bufsize) then
    Some (Line (take (Z.to_nat (Simpleio.i s)) (Simpleio.buf s)) bufsize rest)
  else Some (OutOfBounds (Simpleio.i s) bufsize).

End Fgetline.

(** The index stays inside the buffer and inside what has been written;
    behind a backslash at least one byte has been written. *)
Record fgetline_inv (s : Simpleio.state) (bufsize : Z) : Prop := {
  fi_lo : 0 ≤ Simpleio.i s;
  fi_hi : Simpleio.i s ≤ bufsize;
  fi_buf : Simpleio.i s ≤ len (Simpleio.buf s);
  fi_prev :
    Simpleio.previous s = Simpleio.code Ch.backslash → 1 ≤ Simpleio.i s
}.

(** The quote of [scanLines] as the [int] of [simple_fgetline]. *)
Definition quote_code (q : byte) : Z :=
  if Byte.eqb q Ch.nul then -1 else Simpleio.code q.

(** The state [s] of [simple_fgetline] stands for the state [p] of the
    continuation filter and the quote [q] of [scanLines] on what the filter
    has kept. *)
Record fgetline_refines (s : Simpleio.state) (p : Cont.st) (q : byte)
    : Prop := {
  fr_buf : take (Z.to_nat (Simpleio.i s)) (Simpleio.buf s) = Cont.out p;
  fr_i : Simpleio.i s = len (Cont.out p);
  fr_scan :
    scanLines_loop (Cont.out p) 0 false Ch.nul = Fallthrough (Cont.esc p) q;
  fr_previous :
    Simpleio.previous s = Simpleio.code Ch.backslash ↔ Cont.esc p = true;
  fr_quote : Simpleio.quote s = quote_code q;
  fr_mark : q = Ch.nul ∨ isQuote q = true;
  fr_last : Cont.esc p = true → Cont.out p ≠ []
}.

(** The buffer is as small as its growth by blocks allows. *)
Definition tight (size0 i bufsize : Z) : Prop :=
  i ≤ bufsize ∧
  ∃ j, 0 ≤ j ∧ bufsize = size0 + Fgetline.block_size * j ∧
       (j = 0 ∨ bufsize - Fgetline.block_size < i).

(** ** split_words (simpleio.c)

    The word splitter of the C library, which works in place as
    [tokenize] does, and ends each word with a zero byte.  The memory
    [mem] holds the string from the address that [str] has at the call;
    [pos] is [str] as an offset into it, and a word pointer is an offset
    too.  The buffer of pointers is a list of its [words_len] entries,
    [None] for a null pointer and for an entry not yet written.  A read or
    a write outside of [mem] or of the buffer is an error, [None].  The
    function [isspace] of the C library is a parameter. *)

Module SplitWords.

Definition block_len : Z := 16.

Record state := State {
  mem : list byte;
  pos : Z;
  words : list (option Z);
  words_len : Z;
  nwords : Z;
  previous : Z;
  quote : Z;
  shift : Z;
  word : bool   (* status == WORD *)
}.

(** [words[i] = p], an error out of range. *)
Definition store_ptr (ws : list (option Z)) (i : Z) (p : option Z)
    : option (list (option Z)) :=
  if (0 <=? i) && (i <? len ws) then Some (<[Z.to_nat i := p]> ws) else None.

(** One iteration of [while ( *str )] on the character [c] that [str]
    points to. *)
Definition body (isspace : byte → bool) (c : byte) (s : state)
    : option state :=
  let prevbs := previous s =? Simpleio.code Ch.backslash in
  let '(previous1, delete1) :=
    if Byte.eqb c Ch.backslash then
      if prevbs then (-1, false) else (Simpleio.code c, true)
    else (Simpleio.code c, false) in
  '(mem1, words1, words_len1, nwords1, quote1, word1, delete2) ←
    (if negb prevbs then
       if quote s =? -1 then
         let whitespace := isspace c in
         if word s && whitespace then
           (* status = WHITE; *str = 0; *)
           mem1 ← store (mem s) (pos s) Ch.nul;
           Some (mem1, words s, words_len s, nwords s, quote s, false,
                 delete1)
         else
           let '(quote1, delete2) :=
             if isQuote c then (Simpleio.code c, true)
             else (quote s, delete1) in
           if negb (word s) && negb whitespace then
             (* Save a slot for the terminating null pointer. *)
             let '(words1, words_len1) :=
               if nwords s + 1 =? words_len s
               then (words s ++ replicate (Z.to_nat block_len) None,
                     words_len s + block_len)
               else (words s, words_len s) in
             words2 ← store_ptr words1 (nwords s) (Some (pos s - shift s));
             Some (mem s, words2, words_len1, nwords s + 1, quote1, true,
                   delete2)
           else
             Some (mem s, words s, words_len s, nwords s, quote1, word s,
                   delete2)
       else if quote s =? Simpleio.code c then
         Some (mem s, words s, words_len s, nwords s, -1, word s, true)
       else
         Some (mem s, words s, words_len s, nwords s, quote s, word s,
               delete1)
     else
       Some (mem s, words s, words_len s, nwords s, quote s, word s,
             delete1));
  if delete2 : bool then
    Some {| mem := mem1; pos := pos s + 1; words := words1;
            words_len := words_len1; nwords := nwords1;
            previous := previous1; quote := quote1; shift := shift s + 1;
            word := word1 |}
  else
    (* *(str - shift) = *str; *)
    c' ← index mem1 (pos s);
    mem2 ← store mem1 (pos s - shift s) c';
    Some {| mem := mem2; pos := pos s + 1; words := words1;
            words_len := words_len1; nwords := nwords1;
            previous := previous1; quote := quote1; shift := shift s;
            word := word1 |}.

(** The loop, for at most [fuel] iterations. *)
Fixpoint loop (isspace : byte → bool) (fuel : nat) (s : state)
    : option state :=
  match fuel with
  | O => None
  | S fuel' =>
      c ← index (mem s) (pos s);
      if Byte.eqb c Ch.nul then Some s
      else s' ← body isspace c s; loop isspace fuel' s'
  end.

(** [split_words(&words, &len, str)], on the buffer that [*wordsptr]
    holds, or [None] when it is [NULL]: the number of words, the buffer,
    its length, and the memory as the call leaves it. *)
Definition split_words (isspace : byte → bool)
    (wordsptr : option (list (option Z))) (m : list byte)
    : option (Z * list (option Z) * Z * list byte) :=
  let ws := default (replicate (Z.to_nat block_len) None) wordsptr in
  s ← loop isspace (length m)
        {| mem := m; pos := 0; words := ws; words_len := len ws;
           nwords := 0; previous := -1; quote := -1; shift := 0;
           word := false |};
  (* *(str - shift) = 0; words[nwords] = NULL; *)
  mem' ← store (mem s) (pos s - shift s) Ch.nul;
  words' ← store_ptr (words s) (nwords s) None;
  Some (nwords s, words', words_len s, mem').

(** The string at the offset [o] of the memory [m]: its bytes up to the
    first zero. *)
Fixpoint until_nul (m : list byte) : list byte :=
  match m with
  | [] => []
  | c :: m' => if Byte.eqb c Ch.nul then [] else c :: until_nul m'
  end.

Definition cstring (m : list byte) (o : Z) : list byte :=
  until_nul (drop (Z.to_nat o) m).

(** The words of the result as strings: [words[0]] to [words[n-1]]. *)
Definition strings (r : Z * list (option Z) * Z * list byte)
    : option (list (list byte)) :=
  let '(n, ws, _, m) := r in
  mapM (λ p : option Z, cstring m <$> p) (take (Z.to_nat n) ws).

(** [isspace] in the C locale, for the characters of ASCII. *)
Definition isspace_ascii (c : byte) : bool :=
  match c with
  | x09 | x0a | x0b | x0c | x0d | x20 => true
  | _ => false
  end.

End SplitWords.

(** The loop of [split_words] keeps inside the memory and the buffer of
    pointers, and leaves what it has not read as it was. *)
Record split_safe (m0 : list byte) (n : Z) (s : SplitWords.state)
    : Prop := {
  ss_pos : 0 ≤ SplitWords.pos s ≤ n;
  ss_shift : 0 ≤ SplitWords.shift s ≤ SplitWords.pos s;
  ss_len : length (SplitWords.mem s) = length m0;
  ss_rest : drop (Z.to_nat (SplitWords.pos s)) (SplitWords.mem s)
            = drop (Z.to_nat (SplitWords.pos s)) m0;
  ss_nwords : 0 ≤ SplitWords.nwords s;
  ss_slot : SplitWords.nwords s + 1 ≤ SplitWords.words_len s;
  ss_words : len (SplitWords.words s) = SplitWords.words_len s;
  ss_min : 1 < SplitWords.words_len s
}.

(** A word that has been ended begins at the offset [o] of the written
    part [p] of the memory and is followed by a zero byte. *)
Definition word_at (p : list byte) (o : Z) (tok : list byte) : Prop :=
  0 ≤ o ∧ o + len tok < len p ∧
  take (length tok) (drop (Z.to_nat o) p) = tok ∧
  p !! Z.to_nat (o + len tok) = Some Ch.nul.

(** The word pointers [starts] denote, in the written part [p] of the
    memory, the finished words [dn] and the word under construction [cu],
    which ends where [p] ends. *)
Definition words_denote (p : list byte) (starts : list Z)
    (dn : list (list byte)) (cu : option (list byte)) : Prop :=
  ∃ sd,
    starts = sd ++ match cu with
                   | Some t => [len p - len t]
                   | None => []
                   end ∧
    Forall2 (word_at p) sd dn ∧
    match cu with
    | Some t => 0 ≤ len p - len t ∧ drop (Z.to_nat (len p - len t)) p = t
    | None => True
    end.

(** The state [s] of [split_words] stands for the state [a] of the
    forward scan: [p] is the part of the memory written so far, and
    [starts] are the word pointers stored so far. *)
Record split_refines (s : SplitWords.state) (a : Lex.st) (p : list byte)
    (starts : list Z) : Prop := {
  sr_w : SplitWords.pos s - SplitWords.shift s = len (Lex.out a);
  sr_p : take (Z.to_nat (len (Lex.out a))) (SplitWords.mem s) = p;
  sr_plen : len p = len (Lex.out a);
  sr_prev :
    SplitWords.previous s = Simpleio.code Ch.backslash ↔ Lex.esc a = true;
  sr_quote : SplitWords.quote s = quote_code (Lex.q a);
  sr_word : SplitWords.word s = negb (Lex.was a);
  sr_nwords : SplitWords.nwords s = len starts;
  sr_words :
    take (Z.to_nat (SplitWords.nwords s)) (SplitWords.words s)
    = Some <$> starts;
  sr_denote : words_denote p starts (Lex.done a) (Lex.cur a)
}.

(** ** foreach_line and sio_main (simpleio.c)

    What the C library does with the command line and with the standard
    input.  The function [func] of the program is given by the status it
    returns for a list of words; what the library writes and the calls of
    [func] are a trace of events, and a call ends by returning, by a
    failed assertion or by a write outside of a buffer.  The assertions
    are those of the source, and [ndebug] says that they are compiled
    out.  The line buffer and the buffer of word pointers go from one call
    of [simple_fgetline] and of [split_words] to the next, and are freed
    when they have grown beyond [MAX_BUFSIZE] bytes.  The variable
    [bufsize] of [foreach_line] has no value before the first call of
    [simple_fgetline], which asserts on it all the same: [garbage] is what
    it holds then.  [split_words] gets the line with its terminating
    zero; it reads nothing behind it. *)

Module Sio.

Inductive event :=
  | Stdout (text : list byte)
  | Stderr (text : list byte)
  | Func (words : list (list byte)).

(** How a call ends: it returns, an assertion fails, or a write falls
    outside of a buffer. *)
Inductive outcome (A : Type) :=
  | Done (a : A)
  | Aborted
  | Fault.
Arguments Done {A} a.
Arguments Aborted {A}.
Arguments Fault {A}.

(** [assert(cond)] lets the call go on. *)
Definition assertion (ndebug cond : bool) : bool := ndebug || cond.

Definition MAX_BUFSIZE : Z := 1024.

(** [sizeof(char * )], for pointers of eight bytes. *)
Definition sizeof_ptr : Z := 8.

(** [PXS(s)], with 0 for [EXIT_SUCCESS] and 1 for [EXIT_FAILURE]. *)
Definition PXS (s : Z) : Z := if s =? 0 then 0 else 1.

(** [sio_error(errmsg)]: what it prints; it returns 1. *)
Definition sio_error (prefix errmsg : list byte) : event :=
  Stderr (prefix ++ B ": " ++ errmsg ++ [Ch.nl]).

(** The body of the loop of [foreach_line] for a line that is not
    skipped: the event, the status to be or-ed in, and the buffer of
    pointers for the next line. *)
Definition foreach_body (isspace : byte → bool)
    (func : list (list byte) → Z) (prefix : list byte) (n : Z)
    (ndebug : bool) (wordsptr : option (list (option Z)))
    (line : list byte)
    : outcome (event * Z * option (list (option Z))) :=
  (* split_words: assert( *len > 1) when *wordsptr is not NULL *)
  if negb (assertion ndebug
             (match wordsptr with
              | Some buffer => 1 <? len buffer
              | None => true
              end))
  then Aborted
  else
    match SplitWords.split_words isspace wordsptr (line ++ [Ch.nul]) with
    | None => Fault
    | Some r =>
        match SplitWords.strings r with
        | None => Fault
        | Some words =>
            let '(nwords, ws, words_len, _) := r in
            let '(ev, st) :=
              if (0 <? n) && (nwords <? n)
              then (sio_error prefix (B "too few arguments"), 1)
              else if (0 <? n) && (n <? nwords)
              then (sio_error prefix (B "too many arguments"), 1)
              else (Func words, func words) in
            Done (ev, st,
                  if MAX_BUFSIZE / sizeof_ptr <? words_len then None
                  else Some ws)
        end
    end.

(** The loop of [foreach_line], for at most [fuel] lines, [None] when
    they do not suffice: [buf] says that the line buffer is not [NULL],
    and [bufsize] is the value of the variable. *)
Fixpoint foreach_loop (isspace : byte → bool)
    (func : list (list byte) → Z) (prefix : list byte) (n : Z)
    (ndebug : bool) (fuel : nat) (stream : list byte)
    (buf : bool) (bufsize : Z)
    (wordsptr : option (list (option Z))) (status : Z)
    : option (list event * outcome Z) :=
  match fuel with
  | O => None
  | S fuel' =>
      (* simple_fgetline: assert( *size > 1) *)
      if negb (assertion ndebug (1 <? bufsize)) then Some ([], Aborted)
      else
        match stream with
        | [] => Some ([], Done status)
        | _ :: _ =>
            match Fgetline.simple_fgetline
                    (if buf then Some bufsize else None) stream with
            | None | Some (Fgetline.OutOfBounds _ _) => Some ([], Fault)
            | Some (Fgetline.Line line size rest) =>
                if len line =? 0 then Some ([], Done status)
                else if bool_decide (line !! 0%nat = Some Ch.nl) then
                  foreach_loop isspace func prefix n ndebug fuel' rest
                    true size wordsptr status
                else
                  match foreach_body isspace func prefix n ndebug
                          wordsptr line with
                  | Aborted => Some ([], Aborted)
                  | Fault => Some ([], Fault)
                  | Done (ev, st, wordsptr') =>
                      '(evs, o) ←
                        foreach_loop isspace func prefix n ndebug fuel'
                          rest (negb (MAX_BUFSIZE <? size)) size wordsptr'
                          (Z.lor status st);
                      Some (ev :: evs, o)
                  end
            end
        end
  end.

Definition foreach_line (isspace : byte → bool)
    (func : list (list byte) → Z) (prefix : list byte) (n : Z)
    (ndebug : bool) (garbage : Z) (stream : list byte)
    : option (list event * outcome Z) :=
  if negb (assertion ndebug (0 <=? n)) then Some ([], Aborted)
  else
    foreach_loop isspace func prefix n ndebug (S (length stream)) stream
      false garbage None 0.

(** [strrchr(s, c)] as an offset, for a character [c] that is not zero. *)
Fixpoint strrchr (s : list byte) (c : byte) : option nat :=
  match s with
  | [] => None
  | x :: s' =>
      match strrchr s' c with
      | Some i => Some (S i)
      | None => if Byte.eqb x c then Some 0%nat else None
      end
  end.

Definition slash : byte := x2f.

(** [g_progname] as [sio_main] sets it from [argv[0]]. *)
Definition progname (argv0 : list byte) : list byte :=
  match strrchr argv0 slash with
  | None => argv0
  | Some i =>
      match drop (S i) argv0 with
      | [] => argv0
      | p => p
      end
  end.

(** What [sprintf(usagemsg, ...)] writes, the terminating zero included,
    and the size of the array [usagemsg]. *)
Definition usage_text (name usage_args : list byte) : list byte :=
  B "usage: " ++ name ++ B " " ++ usage_args ++ [Ch.nl].

Definition usagemsg_size (name usage_args : list byte) : Z :=
  10 + len name + len usage_args.

(** [sio_main], on [argv[0]], on the arguments [argv[1]] to
    [argv[argc-1]], on whether the standard input is a terminal, and on
    what it holds. *)
Definition sio_main (isspace : byte → bool) (func : list (list byte) → Z)
    (n : Z) (usage_args : list byte) (ndebug : bool) (garbage : Z)
    (argv0 : list byte) (args : list (list byte))
    (isatty : bool) (stdin : list byte)
    : option (list event * outcome Z) :=
  if negb (assertion ndebug (0 <=? n)) then Some ([], Aborted)
  else
    let name := progname argv0 in
    let usagemsg := usage_text name usage_args in
    if usagemsg_size name usage_args <? len usagemsg + 1
    then Some ([], Fault)
    else
      let argc := len args + 1 in
      if (argc =? 2) &&
         (bool_decide (args !! 0%nat = Some (B "-h")) ||
          bool_decide (args !! 0%nat = Some (B "--help")))
      then Some ([Stdout usagemsg], Done (PXS 0))
      else if (argc =? 1) && negb isatty ||
              (argc =? 2) && bool_decide (args !! 0%nat = Some (B "-"))
      then
        '(evs, o) ←
          foreach_line isspace func (B "error") n ndebug garbage stdin;
        Some (evs, match o with
                   | Done status => Done (PXS status)
                   | Aborted => Aborted
                   | Fault => Fault
                   end)
      else if (n =? 0) && (1 <? argc) || (0 <? n) && (argc - 1 =? n)
      then Some ([Func args], Done (PXS (func args)))
      else Some ([Stderr usagemsg], Done (PXS 1)).

(** What [foreach_line] does with the words of a line. *)
Definition dispatch (func : list (list byte) → Z) (prefix : list byte)
    (n : Z) (words : list (list byte)) : event * Z :=
  if (0 <? n) && (len words <? n)
  then (sio_error prefix (B "too few arguments"), 1)
  else if (0 <? n) && (n <? len words)
  then (sio_error prefix (B "too many arguments"), 1)
  else (Func words, func words).

End Sio.

(** A line of [scanLines] that cannot fill the line buffer of
    [simple_fgetline], be it with a newline or at the end of the stream:
    the buffer holds a multiple of [block_size] bytes. *)
Definition off_block (l : list byte) : Prop :=
  l = [] ∨
  (len l mod Fgetline.block_size ≠ 0 ∧
   (len l + 1) mod Fgetline.block_size ≠ 0).

(** The sizes that the line buffer can have. *)
Definition blocks (bufsize : option Z) : Prop :=
  ∀ z, bufsize = Some z → ∃ k, 1 ≤ k ∧ z = Fgetline.block_size * k.

(** A line that is not empty. *)
Definition nonempty (l : list byte) : bool :=
  match l with [] => false | _ => true end.

(** The lines into which [scanLines] cuts data that is all there: the
    split function applied, with [atEOF] set, to what it has not yet
    advanced over, for at most [fuel] lines. *)
Fixpoint cut_lines (fuel : nat) (d : list byte)
    : option (list (list byte)) :=
  match fuel with
  | O => None
  | S fuel' =>
      match scanLines d true with
      | (advance, Some token) =>
          (token ::.) <$> cut_lines fuel' (drop (Z.to_nat advance) d)
      | (_, None) => Some []
      end
  end.

(** The lines that [lineReader.Read] and [scanLines] make of a stream
    that is read at once and scanned to its end. *)
Definition lines_of (stream : list byte) : option (list (list byte)) :=
  r ← LineReader.Read stream; cut_lines (S (length r)) r.

(** A stream without its continuations: a backslash that a newline
    follows is left out with the newline; a backslash that another
    character follows is kept with that character, which it escapes. *)
Fixpoint strip_continuations (d : list byte) : list byte :=
  match d with
  | [] => []
  | c :: d' =>
      if Byte.eqb c Ch.backslash then
        match d' with
        | [] => [c]
        | x :: d'' =>
            if Byte.eqb x Ch.nl then strip_continuations d''
            else c :: x :: strip_continuations d''
        end
      else c :: strip_continuations d'
  end.

(** * Basic facts *)

Lemma byte_eqb_spec (c d : byte) : reflect (c = d) (Byte.eqb c d).
Proof.
  destruct (Byte.eqb c d) eqn:E; constructor.
  - by apply Byte.byte_dec_bl.
  - by apply Byte.eqb_false.
Qed.

Lemma byte_eqb_refl (c : byte) : Byte.eqb c c = true.
Proof. by apply Byte.byte_dec_lb. Qed.

Lemma byte_eqb_ne (c d : byte) : c ≠ d → Byte.eqb c d = false.
Proof. by destruct (byte_eqb_spec c d). Qed.

Lemma len_nonneg {A} (l : list A) : 0 ≤ len l.
Proof. unfold len; lia. Qed.

Lemma len_app {A} (l k : list A) : len (l ++ k) = len l + len k.
Proof. unfold len; rewrite length_app; lia. Qed.

Lemma len_cons {A} (x : A) (l : list A) : len (x :: l) = 1 + len l.
Proof. unfold len; simpl; lia. Qed.

Lemma len_nil {A} : len (@nil A) = 0.
Proof. done. Qed.

Lemma index_Some (d : list byte) (i : Z) (c : byte) :
  0 ≤ i → d !! Z.to_nat i = Some c → index d i = Some c.
Proof.
  intros Hi Hc. unfold index.
  apply lookup_lt_Some in Hc as Hlt.
  assert (i < len d) by (unfold len; lia).
  by rewrite (proj2 (Z.leb_le _ _)), (proj2 (Z.ltb_lt _ _)).
Qed.

Lemma store_Some (d : list byte) (i : Z) (c : byte) :
  0 ≤ i < len d → store d i c = Some (<[Z.to_nat i := c]> d).
Proof.
  intros [? ?]. unfold store.
  by rewrite (proj2 (Z.leb_le _ _)), (proj2 (Z.ltb_lt _ _)).
Qed.

Lemma subslice_Some (d : list byte) (a b : Z) :
  0 ≤ a ≤ b → b ≤ len d → subslice d a b = Some (Slice a b).
Proof.
  intros [? ?] ?. unfold subslice.
  by rewrite !(proj2 (Z.leb_le _ _)).
Qed.

(** Writing at the frontier between the output built so far and the part
    of the input not yet overwritten. *)
Lemma insert_frontier (o d0 : list byte) (c : byte) :
  (length o < length d0)%nat →
  <[length o := c]> (o ++ drop (length o) d0)
  = (o ++ [c]) ++ drop (length (o ++ [c])) d0.
Proof.
  intros Hlt.
  rewrite insert_app_r_alt, Nat.sub_diag by lia.
  destruct (drop (length o) d0) as [|x r] eqn:E.
  { apply (f_equal length) in E. rewrite length_drop in E. simpl in E. lia. }
  simpl. rewrite <- app_assoc. simpl. do 2 f_equal.
  rewrite length_app. simpl.
  by rewrite <- (drop_drop d0 1 (length o)), E.
Qed.

Lemma bytes_of_app (o r : list byte) (t : slice) :
  0 ≤ lo t ≤ hi t → hi t ≤ len o → bytes_of (o ++ r) t = bytes_of o t.
Proof.
  intros [? ?] ?. unfold bytes_of, len in *.
  rewrite drop_app_le by lia.
  rewrite take_app_le; [done|]. rewrite length_drop. lia.
Qed.

Lemma bytes_of_to_end (o : list byte) (a : Z) :
  0 ≤ a ≤ len o → bytes_of o (Slice a (len o)) = drop (Z.to_nat a) o.
Proof.
  intros [? ?]. unfold bytes_of, len in *. simpl.
  apply take_ge. rewrite length_drop. lia.
Qed.

(** * The forward scan and the in-place code *)

Lemma lex_wf_init : lex_wf Lex.init.
Proof. split; try done. by left. Qed.

Lemma isQuote_not_nul c : isQuote c = true → c ≠ Ch.nul.
Proof. by intros H ->. Qed.

Lemma isQuote_not_space c : isQuote c = true → isSpace c = false.
Proof.
  unfold isQuote. intros [H|H]%orb_true_iff;
    apply Byte.byte_dec_bl in H; by subst.
Qed.

Lemma isQuote_not_backslash c :
  isQuote c = true → Byte.eqb c Ch.backslash = false.
Proof.
  unfold isQuote. intros [H|H]%orb_true_iff;
    apply Byte.byte_dec_bl in H; by subst.
Qed.

Local Ltac lex_wf_absurd H :=
  first [ destruct H as [H _]; by specialize (H eq_refl)
        | destruct H as [_ H]; by specialize (H eq_refl) ].

Lemma lex_wf_step a c : lex_wf a → lex_wf (Lex.step a c).
Proof.
  intros [Hc Hq He Hm]. unfold Lex.step.
  destruct (Lex.esc a) eqn:Ee; simpl.
  { specialize (He eq_refl).
    split; simpl; try done. rewrite He in *.
    destruct (Lex.cur a); simpl; [done|]. by destruct Hc as [_ Hc]. }
  destruct (byte_eqb_spec (Lex.q a) Ch.nul) as [Hn|Hn].
  - destruct (isQuote c) eqn:Eq.
    + rewrite (isQuote_not_space _ Eq), (isQuote_not_backslash _ Eq).
      destruct (Lex.was a) eqn:Ew; simpl; split; simpl; try done.
      all: by right.
    + destruct (isSpace c) eqn:Es, (Lex.was a) eqn:Ew; simpl;
        destruct (byte_eqb_spec c Ch.backslash) as [->|Hb]; simpl;
        split; simpl; try done.
      all: destruct (Lex.cur a); simpl; try done; lex_wf_absurd Hc.
  - specialize (Hq Hn). rewrite Hq in *.
    destruct (Byte.eqb c (Lex.q a)); simpl;
      destruct (Byte.eqb c Ch.backslash); simpl; split; simpl; try done.
    all: try by left.
    all: destruct (Lex.cur a); simpl; try done; lex_wf_absurd Hc.
Qed.

Lemma tokens_denote_grow o toks st dn cu c :
  tokens_denote o toks st dn cu →
  tokens_denote (o ++ [c]) toks st dn ((λ t, t ++ [c]) <$> cu).
Proof.
  intros [Hr Hd Hs]. split.
  - eapply Forall_impl; [exact Hr|]. intros t. rewrite len_app.
    pose proof (len_nonneg [c]). lia.
  - rewrite Hd. apply map_ext_Forall.
    eapply Forall_impl; [exact Hr|]. intros t [? ?]. simpl.
    by rewrite bytes_of_app.
  - destruct cu as [t|]; simpl; [|done].
    destruct Hs as [? ->]. rewrite len_app. pose proof (len_nonneg [c]).
    split; [lia|]. rewrite drop_app_le; [done|]. unfold len in *. lia.
Qed.

Lemma tokens_denote_open o toks dn :
  tokens_denote o toks (-1) dn None →
  tokens_denote o toks (len o) dn (Some []).
Proof.
  intros [Hr Hd Hs]. split; try done. pose proof (len_nonneg o).
  split; [lia|]. unfold len. by rewrite Nat2Z.id, drop_all.
Qed.

Lemma tokens_denote_close o toks st dn t :
  tokens_denote o toks st dn (Some t) →
  tokens_denote o (toks ++ [Slice st (len o)]) (-1) (dn ++ [t]) None.
Proof.
  intros [Hr Hd [Hs ->]]. split; try done.
  - apply Forall_app; split; [done|]. apply Forall_singleton. simpl. lia.
  - rewrite map_app, Hd. simpl. by rewrite bytes_of_to_end.
Qed.

Lemma refines_init d0 : refines d0 0 (tokenize_init d0) Lex.init.
Proof.
  split; simpl; try done. apply len_nonneg.
Qed.

Lemma refines_index d0 i s a c :
  refines d0 i s a → 0 ≤ i → d0 !! Z.to_nat i = Some c →
  index (data s) i = Some c.
Proof.
  intros R Hi Hc. apply index_Some; [done|].
  pose proof (r_shift _ _ _ _ R). pose proof (r_shift_nonneg _ _ _ _ R).
  rewrite (r_data _ _ _ _ R). unfold len in *.
  rewrite lookup_app_r by lia. rewrite lookup_drop.
  rewrite <- Hc. f_equal. lia.
Qed.

(** The two ways an iteration ends: the character is deleted, or it is
    written at the frontier. *)
Lemma refines_delete d0 i s a toks st dn cu w e qu :
  refines d0 i s a → 0 ≤ i < len d0 →
  tokens_denote (Lex.out a) toks st dn cu →
  ∃ s',
    Some {| data := data s; tokens := toks; start := st;
            shift := shift s + 1; wasSpace := w; escaped := e;
            quote := qu |} = Some s' ∧
    refines d0 (i + 1) s'
      {| Lex.out := Lex.out a; Lex.done := dn; Lex.cur := cu; Lex.was := w;
         Lex.esc := e; Lex.q := qu |}.
Proof.
  intros [Rs Rn Rb Rd Rt Rw Re Rq] Hi Ht.
  eexists; split; [done|]. split; simpl; try done; lia.
Qed.

Lemma refines_write d0 i s a toks st dn cu w e qu c :
  refines d0 i s a → 0 ≤ i < len d0 →
  tokens_denote (Lex.out a) toks st dn cu →
  ∃ s',
    (d ← store (data s) (i - shift s) c;
     Some {| data := d; tokens := toks; start := st; shift := shift s;
             wasSpace := w; escaped := e; quote := qu |}) = Some s' ∧
    refines d0 (i + 1) s'
      {| Lex.out := Lex.out a ++ [c]; Lex.done := dn;
         Lex.cur := (λ t, t ++ [c]) <$> cu; Lex.was := w;
         Lex.esc := e; Lex.q := qu |}.
Proof.
  intros [Rs Rn Rb Rd Rt Rw Re Rq] Hi Ht.
  assert (Hlen : len (data s) = len d0).
  { rewrite Rd, len_app. unfold len in *. rewrite length_drop. lia. }
  pose proof (len_nonneg (Lex.out a)).
  rewrite store_Some by lia. simpl.
  eexists; split; [done|].
  split; simpl; try done.
  - rewrite len_app, len_cons, len_nil. lia.
  - lia.
  - replace (Z.to_nat (i - shift s)) with (length (Lex.out a))
      by (unfold len in *; lia).
    rewrite Rd. apply insert_frontier. unfold len in *. lia.
  - by apply tokens_denote_grow.
Qed.

Lemma tokenize_body_refines d0 i s a c :
  refines d0 i s a → lex_wf a → 0 ≤ i →
  d0 !! Z.to_nat i = Some c →
  ∃ s', tokenize_body i c s = Some s' ∧ refines d0 (i + 1) s' (Lex.step a c).
Proof.
  intros R [Hcur Hq _ _] Hi Hd0.
  pose proof R as [Rs Rn Rb Rd Rt Rw Re Rq].
  apply lookup_lt_Some in Hd0 as Hlt.
  assert (Hi' : 0 ≤ i < len d0) by (unfold len; lia).
  assert (Hw : i - shift s = len (Lex.out a)) by lia.
  assert (Hlen : len (data s) = len d0).
  { rewrite Rd, len_app. unfold len in *. rewrite length_drop. lia. }
  unfold tokenize_body, Lex.step.
  rewrite Rw, Re, Rq.
  destruct (Lex.esc a); simpl.
  { by apply refines_write. }
  destruct (Byte.eqb (Lex.q a) Ch.nul); simpl.
  - assert (Hst :
      ∃ toks st dn cu,
        (if Lex.was a && negb (isSpace c)
         then Some (tokens s, i - shift s)
         else
           if negb (Lex.was a) && isSpace c
           then t ← subslice (data s) (start s) (i - shift s);
                Some (tokens s ++ [t], -1)
           else Some (tokens s, start s)) = Some (toks, st) ∧
        (if Lex.was a && negb (isSpace c) then (Lex.done a, Some [])
         else if negb (Lex.was a) && isSpace c
              then (Lex.done a ++ [default [] (Lex.cur a)], None)
              else (Lex.done a, Lex.cur a)) = (dn, cu) ∧
        tokens_denote (Lex.out a) toks st dn cu).
    { destruct (Lex.was a) eqn:Ew, (isSpace c) eqn:Es; simpl.
      - eauto 10.
      - do 4 eexists. split; [done|]. split; [done|].
        rewrite Hw. apply tokens_denote_open.
        rewrite (proj1 Hcur eq_refl) in Rt.
        destruct Rt as [Hr Hd Hs]. by split.
      - destruct (Lex.cur a) as [t|] eqn:Ec;
          [|by (assert (false = true) by (by apply Hcur))].
        destruct Rt as [Hr Hd Hs].
        rewrite subslice_Some by lia. simpl.
        do 4 eexists. split; [done|]. split; [done|].
        rewrite Hw. by apply tokens_denote_close.
      - eauto 10. }
    destruct Hst as (toks & st & dn & cu & -> & -> & Ht). simpl.
    destruct (isQuote c); simpl.
    + rewrite orb_true_r. by apply refines_delete.
    + rewrite orb_false_r.
      destruct (Byte.eqb c Ch.backslash);
        [by apply refines_delete|by apply refines_write].
  - destruct (Byte.eqb c (Lex.q a)); simpl.
    + rewrite orb_true_r. by apply refines_delete.
    + rewrite orb_false_r.
      destruct (Byte.eqb c Ch.backslash);
        [by apply refines_delete|by apply refines_write].
Qed.

Lemma lex_wf_run a d : lex_wf a → lex_wf (Lex.run a d).
Proof.
  revert a. induction d as [|c d IH]; intros a Ha; simpl; [done|].
  apply IH. by apply lex_wf_step.
Qed.

Lemma tokenize_loop_refines d0 pre : ∀ post i s a,
  refines d0 i s a → lex_wf a → 0 ≤ i →
  drop (Z.to_nat i) d0 = pre ++ post →
  ∃ s', tokenize_loop (length pre) i s = Some s' ∧
        refines d0 (i + len pre) s' (Lex.run a pre).
Proof.
  induction pre as [|c pre IH]; intros post i s a R Ha Hi Hd; simpl.
  { exists s. split; [done|]. by rewrite len_nil, Z.add_0_r. }
  assert (Hc : d0 !! Z.to_nat i = Some c).
  { rewrite <- (Nat.add_0_r (Z.to_nat i)), <- lookup_drop, Hd. done. }
  rewrite (refines_index _ _ _ _ _ R Hi Hc). simpl.
  destruct (tokenize_body_refines _ _ _ _ _ R Ha Hi Hc) as (s1 & -> & R1).
  simpl.
  destruct (IH post (i + 1) s1 (Lex.step a c) R1) as (s' & Hs' & R').
  - by apply lex_wf_step.
  - lia.
  - replace (Z.to_nat (i + 1)) with (Z.to_nat i + 1)%nat by lia.
    by rewrite <- drop_drop, Hd.
  - exists s'. split; [done|]. rewrite len_cons.
    by replace (i + (1 + len pre)) with (i + 1 + len pre) by lia.
Qed.

(** The in-place tokenizer never panics; it leaves in the buffer the
    output of the forward scan followed by the input it has not
    overwritten, and its token slices denote the tokens of the forward
    scan. *)
Lemma tokenize_refines (d0 : list byte) :
  let a := Lex.run Lex.init d0 in
  ∃ toks,
    tokenize d0
      = Some (Lex.out a ++ drop (length (Lex.out a)) d0, toks) ∧
    Forall (λ t, 0 ≤ lo t ≤ hi t ∧ hi t ≤ len (Lex.out a)) toks ∧
    map (bytes_of (Lex.out a)) toks = Lex.lex d0.
Proof.
  intros a. unfold tokenize.
  destruct (tokenize_loop_refines d0 d0 [] 0 _ _ (refines_init d0)
              lex_wf_init) as (s & -> & R); [done| |].
  { by rewrite app_nil_r. }
  simpl. fold a in R.
  pose proof (lex_wf_run _ d0 lex_wf_init) as [Hcur _ _ _]. fold a in Hcur.
  destruct R as [Rs Rn Rb Rd Rt Rw Re Rq].
  assert (Hlen : len (data s) = len d0).
  { rewrite Rd, len_app. unfold len in *. rewrite length_drop. lia. }
  unfold tokenize_finish, Lex.lex, Lex.finish. fold a.
  destruct (Lex.cur a) as [t|] eqn:Ec.
  - pose proof (tokens_denote_close _ _ _ _ _ Rt) as [Hr Hd _].
    destruct Rt as [_ _ [Hs _]].
    replace (start s =? -1) with false by (symmetry; apply Z.eqb_neq; lia).
    simpl. rewrite subslice_Some by lia. simpl.
    replace (len (data s) - shift s) with (len (Lex.out a)) by lia.
    rewrite <- Rd. eauto.
  - destruct Rt as [Hr Hd Hs]. rewrite Hs. simpl. rewrite <- Rd. eauto.
Qed.

Lemma tokenize_strings_lex (d0 : list byte) :
  tokenize_strings d0 = Some (Lex.lex d0).
Proof.
  destruct (tokenize_refines d0) as (toks & E & Hr & Hm).
  unfold tokenize_strings. rewrite E. simpl. unfold strings. simpl.
  f_equal. rewrite <- Hm. apply map_ext_Forall.
  eapply Forall_impl; [exact Hr|]. intros t [? ?]. simpl.
  by apply bytes_of_app.
Qed.

(** * Plain input: the tokenizer splits on white space *)

Lemma plain_spec c :
  plain c = true ↔ isQuote c = false ∧ Byte.eqb c Ch.backslash = false.
Proof.
  unfold plain. rewrite andb_true_iff, !negb_true_iff. done.
Qed.

Lemma fields_from_nonempty (t s : list byte) c :
  isSpace c = true → t ≠ [] →
  fields_from t (c :: s) = t :: fields_from [] s.
Proof. intros Hc Ht. simpl. rewrite Hc. by destruct t. Qed.

Lemma lex_plain (s : list byte) : ∀ a,
  forallb plain s = true →
  Lex.esc a = false → Lex.q a = Ch.nul →
  (Lex.was a = true ∧ Lex.cur a = None) ∨
  (Lex.was a = false ∧ ∃ t, Lex.cur a = Some t ∧ t ≠ []) →
  Lex.finish (Lex.run a s)
  = Lex.done a ++ fields_from (default [] (Lex.cur a)) s.
Proof.
  induction s as [|c s IH]; intros a Hs He Hq Hcur; simpl.
  { unfold Lex.finish.
    destruct Hcur as [[_ ->]|[_ (t & -> & Ht)]]; simpl.
    - by rewrite app_nil_r.
    - by destruct t. }
  simpl in Hs. apply andb_true_iff in Hs as [Hc Hs].
  apply plain_spec in Hc as [Hcq Hcb].
  assert (Est : ∃ a', Lex.step a c = a' ∧ Lex.esc a' = false ∧
            Lex.q a' = Ch.nul ∧
            Lex.done a' ++ fields_from (default [] (Lex.cur a')) s
            = Lex.done a ++
              (if isSpace c then
                 match default [] (Lex.cur a) with
                 | [] => fields_from [] s
                 | w => w :: fields_from [] s
                 end
               else fields_from (default [] (Lex.cur a) ++ [c]) s) ∧
            ((Lex.was a' = true ∧ Lex.cur a' = None) ∨
             (Lex.was a' = false ∧ ∃ t, Lex.cur a' = Some t ∧ t ≠ []))).
  { eexists; split; [done|]. unfold Lex.step.
    rewrite He, Hq, Hcq, Hcb. simpl.
    destruct Hcur as [[-> ->]|[-> (t & -> & Ht)]];
      destruct (isSpace c) eqn:Es; simpl;
      repeat split; eauto.
    - rewrite <- app_assoc. simpl. by destruct t.
    - right. split; [done|]. exists (t ++ [c]). split; [done|].
      by destruct t. }
  destruct Est as (a' & -> & He' & Hq' & E & Hcur').
  rewrite (IH a' Hs He' Hq' Hcur'), E.
  by destruct (default [] (Lex.cur a)).
Qed.

Lemma lex_fields (s : list byte) :
  forallb plain s = true → Lex.lex s = fields s.
Proof.
  intros Hs. unfold Lex.lex. rewrite lex_plain; try done.
  by left.
Qed.

Lemma fields_from_space (s : list byte) :
  forallb isSpace s = true → fields_from [] s = [].
Proof.
  induction s as [|c s IH]; simpl; [done|].
  intros [Hc Hs]%andb_true_iff. rewrite Hc. by apply IH.
Qed.

(** [fields] is determined by these equations: leading white space is
    skipped, and a word runs up to the next white space character or to
    the end. *)
Lemma fields_from_word (t w s : list byte) :
  forallb (λ c, negb (isSpace c)) w = true →
  fields_from t (w ++ s) = fields_from (t ++ w) s.
Proof.
  revert t. induction w as [|c w IH]; intros t Hw; simpl.
  { by rewrite app_nil_r. }
  simpl in Hw. apply andb_true_iff in Hw as [Hc Hw].
  apply negb_true_iff in Hc. rewrite Hc, IH by done.
  by rewrite <- app_assoc.
Qed.

Lemma fields_skip_space (ws s : list byte) :
  forallb isSpace ws = true → fields (ws ++ s) = fields s.
Proof.
  unfold fields. induction ws as [|c ws IH]; simpl; [done|].
  intros [Hc Hw]%andb_true_iff. rewrite Hc. by apply IH.
Qed.

Lemma fields_word_space (w s : list byte) (c : byte) :
  w ≠ [] → forallb (λ c, negb (isSpace c)) w = true → isSpace c = true →
  fields (w ++ c :: s) = w :: fields s.
Proof.
  intros Hne Hw Hc. unfold fields.
  rewrite fields_from_word by done. simpl.
  by apply fields_from_nonempty.
Qed.

Lemma fields_word (w : list byte) :
  w ≠ [] → forallb (λ c, negb (isSpace c)) w = true → fields w = [w].
Proof.
  intros Hne Hw. unfold fields.
  rewrite <- (app_nil_r w) at 1. rewrite fields_from_word by done.
  simpl. by destruct w.
Qed.

Lemma forallb_both {A} (f g : A → bool) (l : list A) :
  forallb (λ x, f x && g x) l = forallb f l && forallb g l.
Proof.
  induction l as [|x l IH]; simpl; [done|]. rewrite IH.
  destruct (f x), (g x), (forallb f l); done.
Qed.

Lemma plain_word_spec (t : list byte) :
  plain_word t = true ↔
  t ≠ [] ∧ forallb plain t = true ∧
  forallb (λ c, negb (isSpace c)) t = true.
Proof.
  unfold plain_word.
  rewrite andb_true_iff, negb_true_iff, bool_decide_eq_false.
  rewrite forallb_both, andb_true_iff. done.
Qed.

Lemma join_space_plain (toks : list (list byte)) :
  Forall (λ t, plain_word t = true) toks →
  forallb plain (join_space toks) = true.
Proof.
  induction 1 as [|t toks Ht Hts IH]; [done|].
  apply plain_word_spec in Ht as (_ & Hp & _).
  destruct toks as [|t' toks]; [done|].
  change (join_space (t :: t' :: toks))
    with (t ++ Ch.space :: join_space (t' :: toks)).
  rewrite forallb_app. simpl in *. by rewrite Hp, IH.
Qed.

Lemma fields_join_space (toks : list (list byte)) :
  Forall (λ t, plain_word t = true) toks →
  fields (join_space toks) = toks.
Proof.
  induction 1 as [|t toks Ht Hts IH]; [done|].
  apply plain_word_spec in Ht as (Hne & _ & Hw).
  destruct toks as [|t' toks].
  - by apply fields_word.
  - change (join_space (t :: t' :: toks))
      with (t ++ Ch.space :: join_space (t' :: toks)).
    rewrite fields_word_space by done. by rewrite IH.
Qed.

(** * The claims about the tokenizer on plain input *)

(** C1: on an input without quotation marks and backslashes, [tokenize]
    returns exactly the fields obtained by splitting the input on maximal
    runs of white space; in particular an input that is empty or all
    white space gives the empty token list. *)
Theorem C1_tokenize_plain_splits_on_space (s : list byte) :
  forallb plain s = true →
  tokenize_strings s = Some (fields s) ∧
  (forallb isSpace s = true → tokenize_strings s = Some []).
Proof.
  intros Hs. rewrite tokenize_strings_lex, lex_fields by done.
  split; [done|]. intros Hsp. unfold fields.
  by rewrite fields_from_space.
Qed.

Lemma C1_witness :
  forallb plain (B "one  two 3 ") = true ∧
  tokenize_strings (B "one  two 3 ") = Some [B "one"; B "two"; B "3"].
Proof.
  split; [reflexivity|].
  exact (proj1 (C1_tokenize_plain_splits_on_space (B "one  two 3 ") eq_refl)).
Defined.

(** C9, as stated, fails: a token from a quoted region may hold white
    space without holding any quotation mark or backslash, and it does not
    survive joining and tokenizing again. *)
Lemma C9_counterexample :
  ∃ d toks,
    tokenize_strings d = Some toks ∧
    Forall (λ t, forallb plain t = true) toks ∧
    tokenize_strings (join_space toks) ≠ Some toks.
Proof.
  exists (B "'a b'"), [B "a b"]. split; [reflexivity|].
  split; [by repeat constructor|]. by vm_compute.
Qed.

(** C9, amended: if every token that [tokenize] returns is a non-empty
    word without quotation marks, backslashes and white space, then
    joining the tokens with a single space and tokenizing the result gives
    the same tokens again. *)
Theorem C9_roundtrip_plain_words (d : list byte) (toks : list (list byte)) :
  tokenize_strings d = Some toks →
  Forall (λ t, plain_word t = true) toks →
  tokenize_strings (join_space toks) = Some toks.
Proof.
  intros _ Hw.
  rewrite tokenize_strings_lex, lex_fields by by apply join_space_plain.
  by rewrite fields_join_space.
Qed.

Lemma C9_witness :
  tokenize_strings (join_space [B "ab"; B "c"]) = Some [B "ab"; B "c"].
Proof.
  apply (C9_roundtrip_plain_words (B " 'a'b   c ") [B "ab"; B "c"]).
  - reflexivity.
  - repeat constructor.
Defined.

(** * The number of tokens *)

Lemma len_finish (a : Lex.st) :
  len (Lex.finish a)
  = len (Lex.done a) + match Lex.cur a with Some _ => 1 | None => 0 end.
Proof.
  unfold Lex.finish. destruct (Lex.cur a); [|lia].
  rewrite len_app, len_cons, len_nil. lia.
Qed.

(** A step opens at most one token, and only at a character that is not
    white space and follows white space in the raw input. *)
Lemma lex_step_count (a : Lex.st) (c : byte) (w : bool) :
  lex_wf a → (Lex.was a = true → w = true) →
  len (Lex.finish (Lex.step a c))
  ≤ len (Lex.finish a) + (if w && negb (isSpace c) then 1 else 0) ∧
  (Lex.was (Lex.step a c) = true → isSpace c = true).
Proof.
  intros [Hcur Hq He _] Hw. rewrite !len_finish. unfold Lex.step.
  destruct (Lex.esc a) eqn:Ee; simpl.
  { rewrite (He eq_refl). split; [|done].
    destruct (Lex.cur a), (w && negb (isSpace c)); simpl; lia. }
  destruct (byte_eqb_spec (Lex.q a) Ch.nul) as [Hn|Hn].
  - assert (Hopen :
      ∀ dq : byte * bool,
        (let '(q1, del) := dq in
         let '(done1, cur1, was1, q2, del1) :=
           let '(done1, cur1) :=
             if Lex.was a && negb (isSpace c) then (Lex.done a, Some [])
             else if negb (Lex.was a) && isSpace c
                  then (Lex.done a ++ [default [] (Lex.cur a)], None)
                  else (Lex.done a, Lex.cur a) in
           (done1, cur1, isSpace c, q1, del) in
         ∀ e : bool,
           len done1 + match cur1 with Some _ => 1 | None => 0 end
           ≤ len (Lex.done a)
             + match Lex.cur a with Some _ => 1 | None => 0 end
             + (if w && negb (isSpace c) then 1 else 0) ∧
           was1 = isSpace c)).
    { intros [q1 del].
      destruct (Lex.was a) eqn:Ew, (isSpace c) eqn:Es; simpl; intros e.
      - split; [|done]. destruct (Lex.cur a), w; simpl; lia.
      - rewrite (Hw eq_refl). simpl. split; [|done].
        destruct (Lex.cur a); lia.
      - split; [|done]. rewrite len_app, len_cons, len_nil.
        destruct (Lex.cur a) eqn:Ec; [destruct w; simpl; lia|].
        by destruct Hcur as [_ Hcur]; specialize (Hcur eq_refl).
      - split; [|done]. destruct (Lex.cur a), w; simpl; lia. }
    specialize (Hopen (if isQuote c then (c, true) else (Lex.q a, false))).
    destruct (if isQuote c then (c, true) else (Lex.q a, false)) as [q1 del].
    simpl in Hopen.
    destruct (if Lex.was a && negb (isSpace c) then (Lex.done a, Some [])
              else if negb (Lex.was a) && isSpace c
                   then (Lex.done a ++ [default [] (Lex.cur a)], None)
                   else (Lex.done a, Lex.cur a)) as [done1 cur1].
    destruct (Hopen true) as [Hle Hwas].
    destruct (Byte.eqb c Ch.backslash || del); simpl.
    + split; [done|]. by intros ->.
    + split; [|by intros ->]. by destruct cur1.
  - rewrite (Hq Hn).
    destruct (Byte.eqb c (Lex.q a)); simpl;
      destruct (Byte.eqb c Ch.backslash); simpl; split; try done.
    all: destruct (Lex.cur a), (w && negb (isSpace c)); simpl; lia.
Qed.

Lemma lex_run_count (d : list byte) : ∀ (a : Lex.st) (n : Z) (w : bool),
  lex_wf a → (Lex.was a = true → w = true) →
  len (Lex.finish (Lex.run a d)) - len (Lex.finish a)
  ≤ countMaxTokens_loop d n w - n.
Proof.
  induction d as [|c d IH]; intros a n w Ha Hw; simpl; [lia|].
  destruct (lex_step_count a c w Ha Hw) as [Hle Hwas].
  pose proof (IH (Lex.step a c)
    (if w && negb (isSpace c) then n + 1 else n) (isSpace c)
    (lex_wf_step _ _ Ha) Hwas) as IH'.
  destruct (w && negb (isSpace c)); lia.
Qed.

(** C8: the number of tokens that [tokenize] returns is at most
    [countMaxTokens] of its input, the number of maximal runs of
    characters other than white space in the raw bytes. *)
Theorem C8_token_count_bounded (d : list byte) :
  ∃ buf toks,
    tokenize d = Some (buf, toks) ∧ len toks ≤ countMaxTokens d.
Proof.
  destruct (tokenize_refines d) as (toks & E & _ & Hm).
  eexists _, toks. split; [exact E|].
  pose proof (lex_run_count d Lex.init 0 true lex_wf_init (λ _, eq_refl)) as H.
  apply (f_equal length) in Hm. rewrite length_map in Hm.
  unfold countMaxTokens, Lex.lex, len in *. simpl in H. lia.
Qed.

(** * What the forward scan keeps *)

Local Ltac lex_step_cases a c :=
  unfold Lex.step;
  destruct (Lex.esc a); simpl; [done|];
  destruct (Byte.eqb (Lex.q a) Ch.nul); simpl;
  [ destruct (isQuote c) eqn:?, (Lex.was a), (isSpace c); simpl;
    rewrite ?(isQuote_not_backslash c) by done; simpl; try done;
    destruct (Byte.eqb c Ch.backslash); done
  | destruct (Byte.eqb c (Lex.q a)); simpl;
    destruct (Byte.eqb c Ch.backslash); done ].

Lemma lex_step_esc (a : Lex.st) (c : byte) :
  Lex.esc (Lex.step a c) = negb (Lex.esc a) && Byte.eqb c Ch.backslash.
Proof. lex_step_cases a c. Qed.

Lemma lex_step_q (a : Lex.st) (c : byte) :
  Lex.q (Lex.step a c)
  = if Lex.esc a then Lex.q a
    else if Byte.eqb (Lex.q a) Ch.nul then
      if isQuote c then c else Lex.q a
    else if Byte.eqb c (Lex.q a) then Ch.nul else Lex.q a.
Proof. lex_step_cases a c. Qed.

Lemma lex_step_out (a : Lex.st) (c : byte) :
  Lex.out (Lex.step a c)
  = if Lex.esc a then Lex.out a ++ [c]
    else if Byte.eqb c Ch.backslash then Lex.out a
    else if Byte.eqb (Lex.q a) Ch.nul then
      if isQuote c then Lex.out a else Lex.out a ++ [c]
    else if Byte.eqb c (Lex.q a) then Lex.out a else Lex.out a ++ [c].
Proof. lex_step_cases a c. Qed.

Lemma lex_out_decode (d : list byte) : ∀ a,
  lex_wf a →
  Lex.out (Lex.run a d) = Lex.out a ++ decode (Lex.esc a) (Lex.q a) d.
Proof.
  induction d as [|c d IH]; intros a Ha; simpl.
  { by rewrite app_nil_r. }
  rewrite IH, lex_step_out, lex_step_esc, lex_step_q
    by by apply lex_wf_step.
  destruct Ha as [_ _ _ Hm].
  destruct (Lex.esc a); simpl.
  { by rewrite <- app_assoc. }
  destruct (byte_eqb_spec c Ch.backslash) as [->|Hb]; simpl.
  { destruct Hm as [->|Hm]; [done|].
    apply isQuote_not_backslash in Hm as Hm'.
    rewrite (byte_eqb_ne _ _ (isQuote_not_nul _ Hm)).
    destruct (byte_eqb_spec Ch.backslash (Lex.q a)) as [E|_]; [|done].
    rewrite <- E in Hm'. done. }
  destruct (Byte.eqb (Lex.q a) Ch.nul).
  - destruct (isQuote c); [done|]. by rewrite <- app_assoc.
  - destruct (Byte.eqb c (Lex.q a)); [done|]. by rewrite <- app_assoc.
Qed.

(** * The claim about the buffer *)

(** C10: [tokenize] mutates its input.  It leaves in the buffer the
    decoded characters (the input with its structural quotation marks and
    backslashes deleted), shifted left into a prefix, followed by the input
    bytes it has not overwritten; every returned token is a slice of that
    same buffer, inside the decoded prefix, so that changing a byte of the
    buffer under a token changes the token; and there are inputs whose
    bytes the call does not preserve. *)
Theorem C10_tokenize_mutates_buffer :
  (∀ d : list byte,
     let out := decode false Ch.nul d in
     ∃ buf toks,
       tokenize d = Some (buf, toks) ∧
       buf = out ++ drop (length out) d ∧
       Forall (λ t, 0 ≤ lo t ≤ hi t ∧ hi t ≤ len out) toks ∧
       ∀ t k c,
         t ∈ toks → lo t ≤ k < hi t → buf !! Z.to_nat k ≠ Some c →
         bytes_of (<[Z.to_nat k := c]> buf) t ≠ bytes_of buf t) ∧
  (∃ d buf toks, tokenize d = Some (buf, toks) ∧ buf ≠ d).
Proof.
  split.
  - intros d out.
    destruct (tokenize_refines d) as (toks & E & Hr & _).
    rewrite (lex_out_decode d Lex.init lex_wf_init) in E, Hr.
    simpl in E, Hr. fold out in E, Hr.
    eexists _, toks. split; [exact E|]. split; [done|]. split; [done|].
    intros t k c Ht Hk Hne Heq.
    rewrite Forall_forall in Hr. destruct (Hr t Ht) as [Hlo Hhi].
    apply Hne. unfold bytes_of in Heq.
    apply (f_equal (λ l, l !! Z.to_nat (k - lo t))) in Heq.
    rewrite !lookup_take_lt, !lookup_drop in Heq by lia.
    replace (Z.to_nat (lo t) + Z.to_nat (k - lo t))%nat
      with (Z.to_nat k) in Heq by lia.
    rewrite <- Heq. apply list_lookup_insert_eq.
    rewrite length_app. unfold len in *. lia.
  - exists (B "'a'"). eexists _, _. split; [reflexivity|]. done.
Qed.

(** * States of the loop *)

Lemma tokenize_loop_S (n : nat) (i : Z) (s : tstate) :
  tokenize_loop (S n) i s
  = c ← index (data s) i; s' ← tokenize_body i c s;
    tokenize_loop n (i + 1) s'.
Proof. done. Qed.

Lemma tokenize_loop_snoc (n : nat) : ∀ i s,
  tokenize_loop (S n) i s
  = s' ← tokenize_loop n i s;
    c ← index (data s') (i + Z.of_nat n);
    tokenize_body (i + Z.of_nat n) c s'.
Proof.
  induction n as [|n IH]; intros i s.
  - simpl. rewrite Z.add_0_r.
    destruct (index (data s) i) as [c|]; simpl; [|done].
    by destruct (tokenize_body i c s).
  - rewrite (tokenize_loop_S (S n)), (tokenize_loop_S n).
    destruct (index (data s) i) as [c|]; [|done].
    cbn [mbind option_bind].
    destruct (tokenize_body i c s) as [s1|]; [|done].
    cbn [mbind option_bind].
    rewrite IH.
    by replace (i + 1 + Z.of_nat n) with (i + Z.of_nat (S n)) by lia.
Qed.

Lemma tokenize_at_succ (d : list byte) (k : nat) :
  tokenize_at d (S k)
  = s ← tokenize_at d k;
    c ← index (data s) (Z.of_nat k);
    tokenize_body (Z.of_nat k) c s.
Proof. unfold tokenize_at. by rewrite tokenize_loop_snoc. Qed.

(** The state before iteration [length pre] stands for the forward scan
    of [pre]. *)
Lemma tokenize_at_refines (pre post : list byte) :
  ∃ s, tokenize_at (pre ++ post) (length pre) = Some s ∧
       refines (pre ++ post) (len pre) s (Lex.run Lex.init pre).
Proof.
  destruct (tokenize_loop_refines (pre ++ post) pre post 0 _ _
              (refines_init _) lex_wf_init) as (s & E & R); [done|done|].
  exists s. split; [done|]. by rewrite Z.add_0_l in R.
Qed.

Lemma tokenize_at_inv (pre post : list byte) (s : tstate) :
  tokenize_at (pre ++ post) (length pre) = Some s →
  refines (pre ++ post) (len pre) s (Lex.run Lex.init pre) ∧
  lex_wf (Lex.run Lex.init pre).
Proof.
  intros E. destruct (tokenize_at_refines pre post) as (s' & E' & R).
  rewrite E in E'. injection E' as <-. split; [done|].
  apply lex_wf_run, lex_wf_init.
Qed.

(** ** One iteration, case by case *)

Lemma tokenize_body_escaped (i : Z) (c : byte) (s : tstate) :
  escaped s = true →
  tokenize_body i c s
  = d ← store (data s) (i - shift s) c;
    Some {| data := d; tokens := tokens s; start := start s;
            shift := shift s; wasSpace := wasSpace s; escaped := false;
            quote := quote s |}.
Proof. intros E. unfold tokenize_body. by rewrite E. Qed.

Lemma tokenize_body_backslash (i : Z) (s : tstate) :
  escaped s = false →
  quote s = Ch.nul ∨ isQuote (quote s) = true →
  tokenize_body i Ch.backslash s
  = Some {| data := data s; tokens := tokens s;
            start := if Byte.eqb (quote s) Ch.nul && wasSpace s
                     then i - shift s else start s;
            shift := shift s + 1;
            wasSpace := if Byte.eqb (quote s) Ch.nul then false
                        else wasSpace s;
            escaped := true; quote := quote s |}.
Proof.
  intros E Hq. unfold tokenize_body. rewrite E. simpl.
  destruct Hq as [Hq|Hq].
  - rewrite Hq. simpl. by destruct (wasSpace s).
  - rewrite (byte_eqb_ne _ _ (isQuote_not_nul _ Hq)).
    destruct (byte_eqb_spec Ch.backslash (quote s)) as [Hb|_]; [|done].
    by rewrite <- Hb in Hq.
Qed.

Lemma tokenize_body_open (i : Z) (c : byte) (s : tstate) :
  escaped s = false → quote s = Ch.nul → isQuote c = true →
  tokenize_body i c s
  = Some {| data := data s; tokens := tokens s;
            start := if wasSpace s then i - shift s else start s;
            shift := shift s + 1; wasSpace := false; escaped := false;
            quote := c |}.
Proof.
  intros E Hq Hc. unfold tokenize_body. rewrite E, Hq, Hc. simpl.
  rewrite (isQuote_not_space _ Hc), (isQuote_not_backslash _ Hc).
  by destruct (wasSpace s).
Qed.

Lemma tokenize_body_close (i : Z) (s : tstate) :
  escaped s = false → isQuote (quote s) = true →
  tokenize_body i (quote s) s
  = Some {| data := data s; tokens := tokens s; start := start s;
            shift := shift s + 1; wasSpace := wasSpace s; escaped := false;
            quote := Ch.nul |}.
Proof.
  intros E Hq. unfold tokenize_body. rewrite E. simpl.
  rewrite (byte_eqb_ne _ _ (isQuote_not_nul _ Hq)), byte_eqb_refl.
  simpl. by rewrite (isQuote_not_backslash _ Hq).
Qed.

Lemma tokenize_body_other (i : Z) (c : byte) (s : tstate) :
  escaped s = false → isQuote (quote s) = true →
  isQuote c = true → c ≠ quote s →
  tokenize_body i c s
  = d ← store (data s) (i - shift s) c;
    Some {| data := d; tokens := tokens s; start := start s;
            shift := shift s; wasSpace := wasSpace s; escaped := false;
            quote := quote s |}.
Proof.
  intros E Hq Hc Hne. unfold tokenize_body. rewrite E. simpl.
  rewrite (byte_eqb_ne _ _ (isQuote_not_nul _ Hq)), (byte_eqb_ne _ _ Hne).
  simpl. by rewrite (isQuote_not_backslash _ Hc).
Qed.

(** ** One step of the forward scan, case by case *)

Lemma lex_step_escaped (a : Lex.st) (c : byte) :
  Lex.esc a = true →
  Lex.step a c
  = {| Lex.out := Lex.out a ++ [c]; Lex.done := Lex.done a;
       Lex.cur := (λ t, t ++ [c]) <$> Lex.cur a; Lex.was := Lex.was a;
       Lex.esc := false; Lex.q := Lex.q a |}.
Proof. intros E. unfold Lex.step. by rewrite E. Qed.

Lemma lex_wf_open (a : Lex.st) :
  lex_wf a → Lex.was a = false → ∃ t, Lex.cur a = Some t.
Proof.
  intros [Hc _ _ _] Hw. destruct (Lex.cur a) as [t|]; [by exists t|].
  rewrite (proj2 Hc eq_refl) in Hw. done.
Qed.

Lemma lex_step_backslash (a : Lex.st) :
  lex_wf a → Lex.esc a = false →
  Lex.step a Ch.backslash
  = {| Lex.out := Lex.out a; Lex.done := Lex.done a;
       Lex.cur := Some (default [] (Lex.cur a)); Lex.was := false;
       Lex.esc := true; Lex.q := Lex.q a |}.
Proof.
  intros Ha E. pose proof Ha as [Hc Hq _ Hm].
  unfold Lex.step. rewrite E. simpl.
  destruct Hm as [Hn|Hm].
  - rewrite Hn. simpl. destruct (Lex.was a) eqn:Ew; simpl.
    + by rewrite (proj1 Hc eq_refl).
    + by destruct (lex_wf_open a Ha Ew) as [t ->].
  - pose proof (isQuote_not_nul _ Hm) as Hn.
    rewrite (byte_eqb_ne _ _ Hn), (Hq Hn).
    destruct (lex_wf_open a Ha (Hq Hn)) as [t ->].
    destruct (byte_eqb_spec Ch.backslash (Lex.q a)) as [Hb|_]; [|done].
    by rewrite <- Hb in Hm.
Qed.

Lemma lex_step_open (a : Lex.st) (c : byte) :
  lex_wf a → Lex.esc a = false → Lex.q a = Ch.nul → isQuote c = true →
  Lex.step a c
  = {| Lex.out := Lex.out a; Lex.done := Lex.done a;
       Lex.cur := Some (default [] (Lex.cur a)); Lex.was := false;
       Lex.esc := false; Lex.q := c |}.
Proof.
  intros Ha E Hn Hc. pose proof Ha as [Hcur _ _ _].
  unfold Lex.step. rewrite E, Hn, Hc. simpl.
  rewrite (isQuote_not_space _ Hc), (isQuote_not_backslash _ Hc).
  destruct (Lex.was a) eqn:Ew; simpl.
  - by rewrite (proj1 Hcur eq_refl).
  - by destruct (lex_wf_open a Ha Ew) as [t ->].
Qed.

Lemma lex_step_close (a : Lex.st) :
  Lex.esc a = false → isQuote (Lex.q a) = true →
  Lex.step a (Lex.q a)
  = {| Lex.out := Lex.out a; Lex.done := Lex.done a; Lex.cur := Lex.cur a;
       Lex.was := Lex.was a; Lex.esc := false; Lex.q := Ch.nul |}.
Proof.
  intros E Hq. unfold Lex.step. rewrite E. simpl.
  rewrite (byte_eqb_ne _ _ (isQuote_not_nul _ Hq)), byte_eqb_refl.
  simpl. by rewrite (isQuote_not_backslash _ Hq).
Qed.

Lemma lex_step_other (a : Lex.st) (c : byte) :
  Lex.esc a = false → isQuote (Lex.q a) = true →
  isQuote c = true → c ≠ Lex.q a →
  Lex.step a c
  = {| Lex.out := Lex.out a ++ [c]; Lex.done := Lex.done a;
       Lex.cur := (λ t, t ++ [c]) <$> Lex.cur a; Lex.was := Lex.was a;
       Lex.esc := false; Lex.q := Lex.q a |}.
Proof.
  intros E Hq Hc Hne. unfold Lex.step. rewrite E. simpl.
  rewrite (byte_eqb_ne _ _ (isQuote_not_nul _ Hq)), (byte_eqb_ne _ _ Hne).
  simpl. by rewrite (isQuote_not_backslash _ Hc).
Qed.

(** ** Tokens only grow *)

Lemma lex_step_tokens (a : Lex.st) (c : byte) :
  lex_wf a →
  match Lex.cur a with
  | Some t =>
      (Lex.done (Lex.step a c) = Lex.done a ∧
       ∃ x, Lex.cur (Lex.step a c) = Some (t ++ x)) ∨
      (Lex.done (Lex.step a c) = Lex.done a ++ [t] ∧
       Lex.cur (Lex.step a c) = None)
  | None => Lex.done (Lex.step a c) = Lex.done a
  end.
Proof.
  intros [Hc Hq He _]. unfold Lex.step.
  destruct (Lex.esc a) eqn:Ee; simpl.
  { destruct (Lex.cur a) as [t|]; simpl; [|done]. left. eauto. }
  destruct (byte_eqb_spec (Lex.q a) Ch.nul) as [Hn|Hn].
  - destruct (Lex.was a) eqn:Ew.
    + rewrite (proj1 Hc eq_refl).
      destruct (isQuote c), (isSpace c); simpl;
        destruct (Byte.eqb c Ch.backslash); done.
    + destruct (Lex.cur a) as [t|] eqn:Ec; [|lex_wf_absurd Hc].
      destruct (isQuote c), (isSpace c); simpl;
        destruct (Byte.eqb c Ch.backslash); simpl; eauto.
      all: left; split; [done|]; exists []; by rewrite app_nil_r.
  - destruct (Lex.cur a) as [t|] eqn:Ec.
    + destruct (Byte.eqb c (Lex.q a)); simpl;
        destruct (Byte.eqb c Ch.backslash); simpl; eauto.
      all: left; split; [done|]; exists []; by rewrite app_nil_r.
    + destruct (Byte.eqb c (Lex.q a)); simpl;
        destruct (Byte.eqb c Ch.backslash); done.
Qed.

Lemma lex_finish_run (rest : list byte) : ∀ a,
  lex_wf a →
  match Lex.cur a with
  | Some t =>
      ∃ more later,
        Lex.finish (Lex.run a rest) = Lex.done a ++ (t ++ more) :: later
  | None => ∃ later, Lex.finish (Lex.run a rest) = Lex.done a ++ later
  end.
Proof.
  induction rest as [|c rest IH]; intros a Ha.
  { unfold Lex.finish. simpl. destruct (Lex.cur a) as [t|].
    - exists [], []. by rewrite app_nil_r.
    - exists []. by rewrite app_nil_r. }
  simpl. pose proof (IH _ (lex_wf_step a c Ha)) as IH'.
  pose proof (lex_step_tokens a c Ha) as Hs.
  destruct (Lex.cur a) as [t|].
  - destruct Hs as [[Hd [x Hx]]|[Hd Hx]]; rewrite Hx, Hd in IH'.
    + destruct IH' as (more & later & ->).
      exists (x ++ more), later. by rewrite app_assoc.
    + destruct IH' as (later & ->).
      exists [], later. by rewrite app_nil_r, <- app_assoc.
  - rewrite Hs in IH'.
    destruct (Lex.cur (Lex.step a c)) as [t|].
    + destruct IH' as (more & later & ->). eauto.
    + destruct IH' as (later & ->). eauto.
Qed.

(** ** What a state of the in-place loop denotes *)

Lemma refines_len (d0 : list byte) i s a :
  refines d0 i s a → len (data s) = len d0 ∧ 0 ≤ len (Lex.out a) ≤ i.
Proof.
  intros [Rs Rn Rb Rd _ _ _ _].
  rewrite Rd, len_app. unfold len in *. rewrite length_drop. lia.
Qed.

Lemma refines_done (d0 : list byte) i s a :
  refines d0 i s a → map (bytes_of (data s)) (tokens s) = Lex.done a.
Proof.
  intros [_ _ _ Rd [Hr Hd _] _ _ _]. rewrite Hd, Rd.
  apply map_ext_Forall. eapply Forall_impl; [exact Hr|].
  intros t [? ?]. simpl. by apply bytes_of_app.
Qed.

Lemma refines_pending (d0 : list byte) i s a :
  refines d0 i s a → pending s (i - shift s) = default [] (Lex.cur a).
Proof.
  intros [Rs _ _ Rd [_ _ Hs] _ _ _]. unfold pending.
  destruct (Lex.cur a) as [t|]; simpl.
  - destruct Hs as [Hs ->].
    replace (start s =? -1) with false by (symmetry; apply Z.eqb_neq; lia).
    replace (i - shift s) with (len (Lex.out a)) by lia.
    rewrite Rd, bytes_of_app by (simpl; lia).
    by apply bytes_of_to_end.
  - by rewrite Hs.
Qed.

Lemma refines_mark (d0 : list byte) i s a :
  refines d0 i s a → lex_wf a →
  quote s = Ch.nul ∨ isQuote (quote s) = true.
Proof. intros R [_ _ _ Hm]. by rewrite (r_quote _ _ _ _ R). Qed.

Lemma refines_started (d0 : list byte) i s a :
  refines d0 i s a → lex_wf a →
  (wasSpace s = true ∧ start s = -1) ∨
  (wasSpace s = false ∧ 0 ≤ start s ≤ i - shift s).
Proof.
  intros [Rs _ _ _ [_ _ Hs] Rw _ _] [Hc _ _ _]. rewrite Rw.
  destruct (Lex.cur a) as [t|].
  - right. destruct (Lex.was a); [lex_wf_absurd Hc|]. split; [done|lia].
  - left. split; [by apply Hc|done].
Qed.

Lemma lex_run_app (a : Lex.st) (l k : list byte) :
  Lex.run a (l ++ k) = Lex.run (Lex.run a l) k.
Proof. apply foldl_app. Qed.

(** The decoded characters of an input, split at a state of the loop:
    what the buffer holds below the write offset, then the decoding of
    the rest from the state's escape flag and quote. *)
Lemma decode_at (pre rest : list byte) (s : tstate) :
  tokenize_at (pre ++ rest) (length pre) = Some s →
  decode false Ch.nul (pre ++ rest)
  = take (Z.to_nat (len pre - shift s)) (data s)
    ++ decode (escaped s) (quote s) rest.
Proof.
  intros Hs. destruct (tokenize_at_inv pre _ s Hs) as [R Ha].
  pose proof (lex_out_decode (pre ++ rest) Lex.init lex_wf_init) as E.
  rewrite lex_run_app, lex_out_decode in E by done. simpl in E.
  rewrite <- E, (r_esc _ _ _ _ R), (r_quote _ _ _ _ R). f_equal.
  rewrite (r_data _ _ _ _ R), (r_shift _ _ _ _ R).
  replace (Z.to_nat _) with (length (Lex.out (Lex.run Lex.init pre)))
    by (unfold len; lia).
  by rewrite take_app_length.
Qed.

(** * The claims about escapes and quotation marks *)

(** The iteration over an unescaped backslash deletes it and sets the
    escape flag, whatever follows. *)
Lemma tokenize_backslash_deleted (pre rest : list byte) (s : tstate) :
  let d := pre ++ Ch.backslash :: rest in
  tokenize_at d (length pre) = Some s →
  escaped s = false →
  ∃ s1,
    tokenize_at d (length pre + 1) = Some s1 ∧
    data s1 = data s ∧ shift s1 = shift s + 1 ∧ tokens s1 = tokens s ∧
    quote s1 = quote s ∧ escaped s1 = true.
Proof.
  intros d Hs He.
  destruct (tokenize_at_inv pre _ s Hs) as [R Ha]. fold d in R.
  pose proof (len_nonneg pre) as Hpre.
  assert (Hb : d !! Z.to_nat (len pre) = Some Ch.backslash).
  { unfold d, len. rewrite Nat2Z.id. by rewrite list_lookup_middle. }
  replace (length pre + 1)%nat with (S (length pre)) by lia.
  rewrite tokenize_at_succ, Hs. cbn [mbind option_bind].
  change (Z.of_nat (length pre)) with (len pre).
  rewrite (refines_index _ _ _ _ _ R Hpre Hb). cbn [mbind option_bind].
  rewrite tokenize_body_backslash by (done || by eapply refines_mark).
  eexists. split; [done|]. done.
Qed.

(** The two iterations over an unescaped backslash and the character
    after it. *)
Lemma tokenize_escaped_copied (pre post : list byte) (c : byte)
    (s : tstate) :
  let d := pre ++ Ch.backslash :: c :: post in
  let w := len pre - shift s in
  tokenize_at d (length pre) = Some s →
  escaped s = false →
  (∃ s2,
     tokenize_at d (length pre + 2) = Some s2 ∧
     data s2 = <[Z.to_nat w := c]> (data s) ∧
     data s2 !! Z.to_nat w = Some c ∧
     shift s2 = shift s + 1 ∧
     tokens s2 = tokens s ∧
     quote s2 = quote s ∧
     escaped s2 = false ∧
     wasSpace s2 = false ∧
     start s2 = (if start s =? -1 then w else start s) ∧
     0 ≤ start s2 ≤ w) ∧
  (∃ more later,
     tokenize_strings d
     = Some (map (bytes_of (data s)) (tokens s)
             ++ (pending s w ++ c :: more) :: later)) ∧
  decode false Ch.nul d
  = take (Z.to_nat w) (data s) ++ c :: decode false (quote s) post.
Proof.
  intros d w Hs He.
  destruct (tokenize_at_inv pre _ s Hs) as [R Ha]. fold d in R.
  set (a := Lex.run Lex.init pre) in *.
  pose proof (len_nonneg pre) as Hpre.
  destruct (refines_len _ _ _ _ R) as [Hlen Hout].
  assert (Hld : len d = len pre + 2 + len post).
  { unfold d. rewrite len_app, !len_cons. lia. }
  pose proof (len_nonneg post) as Hpost.
  assert (Hb : d !! Z.to_nat (len pre) = Some Ch.backslash).
  { unfold d, len. rewrite Nat2Z.id. by rewrite list_lookup_middle. }
  assert (Hc : d !! Z.to_nat (len pre + 1) = Some c).
  { unfold d, len.
    replace (Z.to_nat (Z.of_nat (length pre) + 1)) with (length pre + 1)%nat
      by lia.
    rewrite lookup_app_r by lia.
    by replace (length pre + 1 - length pre)%nat with 1%nat by lia. }
  (* the backslash *)
  destruct (tokenize_body_refines _ _ _ _ _ R Ha Hpre Hb) as (s1 & E1 & R1).
  rewrite tokenize_body_backslash in E1
    by (done || by eapply refines_mark).
  injection E1 as E1.
  pose proof (lex_wf_step _ Ch.backslash Ha) as Ha1.
  (* the escaped character *)
  destruct (tokenize_body_refines _ _ _ _ _ R1 Ha1 ltac:(lia) Hc)
    as (s2 & E2 & R2).
  rewrite tokenize_body_escaped in E2 by by rewrite <- E1.
  assert (Hw : 0 ≤ w < len (data s)).
  { pose proof (r_shift _ _ _ _ R). unfold w. lia. }
  assert (Hst : store (data s1) (len pre + 1 - shift s1) c
                = Some (<[Z.to_nat w := c]> (data s))).
  { rewrite <- E1. simpl.
    replace (len pre + 1 - (shift s + 1)) with w by (unfold w; lia).
    by apply store_Some. }
  rewrite Hst in E2. simpl in E2. injection E2 as E2.
  split; [|split].
  - exists s2. rewrite <- E2, <- E1. simpl.
    split.
    { replace (length pre + 2)%nat with (S (S (length pre))) by lia.
      rewrite !tokenize_at_succ, Hs. cbn [mbind option_bind].
      change (Z.of_nat (length pre)) with (len pre).
      rewrite (refines_index _ _ _ _ _ R Hpre Hb). cbn [mbind option_bind].
      rewrite tokenize_body_backslash
        by (done || by eapply refines_mark).
      cbn [mbind option_bind].
      replace (Z.of_nat (S (length pre))) with (len pre + 1)
        by (unfold len; lia).
      pose proof (refines_index _ _ _ _ _ R1 ltac:(lia) Hc) as Hi.
      rewrite <- E1 in Hi, Hst. rewrite Hi. cbn [mbind option_bind].
      rewrite tokenize_body_escaped by done.
      rewrite Hst. done. }
    split; [done|].
    split. { apply list_lookup_insert_eq. unfold len in *. lia. }
    do 4 (split; [done|]).
    destruct (refines_started _ _ _ _ R Ha) as [[Hws Hss]|[Hws Hss]];
      fold w in Hss; rewrite Hws.
    + rewrite Hss. simpl.
      destruct (refines_mark _ _ _ _ R Ha) as [Hq|Hq].
      * rewrite Hq. simpl. fold w. split; [done|split; [done|lia]].
      * pose proof (wf_quote _ Ha) as Hwq.
        rewrite <- (r_quote _ _ _ _ R), <- (r_was _ _ _ _ R) in Hwq.
        rewrite Hwq in Hws by by apply isQuote_not_nul. done.
    + replace (start s =? -1) with false
        by (symmetry; apply Z.eqb_neq; lia).
      rewrite andb_false_r. by destruct (Byte.eqb (quote s) Ch.nul).
  - rewrite tokenize_strings_lex. unfold Lex.lex, d.
    rewrite lex_run_app. fold a.
    change (Ch.backslash :: c :: post) with ([Ch.backslash; c] ++ post).
    rewrite lex_run_app.
    change (Lex.run a [Ch.backslash; c])
      with (Lex.step (Lex.step a Ch.backslash) c).
    pose proof (lex_finish_run post _ (lex_wf_step _ c Ha1)) as Hf.
    assert (Ee : Lex.esc a = false) by by rewrite <- (r_esc _ _ _ _ R).
    assert (E : Lex.step (Lex.step a Ch.backslash) c
                = {| Lex.out := Lex.out a ++ [c]; Lex.done := Lex.done a;
                     Lex.cur := Some (default [] (Lex.cur a) ++ [c]);
                     Lex.was := false; Lex.esc := false;
                     Lex.q := Lex.q a |}).
    { rewrite lex_step_escaped; by rewrite lex_step_backslash. }
    rewrite E in Hf |- *. simpl in Hf.
    destruct Hf as (more & later & ->).
    exists more, later. f_equal.
    rewrite (refines_done _ _ _ _ R).
    unfold w. rewrite (refines_pending _ _ _ _ R).
    by rewrite <- app_assoc.
  - unfold d, w. rewrite (decode_at _ _ _ Hs), He. done.
Qed.

(** C2: an unescaped backslash is deleted and the character after it is
    copied as it is into the token under construction, whatever that
    character and whatever the quote state.  From the state [s] before an
    unescaped backslash, one iteration later the buffer is unchanged, one
    more character is counted as deleted and the escape is pending.  When
    a character [c] follows, one more iteration later only [c] has been
    written, at the write offset [w]; no token has been closed, even when
    [c] is white space; the quote state is the same, even when [c] is a
    quotation mark; no escape is pending, even when [c] is a backslash;
    and a token is open that starts at or before [w].  In the result, the
    token that was under construction continues with [c], and the decoded
    characters are those written before, then [c], then the decoding of
    the rest. *)
Theorem C2_backslash_copies_next (pre rest : list byte) (s : tstate) :
  let d := pre ++ Ch.backslash :: rest in
  let w := len pre - shift s in
  tokenize_at d (length pre) = Some s →
  escaped s = false →
  (∃ s1,
     tokenize_at d (length pre + 1) = Some s1 ∧
     data s1 = data s ∧ shift s1 = shift s + 1 ∧ tokens s1 = tokens s ∧
     quote s1 = quote s ∧ escaped s1 = true) ∧
  (∀ c post, rest = c :: post →
     (∃ s2,
        tokenize_at d (length pre + 2) = Some s2 ∧
        data s2 = <[Z.to_nat w := c]> (data s) ∧
        data s2 !! Z.to_nat w = Some c ∧
        shift s2 = shift s + 1 ∧
        tokens s2 = tokens s ∧
        quote s2 = quote s ∧
        escaped s2 = false ∧
        wasSpace s2 = false ∧
        start s2 = (if start s =? -1 then w else start s) ∧
        0 ≤ start s2 ≤ w) ∧
     (∃ more later,
        tokenize_strings d
        = Some (map (bytes_of (data s)) (tokens s)
                ++ (pending s w ++ c :: more) :: later)) ∧
     decode false Ch.nul d
     = take (Z.to_nat w) (data s) ++ c :: decode false (quote s) post).
Proof.
  intros d w Hs He. split.
  - by apply tokenize_backslash_deleted.
  - intros c post ->. by apply tokenize_escaped_copied.
Qed.

Lemma C2_witness :
  ∃ more later,
    tokenize_strings (B "a\ b") = Some ((B "a" ++ Ch.space :: more) :: later).
Proof.
  exact (proj1 (proj2 (proj2
    (C2_backslash_copies_next (B "a") (B " b")
       {| data := B "a\ b"; tokens := []; start := 0; shift := 0;
          wasSpace := false; escaped := false; quote := Ch.nul |}
       eq_refl eq_refl) Ch.space (B "b") eq_refl))).
Defined.

Lemma isSpace_plain (c : byte) :
  isSpace c = true → isQuote c = false ∧ Byte.eqb c Ch.backslash = false.
Proof. by destruct c. Qed.

(** What one iteration does to the token list, the start offset and the
    shift. *)
Lemma tokenize_body_tokens (i : Z) (c : byte) (s s' : tstate) :
  tokenize_body i c s = Some s' →
  (tokens s' = tokens s ∧ start s' = start s ∧
   shift s ≤ shift s' ≤ shift s + 1) ∨
  (tokens s' = tokens s ∧ start s' = i - shift s ∧
   shift s ≤ shift s' ≤ shift s + 1) ∨
  (tokens s' = tokens s ++ [Slice (start s) (i - shift s)] ∧
   start s' = -1 ∧ 0 ≤ start s ≤ i - shift s ∧ shift s' = shift s).
Proof.
  unfold tokenize_body. intros H.
  destruct (isSpace c) eqn:Es.
  - destruct (isSpace_plain c Es) as [Hq Hb]. rewrite Hq, Hb in H.
    destruct (escaped s), (Byte.eqb (quote s) Ch.nul), (wasSpace s),
      (Byte.eqb c (quote s)); simpl in H;
      try (destruct (store _ _ _); simplify_eq/=;
           left; split_and!; try done; lia);
      try (simplify_eq/=; left; split_and!; try done; lia).
    all: unfold subslice in H.
    all: destruct ((0 <=? start s) && (start s <=? i - shift s)
                   && (i - shift s <=? len (data s))) eqn:Ec; simpl in H;
           [|done].
    all: apply andb_true_iff in Ec as [Ec _].
    all: apply andb_true_iff in Ec as [E1 E2].
    all: apply Z.leb_le in E1, E2.
    all: destruct (store _ _ _); simplify_eq/=.
    all: right; right; split_and!; try done; lia.
  - destruct (escaped s), (Byte.eqb (quote s) Ch.nul), (wasSpace s),
      (Byte.eqb c (quote s)), (isQuote c), (Byte.eqb c Ch.backslash);
      simpl in H; try destruct (store _ _ _); simplify_eq/=;
      first [ left; split_and!; try done; lia
            | right; left; split_and!; try done; lia ].
Qed.

Lemma lex_step_frame (o : list byte) (dn : list (list byte)) (a : Lex.st)
    (c : byte) :
  Lex.step (lex_frame o dn a) c = lex_frame o dn (Lex.step a c).
Proof.
  unfold Lex.step, lex_frame. simpl.
  destruct (Lex.esc a), (Byte.eqb (Lex.q a) Ch.nul), (isQuote c),
    (isSpace c), (Lex.was a), (Byte.eqb c (Lex.q a)),
    (Byte.eqb c Ch.backslash); simpl; by rewrite ?app_assoc.
Qed.

Lemma lex_run_frame (o : list byte) (dn : list (list byte)) (d : list byte) :
  ∀ a, Lex.run (lex_frame o dn a) d = lex_frame o dn (Lex.run a d).
Proof.
  induction d as [|c d IH]; intros a; [done|].
  simpl. by rewrite lex_step_frame, IH.
Qed.

(** White space outside quotes closes the token under construction and
    leaves the scan in its initial state, behind what has been done. *)
Lemma lex_step_space_closed (a : Lex.st) (ws : byte) :
  lex_wf a → Lex.esc a = false → Lex.q a = Ch.nul → isSpace ws = true →
  Lex.step a ws = lex_frame (Lex.out a ++ [ws]) (Lex.finish a) Lex.init.
Proof.
  intros [Hcur _ _ _] He Hq Hs.
  destruct (isSpace_plain ws Hs) as [Hnq Hnb].
  unfold Lex.step, lex_frame, Lex.finish. rewrite He, Hq, Hs, Hnq, Hnb.
  simpl. rewrite !app_nil_r.
  destruct (Lex.was a) eqn:Ew; simpl.
  - destruct Hcur as [Hcur _]. by rewrite (Hcur eq_refl).
  - destruct (Lex.cur a) as [t|]; [done|].
    destruct Hcur as [_ Hcur]. by specialize (Hcur eq_refl).
Qed.

Lemma lex_step_inside (a : Lex.st) (c : byte) :
  Lex.esc a = false → Lex.q a ≠ Ch.nul →
  c ≠ Lex.q a → c ≠ Ch.backslash →
  Lex.step a c
  = {| Lex.out := Lex.out a ++ [c]; Lex.done := Lex.done a;
       Lex.cur := (λ t, t ++ [c]) <$> Lex.cur a; Lex.was := Lex.was a;
       Lex.esc := false; Lex.q := Lex.q a |}.
Proof.
  intros E Hq Hne Hb. unfold Lex.step. rewrite E. simpl.
  by rewrite (byte_eqb_ne _ _ Hq), (byte_eqb_ne _ _ Hne),
    (byte_eqb_ne _ _ Hb).
Qed.

(** One iteration over an unescaped quotation mark, in each of the three
    quote states. *)
Lemma tokenize_quote_states (pre post : list byte) (c : byte)
    (s : tstate) :
  let d := pre ++ c :: post in
  let w := len pre - shift s in
  tokenize_at d (length pre) = Some s →
  escaped s = false →
  isQuote c = true →
  ∃ s1,
    tokenize_at d (length pre + 1) = Some s1 ∧
    escaped s1 = false ∧ tokens s1 = tokens s ∧ wasSpace s1 = false ∧
    (quote s = Ch.nul →
       quote s1 = c ∧ data s1 = data s ∧ shift s1 = shift s + 1 ∧
       start s1 = (if start s =? -1 then w else start s) ∧
       0 ≤ start s1 ≤ w ∧
       decode false Ch.nul d
       = take (Z.to_nat w) (data s) ++ decode false c post) ∧
    (quote s = c →
       quote s1 = Ch.nul ∧ data s1 = data s ∧ shift s1 = shift s + 1 ∧
       start s1 = start s ∧
       decode false Ch.nul d
       = take (Z.to_nat w) (data s) ++ decode false Ch.nul post) ∧
    (quote s ≠ Ch.nul → quote s ≠ c →
       quote s1 = quote s ∧ data s1 = <[Z.to_nat w := c]> (data s) ∧
       data s1 !! Z.to_nat w = Some c ∧ shift s1 = shift s ∧
       start s1 = start s ∧ 0 ≤ start s1 ≤ w ∧
       decode false Ch.nul d
       = take (Z.to_nat w) (data s) ++ c :: decode false (quote s) post).
Proof.
  intros d w Hs He Hc.
  destruct (tokenize_at_inv pre _ s Hs) as [R Ha]. fold d in R.
  set (a := Lex.run Lex.init pre) in *.
  pose proof (len_nonneg pre) as Hpre.
  destruct (refines_len _ _ _ _ R) as [Hlen Hout].
  assert (Hld : len d = len pre + 1 + len post).
  { unfold d. rewrite len_app, !len_cons. lia. }
  pose proof (len_nonneg post) as Hpost.
  assert (Hi : d !! Z.to_nat (len pre) = Some c).
  { unfold d, len. rewrite Nat2Z.id. by rewrite list_lookup_middle. }
  assert (Hw : 0 ≤ w < len (data s)).
  { pose proof (r_shift _ _ _ _ R). unfold w. lia. }
  pose proof (decode_at pre (c :: post) s Hs) as Hdec.
  fold d in Hdec. fold w in Hdec. rewrite He in Hdec. simpl in Hdec.
  rewrite (isQuote_not_backslash _ Hc) in Hdec.
  assert (Hat : tokenize_at d (length pre + 1)
                = tokenize_body (len pre) c s).
  { replace (length pre + 1)%nat with (S (length pre)) by lia.
    rewrite tokenize_at_succ, Hs. cbn [mbind option_bind].
    change (Z.of_nat (length pre)) with (len pre).
    by rewrite (refines_index _ _ _ _ _ R Hpre Hi). }
  rewrite Hat.
  pose proof (refines_started _ _ _ _ R Ha) as Hst. fold w in Hst.
  pose proof (wf_quote _ Ha) as Hwq.
  rewrite <- (r_quote _ _ _ _ R), <- (r_was _ _ _ _ R) in Hwq.
  destruct (refines_mark _ _ _ _ R Ha) as [Hq|Hq].
  - (* no quote is open *)
    rewrite tokenize_body_open by done. eexists. split; [done|]. simpl.
    do 3 (split; [done|]).
    rewrite Hq, Hc in Hdec. simpl in Hdec.
    split; [|split].
    + intros _. do 3 (split; [done|]).
      destruct Hst as [[-> ->]|[-> Hss]]; simpl; fold w.
      * split; [done|]. split; [lia|done].
      * replace (start s =? -1) with false
          by (symmetry; apply Z.eqb_neq; lia).
        done.
    + intros <-. by rewrite Hq in Hc.
    + intros Hn. by rewrite Hq in Hn.
  - (* a quote is open *)
    pose proof (isQuote_not_nul _ Hq) as Hn.
    rewrite (byte_eqb_ne _ _ Hn) in Hdec.
    destruct Hst as [[Hws _]|[Hws Hss]]; [by rewrite Hwq in Hws|].
    destruct (byte_eqb_spec c (quote s)) as [->|Hne].
    + rewrite tokenize_body_close by done. eexists. split; [done|]. simpl.
      do 3 (split; [done|]).
      split; [by intros ?|]. split; [done|]. by intros _ ?.
    + rewrite tokenize_body_other by done.
      rewrite store_Some by done. cbn [mbind option_bind].
      eexists. split; [done|]. simpl.
      do 3 (split; [done|]).
      split; [by intros ?|]. split; [by intros ?|].
      intros _ _. split; [done|]. split; [done|].
      split. { apply list_lookup_insert_eq. unfold len in *. lia. }
      done.
Qed.

(** Inside a quoted region, characters other than its mark and the
    backslash go as they are into the token under construction. *)
Lemma lex_run_inside (body : list byte) : ∀ a t,
  Lex.esc a = false → Lex.q a ≠ Ch.nul → Lex.cur a = Some t →
  Forall (λ x, x ≠ Lex.q a ∧ x ≠ Ch.backslash) body →
  Lex.run a body
  = {| Lex.out := Lex.out a ++ body; Lex.done := Lex.done a;
       Lex.cur := Some (t ++ body); Lex.was := Lex.was a;
       Lex.esc := false; Lex.q := Lex.q a |}.
Proof.
  induction body as [|x body IH]; intros a t He Hq Hc Hb.
  { simpl. rewrite !app_nil_r, <- He, <- Hc. by destruct a. }
  apply Forall_cons in Hb as [[Hx Hbs] Hb].
  simpl. change (foldl Lex.step ?y body) with (Lex.run y body).
  pose proof (lex_step_inside a x He Hq Hx Hbs) as Es.
  rewrite (IH (Lex.step a x) (t ++ [x])); rewrite Es; simpl; try done.
  - by rewrite <- !app_assoc.
  - by rewrite Hc.
Qed.

(** What follows a state with a token under construction, no escape
    pending and no quote open: at the end of the line or before white
    space the token is finished. *)
Lemma lex_finish_closed (a : Lex.st) (t : list byte) (post : list byte) :
  lex_wf a → Lex.esc a = false → Lex.q a = Ch.nul → Lex.cur a = Some t →
  ∃ more later,
    Lex.finish (Lex.run a post) = Lex.done a ++ (t ++ more) :: later ∧
    (post = [] → more = [] ∧ later = []) ∧
    (∀ x post', post = x :: post' → isSpace x = true →
       more = [] ∧ later = Lex.lex post').
Proof.
  intros Ha He Hq Hc.
  pose proof (lex_finish_run post a Ha) as Hf. rewrite Hc in Hf.
  destruct Hf as (more & later & Hf).
  exists more, later. split; [done|]. split.
  - intros ->. simpl in Hf. unfold Lex.finish in Hf. rewrite Hc in Hf.
    apply app_inv_head in Hf. injection Hf as Hf <-.
    split; [|done]. symmetry in Hf.
    rewrite <- (app_nil_r t) in Hf at 2. by apply app_inv_head in Hf.
  - intros x post' -> Hs. simpl in Hf.
    change (foldl Lex.step ?y post') with (Lex.run y post') in Hf.
    rewrite (lex_step_space_closed a x Ha He Hq Hs), lex_run_frame in Hf.
    unfold Lex.finish at 2 in Hf. rewrite Hc in Hf.
    assert (E : Lex.finish (lex_frame (Lex.out a ++ [x]) (Lex.done a ++ [t])
                  (Lex.run Lex.init post'))
                = Lex.done a ++ t :: Lex.lex post').
    { unfold Lex.lex, Lex.finish, lex_frame. simpl.
      destruct (Lex.cur (Lex.run Lex.init post'));
        by rewrite <- !app_assoc. }
    rewrite E in Hf. apply app_inv_head in Hf. injection Hf as Hf <-.
    split; [|done]. symmetry in Hf.
    rewrite <- (app_nil_r t) in Hf at 2. by apply app_inv_head in Hf.
Qed.

(** The returned tokens around an unescaped quotation mark. *)
Lemma tokenize_quote_tokens (pre post : list byte) (c : byte) (s : tstate) :
  let d := pre ++ c :: post in
  let w := len pre - shift s in
  tokenize_at d (length pre) = Some s →
  escaped s = false →
  isQuote c = true →
  (quote s = Ch.nul →
     ∀ body post', post = body ++ c :: post' →
       Forall (λ x, x ≠ c ∧ x ≠ Ch.backslash) body →
       ∃ more later,
         tokenize_strings d
         = Some (map (bytes_of (data s)) (tokens s)
                 ++ (pending s w ++ body ++ more) :: later) ∧
         (post' = [] → more = [] ∧ later = []) ∧
         (∀ x post'', post' = x :: post'' → isSpace x = true →
            more = [] ∧ tokenize_strings post'' = Some later)) ∧
  (quote s = c →
     ∃ more later,
       tokenize_strings d
       = Some (map (bytes_of (data s)) (tokens s)
               ++ (pending s w ++ more) :: later) ∧
       (post = [] → more = [] ∧ later = []) ∧
       (∀ x post', post = x :: post' → isSpace x = true →
          more = [] ∧ tokenize_strings post' = Some later)) ∧
  (quote s ≠ Ch.nul → quote s ≠ c →
     ∃ more later,
       tokenize_strings d
       = Some (map (bytes_of (data s)) (tokens s)
               ++ (pending s w ++ c :: more) :: later) ∧
       (∀ x post', post = x :: post' →
          x ≠ quote s → x ≠ Ch.backslash →
          ∃ more', more = x :: more')).
Proof.
  intros d w Hs He Hc.
  destruct (tokenize_at_inv pre _ s Hs) as [R Ha]. fold d in R.
  set (a := Lex.run Lex.init pre) in *.
  assert (Ee : Lex.esc a = false) by by rewrite <- (r_esc _ _ _ _ R).
  pose proof (refines_done _ _ _ _ R) as Hdone.
  pose proof (refines_pending _ _ _ _ R) as Hpend. fold w in Hpend.
  pose proof (lex_wf_step a c Ha) as Ha1.
  assert (Hd : ∀ rest, tokenize_strings (pre ++ c :: rest)
                = Some (Lex.finish (Lex.run (Lex.step a c) rest))).
  { intros rest. rewrite tokenize_strings_lex. unfold Lex.lex.
    by rewrite lex_run_app. }
  split; [|split].
  - (* no quote is open: the mark opens a region *)
    intros Hq body post' -> Hbody.
    assert (En : Lex.q a = Ch.nul) by by rewrite <- (r_quote _ _ _ _ R).
    pose proof (lex_step_open a c Ha Ee En Hc) as Es.
    unfold d. rewrite Hd, lex_run_app. simpl.
    change (foldl Lex.step ?y post') with (Lex.run y post').
    pose proof (isQuote_not_nul _ Hc) as Hcn.
    set (a2 := {| Lex.out := Lex.out a ++ body; Lex.done := Lex.done a;
                  Lex.cur := Some (default [] (Lex.cur a) ++ body);
                  Lex.was := false; Lex.esc := false; Lex.q := c |}).
    assert (E2 : Lex.run (Lex.step a c) body = a2).
    { rewrite (lex_run_inside body (Lex.step a c)
                 (default [] (Lex.cur a))); by rewrite ?Es. }
    rewrite E2.
    assert (Ha2 : lex_wf a2).
    { rewrite <- E2. by apply lex_wf_run. }
    pose proof (lex_step_close a2 eq_refl Hc) as Ecl. simpl in Ecl.
    rewrite Ecl.
    pose proof (lex_wf_step a2 c Ha2) as Ha3. rewrite Ecl in Ha3.
    destruct (lex_finish_closed _ (default [] (Lex.cur a) ++ body) post'
                Ha3 eq_refl eq_refl eq_refl)
      as (more & later & Hf & Hnil & Hsp).
    exists more, later. simpl in Hf.
    rewrite Hf, Hdone, Hpend, <- app_assoc. split; [done|].
    split; [done|].
    intros x post'' E Hx. destruct (Hsp x post'' E Hx) as [-> ->].
    by rewrite tokenize_strings_lex.
  - (* its own region is open: the mark closes it *)
    intros Hq.
    assert (En : Lex.q a = c) by by rewrite <- (r_quote _ _ _ _ R).
    assert (Hqa : isQuote (Lex.q a) = true) by by rewrite En.
    pose proof (lex_step_close a Ee Hqa) as Es. rewrite En in Es.
    pose proof (wf_quote _ Ha (isQuote_not_nul _ Hqa)) as Hw.
    destruct (lex_wf_open a Ha Hw) as [t Ht].
    rewrite Es in Ha1.
    destruct (lex_finish_closed _ t post Ha1 eq_refl eq_refl Ht)
      as (more & later & Hf & Hnil & Hsp).
    exists more, later. unfold d. rewrite Hd, Es, Hf. simpl.
    rewrite Hdone, Hpend, Ht. simpl. split; [done|]. split; [done|].
    intros x post' E Hx. destruct (Hsp x post' E Hx) as [-> ->].
    by rewrite tokenize_strings_lex.
  - (* the region of the other mark is open: the mark is a character *)
    intros Hq Hne.
    assert (En : Lex.q a = quote s) by by rewrite <- (r_quote _ _ _ _ R).
    assert (Hqa : isQuote (Lex.q a) = true).
    { destruct (wf_mark _ Ha) as [H0|H0]; [|done]. by rewrite En in H0. }
    pose proof (lex_step_other a c Ee Hqa Hc ltac:(by rewrite En)) as Es.
    pose proof (wf_quote _ Ha (isQuote_not_nul _ Hqa)) as Hw.
    destruct (lex_wf_open a Ha Hw) as [t Ht].
    rewrite Ht in Es. simpl in Es.
    pose proof (lex_finish_run post _ Ha1) as Hf. rewrite Es in Hf.
    simpl in Hf. destruct Hf as (more & later & Hf).
    exists more, later. unfold d. rewrite Hd, Es, Hf.
    rewrite Hdone, Hpend, Ht. simpl. rewrite <- app_assoc. split; [done|].
    intros x post' -> Hx Hbs. simpl in Hf.
    change (foldl Lex.step ?y post') with (Lex.run y post') in Hf.
    set (a1 := {| Lex.out := Lex.out a ++ [c]; Lex.done := Lex.done a;
                  Lex.cur := Some (t ++ [c]); Lex.was := Lex.was a;
                  Lex.esc := false; Lex.q := Lex.q a |}) in *.
    assert (Hx' : x ≠ Lex.q a1) by (simpl; by rewrite En).
    pose proof (lex_step_inside a1 x eq_refl
                  (isQuote_not_nul _ Hqa) Hx' Hbs) as Ex.
    assert (Ha1' : lex_wf a1) by by rewrite <- Es.
    pose proof (lex_finish_run post' _ (lex_wf_step a1 x Ha1')) as Hf2.
    rewrite Ex in Hf2, Hf. cbn [Lex.cur Lex.done] in Hf2.
    destruct Hf2 as (more2 & later2 & Hf2).
    rewrite Hf2 in Hf. apply app_inv_head in Hf. injection Hf as Hf _.
    cbn [a1 Lex.cur] in Hf.
    rewrite <- !app_assoc in Hf. apply app_inv_head in Hf.
    simpl in Hf. injection Hf as Hf. by exists more2.
Qed.

(** C3: quotation marks.  From the state [s] before an unescaped quotation
    mark [c], one iteration closes no token and leaves no escape pending,
    and: while no quote is open, [c] opens a quoted region of its kind and
    is deleted (the buffer is unchanged, one more character is counted as
    deleted) and a token is open; while the region of [c] is open, [c]
    closes it and is deleted; while the region of the other mark is open,
    [c] is written as it is at the write offset [w] and the region stays
    open.  The decoded characters of the whole input say the same.

    So do the tokens that [tokenize] returns.  When [c] opens a region
    whose characters [body], up to the next [c], hold no backslash, the
    token under construction continues with [body] as it is, without the
    two marks, white space and marks of the other kind included, and the
    region is closed behind it: the token ends there when the line ends
    or white space follows, and what follows the white space is tokenized
    as a line of its own.  When [c] closes its region, the token
    continues without it, and ends when the line ends or white space
    follows.  When the region of the other mark is open, the token
    continues with [c], and with the character after it, white space
    too, unless that is the mark of the region or a backslash. *)
Theorem C3_quotes_open_close_literal (pre post : list byte) (c : byte)
    (s : tstate) :
  let d := pre ++ c :: post in
  let w := len pre - shift s in
  tokenize_at d (length pre) = Some s →
  escaped s = false →
  isQuote c = true →
  (∃ s1,
     tokenize_at d (length pre + 1) = Some s1 ∧
     escaped s1 = false ∧ tokens s1 = tokens s ∧ wasSpace s1 = false ∧
     (quote s = Ch.nul →
        quote s1 = c ∧ data s1 = data s ∧ shift s1 = shift s + 1 ∧
        start s1 = (if start s =? -1 then w else start s) ∧
        0 ≤ start s1 ≤ w ∧
        decode false Ch.nul d
        = take (Z.to_nat w) (data s) ++ decode false c post) ∧
     (quote s = c →
        quote s1 = Ch.nul ∧ data s1 = data s ∧ shift s1 = shift s + 1 ∧
        start s1 = start s ∧
        decode false Ch.nul d
        = take (Z.to_nat w) (data s) ++ decode false Ch.nul post) ∧
     (quote s ≠ Ch.nul → quote s ≠ c →
        quote s1 = quote s ∧ data s1 = <[Z.to_nat w := c]> (data s) ∧
        data s1 !! Z.to_nat w = Some c ∧ shift s1 = shift s ∧
        start s1 = start s ∧ 0 ≤ start s1 ≤ w ∧
        decode false Ch.nul d
        = take (Z.to_nat w) (data s) ++ c :: decode false (quote s) post)) ∧
  (quote s = Ch.nul →
     ∀ body post', post = body ++ c :: post' →
       Forall (λ x, x ≠ c ∧ x ≠ Ch.backslash) body →
       ∃ more later,
         tokenize_strings d
         = Some (map (bytes_of (data s)) (tokens s)
                 ++ (pending s w ++ body ++ more) :: later) ∧
         (post' = [] → more = [] ∧ later = []) ∧
         (∀ x post'', post' = x :: post'' → isSpace x = true →
            more = [] ∧ tokenize_strings post'' = Some later)) ∧
  (quote s = c →
     ∃ more later,
       tokenize_strings d
       = Some (map (bytes_of (data s)) (tokens s)
               ++ (pending s w ++ more) :: later) ∧
       (post = [] → more = [] ∧ later = []) ∧
       (∀ x post', post = x :: post' → isSpace x = true →
          more = [] ∧ tokenize_strings post' = Some later)) ∧
  (quote s ≠ Ch.nul → quote s ≠ c →
     ∃ more later,
       tokenize_strings d
       = Some (map (bytes_of (data s)) (tokens s)
               ++ (pending s w ++ c :: more) :: later) ∧
       (∀ x post', post = x :: post' →
          x ≠ quote s → x ≠ Ch.backslash →
          ∃ more', more = x :: more')).
Proof.
  intros d w Hs He Hc. split.
  - by apply tokenize_quote_states.
  - by apply tokenize_quote_tokens.
Qed.

Lemma C3_witness :
  tokenize_strings (Ch.dquote :: B "a 'b" ++ [Ch.dquote]) = Some [B "a 'b"].
Proof.
  destruct (proj1 (proj2
              (C3_quotes_open_close_literal [] (B "a 'b" ++ [Ch.dquote])
                 Ch.dquote
                 {| data := Ch.dquote :: B "a 'b" ++ [Ch.dquote];
                    tokens := []; start := -1; shift := 0;
                    wasSpace := true; escaped := false; quote := Ch.nul |}
                 eq_refl eq_refl eq_refl))
              eq_refl (B "a 'b") [] eq_refl)
    as (more & later & E & Hend & _).
  - repeat (apply Forall_cons; split; [by split|]). apply Forall_nil_2.
  - destruct (Hend eq_refl) as [-> ->]. exact E.
Defined.

(** * Unterminated quotes *)




(** * The continuation filter *)

Lemma read_refines_init (d0 : list byte) :
  read_refines d0 0
    {| LineReader.data := d0; LineReader.n := len d0;
       LineReader.shift := 0; LineReader.escaped := false |}
    Cont.init.
Proof.
  split; simpl; try done.
  - pose proof (len_nonneg d0). lia.
  - lia.
Qed.

Lemma cont_step_last (p : Cont.st) (c : byte) :
  (Cont.esc p = true → Cont.out p ≠ []) →
  Cont.esc (Cont.step p c) = true → Cont.out (Cont.step p c) ≠ [].
Proof.
  intros Hl. unfold Cont.step. simpl.
  destruct (Cont.esc p); simpl; [done|].
  intros _. by destruct (Cont.out p).
Qed.

Lemma read_body_refines (d0 : list byte) i s p c :
  read_refines d0 i s p → d0 !! Z.to_nat i = Some c →
  ∃ s', LineReader.body i c s = Some s' ∧
        read_refines d0 (i + 1) s' (Cont.step p c).
Proof.
  intros [Rs Ro Rb Rn Rl Rk Rr Re Rla] Hc.
  apply lookup_lt_Some in Hc as Hlt.
  assert (Hi : i < len d0) by (unfold len; lia).
  pose proof (len_nonneg (Cont.out p)) as Hout.
  unfold LineReader.body. rewrite Re.
  destruct (Cont.esc p && Byte.eqb c Ch.nl) eqn:Econt.
  - apply andb_true_iff in Econt as [Ee Ec].
    assert (Hne : (0 < length (Cont.out p))%nat).
    { specialize (Rla Ee). destruct (Cont.out p); [done|simpl; lia]. }
    eexists. split; [done|].
    split; simpl; rewrite ?Ee, ?Ec; simpl; try done.
    + rewrite Rs. unfold len in *. rewrite length_take. lia.
    + unfold len in *. rewrite length_take. lia.
    + lia.
    + lia.
    + rewrite length_take.
      replace (length (Cont.out p) - 1 `min` length (Cont.out p))%nat
        with (length (Cont.out p) - 1)%nat by lia.
      transitivity (take (length (Cont.out p) - 1)
                      (take (length (Cont.out p)) (LineReader.data s)));
        [|by rewrite Rk].
      rewrite take_take. by replace (_ `min` _)%nat
        with (length (Cont.out p) - 1)%nat by lia.
    + replace (Z.to_nat (i + 1)) with (Z.to_nat i + 1)%nat by lia.
      by rewrite <- !drop_drop, Rr.
  - unfold Cont.step. rewrite Econt.
    assert (Hw : 0 ≤ i - LineReader.shift s < len (LineReader.data s)).
    { unfold len in *. lia. }
    rewrite store_Some by done. simpl.
    eexists. split; [done|].
    assert (Hwn : Z.to_nat (i - LineReader.shift s) = length (Cont.out p)).
    { unfold len in *. lia. }
    split; simpl; try done.
    + rewrite len_app, len_cons, len_nil. lia.
    + rewrite len_app, len_cons, len_nil. lia.
    + lia.
    + by rewrite length_insert.
    + rewrite Hwn, length_app. simpl.
      replace (length (Cont.out p) + 1)%nat with (S (length (Cont.out p)))
        by lia.
      rewrite (take_S_r _ _ c).
      * by rewrite take_insert_ge, Rk by lia.
      * apply list_lookup_insert_eq. unfold len in *. lia.
    + rewrite Hwn. rewrite drop_insert_lt by (unfold len in *; lia).
      replace (Z.to_nat (i + 1)) with (Z.to_nat i + 1)%nat by lia.
      by rewrite <- !drop_drop, Rr.
    + intros _. by destruct (Cont.out p).
Qed.

Lemma read_loop_refines (d0 pre : list byte) : ∀ post i s p,
  read_refines d0 i s p →
  drop (Z.to_nat i) d0 = pre ++ post →
  ∃ s', LineReader.loop (length pre) i s = Some s' ∧
        read_refines d0 (i + len pre) s' (Cont.run p pre).
Proof.
  induction pre as [|c pre IH]; intros post i s p R Hd; simpl.
  { exists s. split; [done|]. by rewrite len_nil, Z.add_0_r. }
  assert (Hc : d0 !! Z.to_nat i = Some c).
  { rewrite <- (Nat.add_0_r (Z.to_nat i)), <- lookup_drop, Hd. done. }
  pose proof (rr_bound _ _ _ _ R) as Hb.
  assert (Hi : index (LineReader.data s) i = Some c).
  { apply index_Some; [lia|].
    rewrite <- (Nat.add_0_r (Z.to_nat i)), <- lookup_drop.
    by rewrite (rr_rest _ _ _ _ R), Hd. }
  rewrite Hi. simpl.
  destruct (read_body_refines _ _ _ _ _ R Hc) as (s1 & -> & R1). simpl.
  destruct (IH post (i + 1) s1 (Cont.step p c) R1) as (s' & Hs' & R').
  - replace (Z.to_nat (i + 1)) with (Z.to_nat i + 1)%nat by lia.
    by rewrite <- drop_drop, Hd.
  - exists s'. split; [done|]. rewrite len_cons.
    by replace (i + (1 + len pre)) with (i + 1 + len pre) by lia.
Qed.

(** [Read] never panics, and delivers what the forward scan keeps. *)
Lemma Read_cont (d0 : list byte) :
  LineReader.Read d0 = Some (Cont.out (Cont.run Cont.init d0)).
Proof.
  unfold LineReader.Read.
  destruct (read_loop_refines d0 d0 [] 0 _ _ (read_refines_init d0))
    as (s & -> & R).
  { by rewrite app_nil_r. }
  simpl. destruct R as [Rs Ro Rb Rn Rl Rk Rr Re Rla].
  pose proof (len_nonneg (Cont.out (Cont.run Cont.init d0))) as Hout.
  assert (Hn : LineReader.n s = len (Cont.out (Cont.run Cont.init d0)))
    by lia.
  rewrite Hn.
  rewrite (proj2 (Z.leb_le _ _)) by lia.
  rewrite (proj2 (Z.leb_le _ _)) by (unfold len in *; lia).
  simpl. f_equal. unfold len. by rewrite Nat2Z.id.
Qed.

Lemma cont_run_app (p : Cont.st) (l k : list byte) :
  Cont.run p (l ++ k) = Cont.run (Cont.run p l) k.
Proof. apply foldl_app. Qed.

(** The filter only takes back what it has written itself. *)
Lemma cont_run_prefix (l : list byte) : ∀ (o x : list byte) (e : bool),
  (e = true → x ≠ []) →
  Cont.run {| Cont.out := o ++ x; Cont.esc := e |} l
  = {| Cont.out := o ++ Cont.out (Cont.run {| Cont.out := x; Cont.esc := e |} l);
       Cont.esc := Cont.esc (Cont.run {| Cont.out := x; Cont.esc := e |} l) |}.
Proof.
  induction l as [|c l IH]; intros o x e Hx; simpl; [done|].
  set (p' := Cont.step {| Cont.out := x; Cont.esc := e |} c).
  assert (Hstep : Cont.step {| Cont.out := o ++ x; Cont.esc := e |} c
                  = {| Cont.out := o ++ Cont.out p';
                       Cont.esc := Cont.esc p' |}).
  { unfold p', Cont.step. simpl. f_equal.
    destruct (e && Byte.eqb c Ch.nl) eqn:E.
    - apply andb_true_iff in E as [-> _]. specialize (Hx eq_refl).
      assert (Hlen : (0 < length x)%nat) by (destruct x; [done|simpl; lia]).
      rewrite take_app, length_app.
      rewrite take_ge by lia. f_equal. f_equal. lia.
    - by rewrite <- app_assoc. }
  rewrite Hstep. rewrite IH; [by destruct p'|].
  apply (cont_step_last {| Cont.out := x; Cont.esc := e |} c Hx).
Qed.

Lemma Read_at_inv (pre post : list byte) (s : LineReader.state) :
  Read_at (pre ++ post) (length pre) = Some s →
  LineReader.escaped s = Cont.esc (Cont.run Cont.init pre).
Proof.
  intros E. unfold Read_at in E.
  destruct (read_loop_refines (pre ++ post) pre post 0 _ _
              (read_refines_init _)) as (s' & E' & R); [done|].
  rewrite E in E'. injection E' as <-. apply (rr_esc _ _ _ _ R).
Qed.

(** * dropCR and scanLines *)

Lemma dropCR_snoc_cr (l : list byte) : dropCR (l ++ [Ch.cr]) = l.
Proof.
  assert (Hl : len (l ++ [Ch.cr]) = len l + 1).
  { unfold len. rewrite length_app. simpl. lia. }
  unfold dropCR. rewrite Hl.
  pose proof (len_nonneg l).
  replace (0 <? len l + 1) with true by (symmetry; apply Z.ltb_lt; lia).
  replace (Z.to_nat (len l + 1 - 1)) with (length l)
    by (unfold len; lia).
  rewrite list_lookup_middle by done.
  rewrite bool_decide_eq_true_2 by done. simpl.
  by rewrite take_app_length.
Qed.

Lemma dropCR_keep (l : list byte) : last l ≠ Some Ch.cr → dropCR l = l.
Proof.
  intros Hl. unfold dropCR.
  destruct (0 <? len l) eqn:E; [|done]. simpl.
  rewrite bool_decide_eq_false_2; [done|].
  rewrite last_lookup in Hl.
  replace (Z.to_nat (len l - 1)) with (pred (length l)); [done|].
  unfold len. lia.
Qed.

(** [dropCR] removes a carriage return that ends the data, and nothing
    else. *)
Lemma dropCR_spec (l : list byte) :
  l = dropCR l ++ [Ch.cr] ∨ (dropCR l = l ∧ last l ≠ Some Ch.cr).
Proof.
  destruct (decide (last l = Some Ch.cr)) as [Hl|Hl].
  - left. apply last_Some in Hl as [l' ->]. by rewrite dropCR_snoc_cr.
  - right. split; [by apply dropCR_keep|done].
Qed.

Lemma dropCR_app (l y : list byte) :
  y ≠ [] → dropCR (l ++ y) = l ++ dropCR y.
Proof.
  intros Hy. destruct (dropCR_spec y) as [E|[E Hl]].
  - rewrite E at 1. by rewrite app_assoc, dropCR_snoc_cr.
  - rewrite E. apply dropCR_keep. rewrite last_app.
    destruct (last y) eqn:Ely; [done|].
    by apply last_None in Ely.
Qed.

Lemma dropCR_after_nl (l x : list byte) :
  ∃ more, dropCR (l ++ Ch.nl :: x) = l ++ Ch.nl :: more.
Proof.
  rewrite dropCR_app by done.
  destruct x as [|c x].
  - exists []. by rewrite dropCR_keep.
  - exists (dropCR (c :: x)).
    change (Ch.nl :: c :: x) with ([Ch.nl] ++ c :: x).
    by rewrite (dropCR_app [Ch.nl] (c :: x)).
Qed.

Lemma scanLines_loop_app (pre rest : list byte) : ∀ i e q,
  scanLines_loop (pre ++ rest) i e q
  = match scanLines_loop pre i e q with
    | Return j => Return j
    | Fallthrough e' q' => scanLines_loop rest (i + len pre) e' q'
    end.
Proof.
  induction pre as [|c pre IH]; intros i e q; simpl.
  { by rewrite len_nil, Z.add_0_r. }
  rewrite len_cons.
  replace (i + (1 + len pre)) with (i + 1 + len pre) by lia.
  destruct (Byte.eqb q Ch.nul); [destruct (Byte.eqb c Ch.nl); [done|]|];
    apply IH.
Qed.

(** Where the loop returns, there is a newline outside quotes. *)
Lemma scanLines_loop_Return (d : list byte) : ∀ i e q j,
  scanLines_loop d i e q = Return j →
  ∃ line rest e',
    d = line ++ Ch.nl :: rest ∧ j = i + len line ∧
    scanLines_loop line i e q = Fallthrough e' Ch.nul.
Proof.
  induction d as [|c d IH]; intros i e q j H; simpl in H; [done|].
  destruct (byte_eqb_spec q Ch.nul) as [->|Hq].
  - destruct (byte_eqb_spec c Ch.nl) as [->|Hc].
    + injection H as <-. exists [], d, e. rewrite len_nil.
      split; [done|]. split; [lia|done].
    + apply IH in H as (line & rest & e' & -> & -> & Hl).
      exists (c :: line), rest, e'. rewrite len_cons.
      split; [done|]. split; [lia|]. simpl.
      by rewrite (byte_eqb_ne _ _ Hc).
  - apply IH in H as (line & rest & e' & -> & -> & Hl).
    exists (c :: line), rest, e'. rewrite len_cons.
    split; [done|]. split; [lia|]. simpl.
    by rewrite (byte_eqb_ne _ _ Hq).
Qed.

(** The quote the loop records is none, or a quotation mark. *)
Lemma scanLines_loop_mark (d : list byte) : ∀ i e q e' q',
  q = Ch.nul ∨ isQuote q = true →
  scanLines_loop d i e q = Fallthrough e' q' →
  q' = Ch.nul ∨ isQuote q' = true.
Proof.
  induction d as [|c d IH]; intros i e q e' q' Hq H; simpl in H.
  { by injection H as <- <-. }
  destruct (Byte.eqb q Ch.nul).
  - destruct (Byte.eqb c Ch.nl); [done|].
    eapply IH; [|exact H].
    destruct (negb e && isQuote c) eqn:E; [|done].
    apply andb_true_iff in E as [_ E]. by right.
  - eapply IH; [|exact H].
    destruct (negb e && Byte.eqb c q); [by left|done].
Qed.

Lemma scanLines_at_newline (pre post : list byte) (e : bool) (q : byte) :
  scanLines_loop pre 0 false Ch.nul = Fallthrough e q →
  scanLines_loop (pre ++ Ch.nl :: post) 0 false Ch.nul
  = if Byte.eqb q Ch.nul then Return (len pre)
    else scanLines_loop post (len pre + 1) false q.
Proof.
  intros H. rewrite scanLines_loop_app, H. simpl.
  destruct (byte_eqb_spec q Ch.nul) as [->|Hq]; [done|].
  rewrite Z.add_0_l, andb_false_r.
  destruct (scanLines_loop_mark _ _ _ _ _ _ (or_introl eq_refl) H)
    as [->|Hm]; [done|].
  destruct (byte_eqb_spec Ch.nl q) as [<-|_]; [done|].
  by rewrite andb_false_r.
Qed.

Lemma scanLines_nonempty (d : list byte) (atEOF : bool) :
  d ≠ [] →
  scanLines d atEOF
  = match scanLines_loop d 0 false Ch.nul with
    | Return i => (i + 1, Some (dropCR (take (Z.to_nat i) d)))
    | Fallthrough _ _ =>
        if atEOF then (len d, Some (dropCR d)) else (0, None)
    end.
Proof.
  intros Hd. unfold scanLines.
  replace (len d =? 0) with false; [by rewrite andb_false_r|].
  symmetry. apply Z.eqb_neq. destruct d; [done|]. rewrite len_cons.
  pose proof (len_nonneg d). lia.
Qed.

(** * The scanner always terminates *)

Lemma scanLines_advance (d : list byte) (atEOF : bool) (adv : Z)
    (tok : list byte) :
  scanLines d atEOF = (adv, Some tok) → 0 < adv ≤ len d.
Proof.
  intros H.
  destruct (decide (d = [])) as [->|Hd]; [by destruct atEOF|].
  assert (0 < len d).
  { destruct d; [done|]. rewrite len_cons. pose proof (len_nonneg d). lia. }
  rewrite scanLines_nonempty in H by done.
  destruct (scanLines_loop d 0 false Ch.nul) as [j|e q] eqn:El.
  - injection H as <- _.
    apply scanLines_loop_Return in El as (line & rest & e' & -> & -> & _).
    rewrite len_app, len_cons.
    pose proof (len_nonneg line). pose proof (len_nonneg rest). lia.
  - destruct atEOF; [|done]. injection H as <- _. lia.
Qed.

Lemma cont_out_length (l : list byte) : ∀ p,
  (length (Cont.out (Cont.run p l)) ≤ length (Cont.out p) + length l)%nat.
Proof.
  induction l as [|c l IH]; intros p; simpl; [lia|].
  etrans; [apply IH|]. unfold Cont.step. simpl.
  destruct (Cont.esc p && Byte.eqb c Ch.nl).
  - rewrite length_take. lia.
  - rewrite length_app. simpl. lia.
Qed.

Lemma Scan_total (fuel : nat) : ∀ (buf : list byte) (source : list (list byte)),
  (length buf + length source + length (concat source) < fuel)%nat →
  ∃ lines, Scan fuel buf source = Some lines.
Proof.
  induction fuel as [|fuel IH]; intros buf source Hfuel; [lia|].
  simpl.
  destruct (scanLines buf _) as [adv [tok|]] eqn:Es.
  - apply scanLines_advance in Es. unfold len in Es.
    destruct (IH (drop (Z.to_nat adv) buf) source) as [lines ->].
    { rewrite length_drop. lia. }
    by eexists.
  - destruct source as [|chunk source]; [by eexists|].
    rewrite Read_cont. simpl. apply IH.
    pose proof (cont_out_length chunk Cont.init) as Hout.
    rewrite length_app. simpl in *. rewrite length_app in Hfuel. lia.
Qed.

(** The scanner yields its lines on every input, however the source
    delivers it. *)
Lemma scanLines_all_total (source : list (list byte)) :
  ∃ lines, scanLines_all source = Some lines.
Proof. apply Scan_total. unfold Scan_fuel. simpl. lia. Qed.

(** * The lines of an input *)

Lemma Scan_more_fuel (fuel : nat) : ∀ buf source lines (fuel' : nat),
  Scan fuel buf source = Some lines → (fuel ≤ fuel')%nat →
  Scan fuel' buf source = Some lines.
Proof.
  induction fuel as [|fuel IH]; intros buf source lines fuel' H Hle;
    [done|].
  destruct fuel' as [|fuel']; [lia|].
  simpl in *.
  destruct (scanLines buf _) as [adv [tok|]].
  - destruct (Scan fuel _ source) as [ls|] eqn:Es; [|done].
    rewrite (IH _ _ ls fuel' Es) by lia. done.
  - destruct source as [|chunk source]; [done|].
    destruct (LineReader.Read chunk) as [r|]; [|done]. simpl in *.
    apply IH; [done|lia].
Qed.

(** The lines of an input that is read at once are those of what [Read]
    delivers, scanned to the end. *)
Lemma Assemble_Read (d : list byte) :
  ∃ r lines,
    LineReader.Read d = Some r ∧
    Scan (S (length r)) r [] = Some lines ∧
    Assemble d = Some lines.
Proof.
  rewrite Read_cont.
  set (r := Cont.out (Cont.run Cont.init d)).
  destruct (Scan_total (S (length r)) r []) as [lines Hl]; [simpl; lia|].
  exists r, lines. split; [done|]. split; [done|].
  destruct d as [|c d].
  { vm_compute in Hl. by injection Hl as <-. }
  unfold Assemble, scanLines_all, Scan_fuel.
  change (Scan (S ?f) [] [c :: d])
    with (r' ← LineReader.Read (c :: d); Scan f ([] ++ r') []).
  rewrite Read_cont. fold r. cbn [mbind option_bind app].
  apply (Scan_more_fuel _ _ _ _ _ Hl).
  pose proof (cont_out_length (c :: d) Cont.init) as Hlen. fold r in Hlen.
  simpl in *. rewrite app_nil_r. lia.
Qed.

Lemma Assemble_ext (d1 d2 : list byte) :
  LineReader.Read d1 = LineReader.Read d2 → Assemble d1 = Assemble d2.
Proof.
  intros E.
  destruct (Assemble_Read d1) as (r1 & l1 & H1 & Hs1 & ->).
  destruct (Assemble_Read d2) as (r2 & l2 & H2 & Hs2 & ->).
  rewrite H1, H2 in E. injection E as ->. by rewrite <- Hs1, <- Hs2.
Qed.

(** * The claim about continuation lines *)

(** C4, as stated, fails: inside a quoted region too, an unescaped
    backslash and the newline after it are dropped.  The input is a
    single-quoted region holding a backslash and a newline; the scanner's
    own state at the backslash has the single quote open.  The C library
    reads the same line. *)
Lemma C4_counterexample :
  scanLines_loop (B "'a") 0 false Ch.nul = Fallthrough false Ch.squote ∧
  LineReader.Read (B "'a\" ++ Ch.nl :: B "b'") = Some (B "'ab'") ∧
  Assemble (B "'a\" ++ Ch.nl :: B "b'" ++ [Ch.nl]) = Some [B "'ab'"] ∧
  Simpleio.simple_fgetline (B "'a\" ++ Ch.nl :: B "b'" ++ [Ch.nl])
  = (B "'ab'" ++ [Ch.nl], []).
Proof. by vm_compute. Qed.

(** C4, amended: in a stream that one read delivers, [chunk], a backslash
    immediately followed by a newline is a continuation exactly when the
    backslash is not itself escaped, whatever the quote state: then both
    characters are dropped and the scan goes on as if they had not been
    there, so that the lines of the input are those of the input without
    the two characters; when the backslash is escaped, both characters
    are kept.  The escape state is that of the loop of [Read] on the
    stream, which starts without an escape pending. *)
Theorem C4_continuation_when_unescaped (pre post : list byte)
    (s : LineReader.state) :
  let chunk := pre ++ Ch.backslash :: Ch.nl :: post in
  Read_at chunk (length pre) = Some s →
  (LineReader.escaped s = false →
   (∃ r, LineReader.Read (pre ++ post) = Some r ∧
         LineReader.Read chunk = Some r) ∧
   Assemble chunk = Assemble (pre ++ post)) ∧
  (LineReader.escaped s = true →
   ∃ r1 r2, LineReader.Read pre = Some r1 ∧
            LineReader.Read post = Some r2 ∧
            LineReader.Read chunk
            = Some (r1 ++ Ch.backslash :: Ch.nl :: r2)).
Proof.
  intros chunk Hs. apply Read_at_inv in Hs. rewrite Hs.
  assert (Hdrop : Cont.esc (Cont.run Cont.init pre) = false →
            LineReader.Read chunk = LineReader.Read (pre ++ post)).
  { unfold chunk. rewrite !Read_cont.
    change (Ch.backslash :: Ch.nl :: post)
      with ([Ch.backslash; Ch.nl] ++ post).
    rewrite !cont_run_app.
    destruct (Cont.run Cont.init pre) as [o e]. simpl. intros ->.
    unfold Cont.step at 2. simpl. unfold Cont.step at 1. simpl.
    rewrite length_app. simpl.
    replace (length o + 1 - 1)%nat with (length o) by lia.
    by rewrite take_app_length. }
  split.
  { intros He. specialize (Hdrop He). split.
    - rewrite Hdrop, Read_cont. eauto.
    - by apply Assemble_ext. }
  unfold chunk. rewrite !Read_cont.
  change (Ch.backslash :: Ch.nl :: post)
    with ([Ch.backslash; Ch.nl] ++ post).
  rewrite !cont_run_app.
  destruct (Cont.run Cont.init pre) as [o e]. simpl.
  intros ->.
  - exists o, (Cont.out (Cont.run Cont.init post)).
    split; [done|]. split; [done|].
    unfold Cont.step at 2. simpl. unfold Cont.step at 1. simpl.
    rewrite <- app_assoc. simpl.
    rewrite <- (app_nil_r (o ++ _)).
    rewrite cont_run_prefix by done. simpl.
    by rewrite <- app_assoc.
Qed.

Lemma C4_witness :
  LineReader.Read (B "a\" ++ Ch.nl :: B "b") = Some (B "ab") ∧
  LineReader.Read (B "a\\" ++ Ch.nl :: B "b")
  = Some (B "a\\" ++ Ch.nl :: B "b").
Proof.
  split.
  - destruct (proj1 (C4_continuation_when_unescaped (B "a") (B "b")
        {| LineReader.data := B "a\" ++ Ch.nl :: B "b"; LineReader.n := 4;
           LineReader.shift := 0; LineReader.escaped := false |} eq_refl)
        eq_refl) as ((r & Hr & Hc) & _).
    vm_compute in Hr. injection Hr as <-. exact Hc.
  - destruct (proj2 (C4_continuation_when_unescaped (B "a\") (B "b")
        {| LineReader.data := B "a\\" ++ Ch.nl :: B "b"; LineReader.n := 5;
           LineReader.shift := 0; LineReader.escaped := true |} eq_refl)
        eq_refl) as (r1 & r2 & H1 & H2 & Hc).
    vm_compute in H1, H2. injection H1 as <-. injection H2 as <-.
    exact Hc.
Defined.

(** * The claims about the line scanner *)

(** C5: a newline ends the logical line exactly when no quote is open.
    After a prefix [pre] that the loop of [scanLines] has scanned without
    returning, a newline read with no quote open ends the line: the token
    is [pre], less a final carriage return, and the scanner yields it and
    goes on with what follows the newline.  With a quote [q] open the
    loop goes on over the rest with the quote still open, and any token
    then returned extends over the newline and holds [pre] and the
    newline as they are. *)
Theorem C5_newline_ends_line_iff_unquoted (pre post : list byte) (e : bool)
    (q : byte) (atEOF : bool) :
  let d := pre ++ Ch.nl :: post in
  scanLines_loop pre 0 false Ch.nul = Fallthrough e q →
  (q = Ch.nul →
   scanLines d atEOF = (len pre + 1, Some (dropCR pre)) ∧
   ∀ fuel source,
     Scan (S fuel) d source = (dropCR pre ::.) <$> Scan fuel post source) ∧
  (q ≠ Ch.nul →
   scanLines_loop d 0 false Ch.nul
   = scanLines_loop post (len pre + 1) false q ∧
   (∀ adv tok,
      scanLines d atEOF = (adv, Some tok) →
      len pre + 1 ≤ adv ∧ ∃ more, tok = pre ++ Ch.nl :: more) ∧
   (∃ adv tok, scanLines d true = (adv, Some tok))).
Proof.
  intros d H.
  assert (Hd : d ≠ []) by (unfold d; by destruct pre).
  pose proof (scanLines_at_newline pre post e q H) as Hloop. fold d in Hloop.
  rewrite !(scanLines_nonempty d) by done. rewrite Hloop.
  pose proof (len_nonneg pre) as Hpre.
  split.
  - intros ->. simpl.
    assert (Ht : take (Z.to_nat (len pre)) d = pre).
    { unfold d, len. rewrite Nat2Z.id. by rewrite take_app_length. }
    rewrite Ht. split; [done|]. intros fuel source.
    change (Scan (S fuel) d source)
      with (match scanLines d (match source with [] => true | _ => false end)
            with
            | (advance, Some token) =>
                (token ::.) <$> Scan fuel (drop (Z.to_nat advance) d) source
            | (_, None) =>
                match source with
                | [] => Some []
                | chunk :: source' =>
                    r ← LineReader.Read chunk; Scan fuel (d ++ r) source'
                end
            end).
    rewrite scanLines_nonempty, Hloop by done. simpl. rewrite Ht.
    replace (Z.to_nat (len pre + 1)) with (length (pre ++ [Ch.nl]))
      by (rewrite length_app; unfold len; simpl; lia).
    unfold d. change (pre ++ Ch.nl :: post) with (pre ++ [Ch.nl] ++ post).
    by rewrite app_assoc, drop_app_length.
  - intros Hq. rewrite (byte_eqb_ne _ _ Hq). split; [done|].
    destruct (scanLines_loop post (len pre + 1) false q) as [j|e' q'] eqn:Er.
    + apply scanLines_loop_Return in Er
        as (line & rest & e' & Hpost & -> & _).
      pose proof (len_nonneg line) as Hline.
      assert (Ht : take (Z.to_nat (len pre + 1 + len line)) d
                   = pre ++ Ch.nl :: line).
      { unfold d. rewrite Hpost.
        change (pre ++ Ch.nl :: line ++ Ch.nl :: rest)
          with (pre ++ (Ch.nl :: line) ++ Ch.nl :: rest).
        rewrite app_assoc. apply take_app_length'.
        rewrite length_app. simpl. unfold len. lia. }
      rewrite Ht. destruct (dropCR_after_nl pre line) as [more Hm].
      split; [|eauto].
      intros adv tok [= <- <-]. split; [lia|eauto].
    + destruct (dropCR_after_nl pre post) as [more Hm]. fold d in Hm.
      split; [|eauto].
      intros adv tok Ht. destruct atEOF; [|done].
      injection Ht as <- <-. split; [|eauto].
      unfold d. rewrite len_app, len_cons. pose proof (len_nonneg post). lia.
Qed.

Lemma C5_witness :
  scanLines (B "a" ++ Ch.nl :: B "b") false = (2, Some (B "a")) ∧
  ∃ more,
    scanLines (B "'a" ++ Ch.nl :: B "b'" ++ [Ch.nl]) false
    = (6, Some (B "'a" ++ Ch.nl :: more)).
Proof.
  split.
  - exact (proj1 (proj1 (C5_newline_ends_line_iff_unquoted
                    (B "a") (B "b") false Ch.nul false eq_refl) eq_refl)).
  - destruct (proj2 (C5_newline_ends_line_iff_unquoted
                       (B "'a") (B "b'" ++ [Ch.nl]) false Ch.squote false
                       eq_refl)) as (_ & Hall & _); [done|].
    destruct (Hall 6 (B "'a" ++ Ch.nl :: B "b'") eq_refl)
      as (_ & more & Hm).
    exists more. by rewrite <- Hm.
Defined.

(** C7, as stated, fails: a carriage return that ends the input is dropped
    from the final line although no newline follows it. *)
Lemma C7_counterexample :
  Forall (λ c, c ≠ Ch.nl) (B "a" ++ [Ch.cr]) ∧
  scanLines (B "a" ++ [Ch.cr]) true = (2, Some (B "a")) ∧
  Assemble (B "a" ++ [Ch.cr]) = Some [B "a"].
Proof. split; [by repeat constructor|by vm_compute]. Qed.

(** C7, amended: the token that [scanLines] returns is the content of the
    line, up to its terminating newline or, for a final line without one,
    up to the end of the input, less a carriage return that is the last
    character of that content; every other character, carriage returns
    included, is kept. *)
Theorem C7_only_final_carriage_return_dropped (d : list byte)
    (atEOF : bool) (adv : Z) (tok : list byte) :
  scanLines d atEOF = (adv, Some tok) →
  ∃ line,
    ((∃ rest e,
        d = line ++ Ch.nl :: rest ∧ adv = len line + 1 ∧
        scanLines_loop line 0 false Ch.nul = Fallthrough e Ch.nul) ∨
     (∃ e q,
        atEOF = true ∧ d = line ∧ adv = len d ∧
        scanLines_loop d 0 false Ch.nul = Fallthrough e q)) ∧
    (line = tok ++ [Ch.cr] ∨ (tok = line ∧ last line ≠ Some Ch.cr)).
Proof.
  intros H.
  destruct (decide (d = [])) as [->|Hd].
  { by destruct atEOF. }
  rewrite scanLines_nonempty in H by done.
  destruct (scanLines_loop d 0 false Ch.nul) as [j|e q] eqn:El.
  - injection H as <- <-.
    apply scanLines_loop_Return in El as (line & rest & e' & -> & -> & Hl).
    replace (Z.to_nat (0 + len line)) with (length line)
      by (unfold len; lia).
    rewrite take_app_length.
    exists line. split; [left; eauto|]. apply dropCR_spec.
  - destruct atEOF; [|done]. injection H as <- <-.
    exists d. split; [right; eauto 10|]. apply dropCR_spec.
Qed.

Lemma C7_witness :
  B "a" ++ [Ch.cr; Ch.cr] = B "a" ++ [Ch.cr] ++ [Ch.cr] ∨
  (B "a" ++ [Ch.cr] = B "a" ++ [Ch.cr; Ch.cr] ∧
   last (B "a" ++ [Ch.cr; Ch.cr]) ≠ Some Ch.cr).
Proof.
  destruct (C7_only_final_carriage_return_dropped
              (B "a" ++ [Ch.cr; Ch.cr; Ch.nl] ++ B "b") false 4
              (B "a" ++ [Ch.cr]) eq_refl)
    as (line & [(rest & e & Hd & Hadv & _)|(e & q & Heof & _)] & Hline);
    [|done].
  assert (line = B "a" ++ [Ch.cr; Ch.cr]) as ->.
  { assert (Hn : 3%nat = length line) by (unfold len in Hadv; lia).
    apply (f_equal (take 3)) in Hd.
    rewrite (take_app_length' line _ 3 Hn) in Hd.
    by rewrite <- Hd. }
  exact Hline.
Defined.




(** * The test vectors of the repository and the examples of the
      specification *)

Section Vectors.

Let nl := [Ch.nl].
Let dq := [Ch.dquote].

(** [scanTests] *)
Example scan_empty : Assemble [] = Some [].
Proof. reflexivity. Qed.

Example scan_newline : Assemble nl = Some [[]].
Proof. reflexivity. Qed.

Example scan_blank_lines :
  Assemble (nl ++ nl ++ B " ") = Some [[]; []; B " "].
Proof. reflexivity. Qed.

Example scan_one_line : Assemble (B "abcxyz" ++ nl) = Some [B "abcxyz"].
Proof. reflexivity. Qed.

Example scan_continuation :
  Assemble (B "AbC123\" ++ nl ++ B "...") = Some [B "AbC123..."].
Proof. reflexivity. Qed.

Example scan_escaped_backslash :
  Assemble (B "!@#$;\\" ++ nl ++ B "test") = Some [B "!@#$;\\"; B "test"].
Proof. reflexivity. Qed.

Example scan_three_backslashes :
  Assemble (B "TEST\\\" ++ nl ++ B "123") = Some [B "TEST\\123"].
Proof. reflexivity. Qed.

Example scan_quoted_newline :
  Assemble
    (B "he'llo" ++ nl ++ B "hello'1" ++ nl ++ B "abc\'" ++ nl ++ B " ")
  = Some [B "he'llo" ++ nl ++ B "hello'1"; B "abc\'"; B " "].
Proof. reflexivity. Qed.

Example scan_unterminated :
  Assemble (B "a" ++ dq ++ nl ++ dq ++ B "'a")
  = Some [B "a" ++ dq ++ nl ++ dq ++ B "'a"].
Proof. reflexivity. Qed.

(** [tokenizeTests] *)
Example tokenize_empty : tokenize_strings [] = Some [].
Proof. reflexivity. Qed.

Example tokenize_words :
  tokenize_strings (B "one two 3 4 5")
  = Some [B "one"; B "two"; B "3"; B "4"; B "5"].
Proof. reflexivity. Qed.

Example tokenize_mixed :
  tokenize_strings
    ([Ch.tab] ++ B "a" ++ nl ++ B "b" ++ [Ch.cr] ++ B "c\ c\ c '' "
     ++ dq ++ B "d \" ++ dq ++ B "d d" ++ dq)
  = Some [B "a"; B "b"; B "c c c"; []; B "d " ++ dq ++ B "d d"].
Proof. reflexivity. Qed.

Example tokenize_marks :
  tokenize_strings
    (B "'" ++ dq ++ B "''" ++ dq ++ B "' " ++ dq ++ B "'" ++ dq
     ++ B "\ abcxyz\ " ++ dq ++ B "'" ++ dq ++ B "   '  ' \\")
  = Some [dq ++ dq; B "' abcxyz '"; B "  "; B "\"].
Proof. reflexivity. Qed.

Example tokenize_escapes :
  tokenize_strings (B "\a\b\c\ 1 \  \ ' '\\")
  = Some [B "abc 1"; B " "; B "  \"].
Proof. reflexivity. Qed.

Example tokenize_open_quote :
  tokenize_strings (B "' " ++ [Ch.tab] ++ B " " ++ dq ++ B " ab z1 \'")
  = Some [B " " ++ [Ch.tab] ++ B " " ++ dq ++ B " ab z1 '"].
Proof. reflexivity. Qed.

Example tokenize_open_quote_escapes :
  tokenize_strings (B "' ab1 [z] \'\' 4") = Some [B " ab1 [z] '' 4"].
Proof. reflexivity. Qed.

(** The examples of the specification *)
Example tokenize_escaped_space :
  tokenize_strings (B "a\ b") = Some [B "a b"].
Proof. reflexivity. Qed.

Example tokenize_quoted_space :
  tokenize_strings (B "'a b'") = Some [B "a b"].
Proof. reflexivity. Qed.

Example tokenize_other_mark :
  tokenize_strings (dq ++ B "a 'b" ++ dq) = Some [B "a 'b"].
Proof. reflexivity. Qed.

Example tokenize_double_backslash :
  tokenize_strings (B "a\\b") = Some [B "a\b"].
Proof. reflexivity. Qed.

Example tokenize_empty_quotes :
  tokenize_strings (B "''") = Some [[]] ∧
  tokenize_strings (B "x''y") = Some [B "xy"].
Proof. split; reflexivity. Qed.

Example tokenize_fragments :
  tokenize_strings (B "a'b c'd") = Some [B "ab cd"].
Proof. reflexivity. Qed.

Example assemble_continuation :
  Assemble (B "a\" ++ nl ++ B "b" ++ nl) = Some [B "ab"].
Proof. reflexivity. Qed.

Example assemble_quoted :
  Assemble (B "'a" ++ nl ++ B "b'" ++ nl) = Some [B "'a" ++ nl ++ B "b'"].
Proof. reflexivity. Qed.

Example assemble_three_lines :
  Assemble (B "x" ++ nl ++ nl ++ B "y" ++ nl) = Some [B "x"; []; B "y"].
Proof. reflexivity. Qed.

Example end_to_end :
  Assemble (B "1 2 3" ++ nl) = Some [B "1 2 3"] ∧
  tokenize_strings (B "1 2 3") = Some [B "1"; B "2"; B "3"].
Proof. split; reflexivity. Qed.

Example lone_trailing_backslash : Assemble (B "a\") = Some [B "a\"].
Proof. reflexivity. Qed.

(** [Read] starts every call with [escaped] unset: a backslash that ends
    one read and a newline that begins the next are both kept. *)
Example continuation_across_reads :
  scanLines_all [B "a\"; nl ++ B "b"] = Some [B "a\"; B "b"] ∧
  scanLines_all [B "a\" ++ nl ++ B "b"] = Some [B "ab"].
Proof. split; reflexivity. Qed.

End Vectors.

(** * More about countMaxTokens *)

Lemma countMaxTokens_loop_fields (d : list byte) :
  ∀ (n : Z) (w : bool) (word : list byte),
  (w = true ↔ word = []) →
  countMaxTokens_loop d n w
  = n + len (fields_from word d) - (if w then 0 else 1).
Proof.
  induction d as [|c d IH]; intros n w word Hw; simpl.
  { destruct w, word as [|x word]; simpl;
      rewrite ?len_cons, ?len_nil; try lia.
    - by destruct Hw as [Hw _]; specialize (Hw eq_refl).
    - by destruct Hw as [_ Hw]; specialize (Hw eq_refl). }
  destruct (isSpace c) eqn:Es; simpl.
  - rewrite andb_false_r. rewrite (IH n true []) by done.
    destruct w, word as [|x word]; simpl; rewrite ?len_cons; try lia.
    + by destruct Hw as [Hw _]; specialize (Hw eq_refl).
    + by destruct Hw as [_ Hw]; specialize (Hw eq_refl).
  - rewrite andb_true_r.
    rewrite (IH _ false (word ++ [c])).
    + destruct w; lia.
    + split; [done|]. by destruct word.
Qed.

(** X1: [countMaxTokens] counts exactly the fields of the data, the
    maximal runs of bytes that are not white space; on data without
    quotation marks and backslashes [tokenize] returns exactly that many
    tokens, so that the capacity it reserves is filled. *)
Theorem X1_countMaxTokens_counts_fields :
  (∀ d : list byte, countMaxTokens d = len (fields d)) ∧
  (∀ d : list byte,
     forallb plain d = true →
     ∃ buf toks, tokenize d = Some (buf, toks) ∧
                 len toks = countMaxTokens d).
Proof.
  assert (Hc : ∀ d : list byte, countMaxTokens d = len (fields d)).
  { intros d. unfold countMaxTokens, fields.
    rewrite (countMaxTokens_loop_fields d 0 true []) by done. lia. }
  split; [done|]. intros d Hd.
  destruct (tokenize_refines d) as (toks & E & _ & Hm).
  eexists _, toks. split; [exact E|].
  rewrite Hc, <- (lex_fields d Hd), <- Hm. unfold len.
  by rewrite length_map.
Qed.

(** * More about the token slices *)

Lemma separated_snoc (toks : list slice) (t : slice) :
  separated toks → Forall (λ t', hi t' < lo t) toks →
  separated (toks ++ [t]).
Proof.
  induction toks as [|t0 toks IH]; simpl; [done|].
  intros [Hall Hs] Hlt. apply Forall_cons in Hlt as [H0 Hlt].
  split; [|by apply IH].
  apply Forall_app. split; [done|]. by apply Forall_singleton.
Qed.

Lemma tokens_apart_body (i : Z) (c : byte) (s s' : tstate) :
  tokenize_body i c s = Some s' →
  tokens_apart i s → tokens_apart (i + 1) s'.
Proof.
  intros H [Hs Hb Hst].
  destruct (tokenize_body_tokens _ _ _ _ H)
    as [(Et & Es & Hsh)|[(Et & Es & Hsh)|(Et & Es & Hr & Hsh)]].
  - split; rewrite Et; [done| |].
    + eapply Forall_impl; [done|]. simpl. lia.
    + rewrite Es. destruct Hst as [?|[? ?]]; [by left|right].
      split; [lia|done].
  - split; rewrite Et; [done| |].
    + eapply Forall_impl; [done|]. simpl. lia.
    + right. rewrite Es. split; [lia|done].
  - assert (Hlt : Forall (λ t, hi t < start s) (tokens s)).
    { destruct Hst as [?|[? ?]]; [lia|done]. }
    split; rewrite Et; [| |by left].
    + by apply separated_snoc.
    + apply Forall_app. split.
      * eapply Forall_impl; [exact Hlt|]. simpl. lia.
      * apply Forall_singleton. simpl. lia.
Qed.

Lemma tokens_apart_loop : ∀ (n : nat) (i : Z) (s s' : tstate),
  tokenize_loop n i s = Some s' →
  tokens_apart i s → tokens_apart (i + Z.of_nat n) s'.
Proof.
  induction n as [|n IH]; intros i s s' H Ha.
  { simpl in H. simplify_eq. by rewrite Z.add_0_r. }
  cbn [tokenize_loop] in H.
  destruct (index (data s) i) as [c|]; [|done]. cbn [mbind option_bind] in H.
  destruct (tokenize_body i c s) as [s1|] eqn:Eb; [|done].
  cbn [mbind option_bind] in H.
  replace (i + Z.of_nat (S n)) with (i + 1 + Z.of_nat n) by lia.
  eapply IH; [done|]. by eapply tokens_apart_body.
Qed.

(** X2: the tokens that [tokenize] returns are slices of the buffer it
    has rewritten, inside its bounds, in increasing order and with at least
    one byte of the buffer between one token and the next: no two tokens
    share a byte, and the buffer keeps its length. *)
Theorem X2_tokens_are_disjoint_slices (d : list byte) :
  ∃ buf toks,
    tokenize d = Some (buf, toks) ∧
    length buf = length d ∧
    Forall (λ t, 0 ≤ lo t ≤ hi t ∧ hi t ≤ len buf) toks ∧
    separated toks.
Proof.
  destruct (tokenize_refines d) as (toks & E & Hr & _).
  eexists _, toks. split; [exact E|].
  assert (Hlen : (length (Lex.out (Lex.run Lex.init d)) ≤ length d)%nat).
  { destruct (tokenize_loop_refines d d [] 0 _ _ (refines_init d)
                lex_wf_init) as (s & _ & R); [done|by rewrite app_nil_r|].
    destruct R as [Hsh Hnn _ _ _ _ _ _]. unfold len in *. lia. }
  split_and!.
  - rewrite length_app, length_drop. lia.
  - eapply Forall_impl; [exact Hr|]. simpl. intros t [? ?].
    split; [done|]. rewrite len_app. pose proof (len_nonneg (drop (length (Lex.out (Lex.run Lex.init d))) d)). lia.
  - unfold tokenize in E.
    destruct (tokenize_loop (length d) 0 (tokenize_init d)) as [s|] eqn:El;
      [|done].
    cbn [mbind option_bind] in E.
    apply tokens_apart_loop in El.
    2:{ split; simpl; [done|constructor|by left]. }
    destruct El as [Hs Hb Hst]. unfold tokenize_finish in E.
    destruct (start s =? -1) eqn:Est; simpl in E.
    { by simplify_eq. }
    apply Z.eqb_neq in Est.
    destruct (subslice _ _ _) as [t|] eqn:Et; [|done]. simpl in E.
    simplify_eq. apply separated_snoc; [done|].
    destruct Hst as [?|[_ Hlt]]; [done|].
    unfold subslice in Et. destruct (_ && _); [|done]. by simplify_eq.
Qed.

(** * Tokenizing a line in parts *)

Lemma lex_app_space (a b : list byte) (ws : byte) :
  Lex.esc (Lex.run Lex.init a) = false →
  Lex.q (Lex.run Lex.init a) = Ch.nul →
  isSpace ws = true →
  Lex.lex (a ++ ws :: b) = Lex.lex a ++ Lex.lex b.
Proof.
  intros He Hq Hs. unfold Lex.lex.
  rewrite lex_run_app. simpl.
  change (foldl Lex.step ?x b) with (Lex.run x b).
  rewrite (lex_step_space_closed _ _ (lex_wf_run _ _ lex_wf_init) He Hq Hs).
  rewrite lex_run_frame. unfold Lex.finish, lex_frame. simpl.
  destruct (Lex.cur (Lex.run Lex.init b)); by rewrite ?app_assoc.
Qed.

(** X3: a line can be tokenized in parts. When the loop of [tokenize]
    ends on [a] with no escape pending and no quotation open, the tokens of
    [a], a white-space character and [b] are the tokens of [a] followed by
    the tokens of [b]. *)
Theorem X3_tokenize_splits_at_closed_space (a b : list byte) (ws : byte)
    (s : tstate) :
  tokenize_at a (length a) = Some s →
  escaped s = false → quote s = Ch.nul → isSpace ws = true →
  ∃ ta tb,
    tokenize_strings a = Some ta ∧ tokenize_strings b = Some tb ∧
    tokenize_strings (a ++ ws :: b) = Some (ta ++ tb).
Proof.
  intros E He Hq Hs.
  rewrite <- (app_nil_r a) in E at 1.
  apply tokenize_at_inv in E as [R _].
  destruct R as [_ _ _ _ _ _ Re Rq].
  exists (Lex.lex a), (Lex.lex b).
  rewrite !tokenize_strings_lex. split_and!; try done.
  f_equal. apply lex_app_space; [congruence|congruence|done].
Qed.

Lemma X3_witness :
  ∃ ta tb,
    tokenize_strings (B "a\\ b") = Some ta ∧
    tokenize_strings (B "'c d'") = Some tb ∧
    tokenize_strings (B "a\\ b" ++ Ch.tab :: B "'c d'") = Some (ta ++ tb).
Proof.
  eapply (X3_tokenize_splits_at_closed_space (B "a\\ b") (B "'c d'") Ch.tab);
    vm_compute; reflexivity.
Defined.

(** * Every token list has a line *)

Lemma lex_run_escape_bytes (t : list byte) : ∀ a,
  Lex.esc a = false → Lex.q a = Ch.nul → Lex.was a = false →
  Lex.run a (escape_bytes t)
  = {| Lex.out := Lex.out a ++ t; Lex.done := Lex.done a;
       Lex.cur := (λ u, u ++ t) <$> Lex.cur a; Lex.was := false;
       Lex.esc := false; Lex.q := Ch.nul |}.
Proof.
  induction t as [|c t IH]; intros [o dn cu w e q] He Hq Hw; simpl in *;
    subst.
  { rewrite app_nil_r. by destruct cu; simpl; rewrite ?app_nil_r. }
  change (escape_bytes (c :: t)) with (Ch.backslash :: c :: escape_bytes t).
  simpl. unfold escape_bytes in IH. rewrite IH by done. simpl.
  rewrite <- app_assoc. f_equal.
  destruct cu; simpl; [|done]. by rewrite <- app_assoc.
Qed.

Lemma lex_run_quote_arg (t : list byte) :
  Lex.run Lex.init (quote_arg t)
  = {| Lex.out := t; Lex.done := []; Lex.cur := Some t; Lex.was := false;
       Lex.esc := false; Lex.q := Ch.nul |}.
Proof.
  destruct t as [|c t]; [done|].
  change (quote_arg (c :: t)) with (Ch.backslash :: c :: escape_bytes t).
  simpl. change (foldl Lex.step ?x (escape_bytes t))
    with (Lex.run x (escape_bytes t)).
  by rewrite lex_run_escape_bytes.
Qed.

Lemma lex_join_quote_arg (toks : list (list byte)) :
  Lex.lex (join_space (map quote_arg toks)) = toks.
Proof.
  induction toks as [|t toks IH]; [done|].
  destruct toks as [|t' toks].
  { simpl. unfold Lex.lex. by rewrite lex_run_quote_arg. }
  change (join_space (map quote_arg (t :: t' :: toks)))
    with (quote_arg t ++ Ch.space :: join_space (map quote_arg (t' :: toks))).
  rewrite lex_app_space; [|by rewrite lex_run_quote_arg..|done].
  rewrite IH. unfold Lex.lex. by rewrite lex_run_quote_arg.
Qed.

(** X4: every list of byte strings is the token list of a line: the one
    that writes each byte of each token behind a backslash, a pair of
    single quotation marks for an empty token, and one space between two
    tokens. *)
Theorem X4_every_token_list_has_a_line (toks : list (list byte)) :
  tokenize_strings (join_space (map quote_arg toks)) = Some toks.
Proof. by rewrite tokenize_strings_lex, lex_join_quote_arg. Qed.

(** * The buffer after tokenize *)

Lemma decode_sublist (d : list byte) : ∀ (e : bool) (q : byte),
  sublist (decode e q d) d.
Proof.
  induction d as [|c d IH]; intros e q; simpl; [done|].
  destruct e; [by apply sublist_skip|].
  destruct (Byte.eqb c Ch.backslash); [by apply sublist_cons|].
  destruct (Byte.eqb q Ch.nul).
  - destruct (isQuote c); [by apply sublist_cons|by apply sublist_skip].
  - destruct (Byte.eqb c q); [by apply sublist_cons|by apply sublist_skip].
Qed.

(** X5: [tokenize] only deletes and moves bytes down. The buffer it
    leaves is a subsequence of the data, the bytes it has kept in their
    order, followed by the bytes of the data that it has not overwritten,
    and every token lies in the first part. *)
Theorem X5_tokenize_keeps_a_subsequence (d : list byte) :
  ∃ buf toks kept,
    tokenize d = Some (buf, toks) ∧
    sublist kept d ∧
    buf = kept ++ drop (length kept) d ∧
    Forall (λ t, 0 ≤ lo t ∧ hi t ≤ len kept) toks ∧
    Forall (λ t, sublist t kept) (strings (buf, toks)).
Proof.
  destruct (tokenize_refines d) as (toks & E & Hr & Hm).
  eexists _, toks, (Lex.out (Lex.run Lex.init d)).
  split; [exact E|]. split_and!.
  - rewrite lex_out_decode by apply lex_wf_init. simpl.
    apply decode_sublist.
  - done.
  - eapply Forall_impl; [exact Hr|]. simpl. lia.
  - unfold strings. simpl. apply Forall_map.
    eapply Forall_impl; [exact Hr|]. simpl. intros t [H1 H2].
    rewrite bytes_of_app by lia. unfold bytes_of.
    etrans; [apply sublist_take|apply sublist_drop].
Qed.

(** * More about lineReader.Read *)

Lemma cont_step_sublist (p : Cont.st) (c : byte) :
  sublist (Cont.out (Cont.step p c)) (Cont.out p ++ [c]).
Proof.
  unfold Cont.step. simpl. destruct (Cont.esc p && Byte.eqb c Ch.nl); [|done].
  etrans; [apply sublist_take|]. by apply sublist_inserts_r.
Qed.

Lemma cont_run_sublist (l : list byte) : ∀ p,
  sublist (Cont.out (Cont.run p l)) (Cont.out p ++ l).
Proof.
  induction l as [|c l IH]; intros p; simpl.
  { by rewrite app_nil_r. }
  etrans; [apply IH|]. rewrite (cons_middle c), app_assoc.
  apply sublist_app; [apply cont_step_sublist|done].
Qed.

(** A state of the filter that a second pass over its own output reaches
    again. *)
Lemma cont_stable_step (p : Cont.st) (c : byte) :
  Cont.run Cont.init (Cont.out p) = p →
  (Cont.esc p = true →
   ∃ o, Cont.out p = o ++ [Ch.backslash] ∧
        Cont.run Cont.init o = {| Cont.out := o; Cont.esc := false |}) →
  let p' := Cont.step p c in
  Cont.run Cont.init (Cont.out p') = p' ∧
  (Cont.esc p' = true →
   ∃ o, Cont.out p' = o ++ [Ch.backslash] ∧
        Cont.run Cont.init o = {| Cont.out := o; Cont.esc := false |}).
Proof.
  intros Hp He. destruct p as [o e]. simpl in *.
  unfold Cont.step. simpl.
  destruct e; simpl.
  - destruct (He eq_refl) as (o' & -> & Ho').
    destruct (Byte.eqb c Ch.nl) eqn:En; simpl.
    + rewrite length_app. simpl.
      replace (length o' + 1 - 1)%nat with (length o') by lia.
      rewrite take_app_length. by split.
    + rewrite cont_run_app, Hp. simpl. unfold Cont.step. simpl.
      rewrite En. by split.
  - rewrite cont_run_app, Hp. simpl. unfold Cont.step. simpl.
    split; [done|]. intros Eb. destruct (byte_eqb_spec c Ch.backslash) as [->|]; [|done].
    by exists o.
Qed.

Lemma cont_stable_run (l : list byte) : ∀ p,
  Cont.run Cont.init (Cont.out p) = p →
  (Cont.esc p = true →
   ∃ o, Cont.out p = o ++ [Ch.backslash] ∧
        Cont.run Cont.init o = {| Cont.out := o; Cont.esc := false |}) →
  Cont.run Cont.init (Cont.out (Cont.run p l)) = Cont.run p l.
Proof.
  induction l as [|c l IH]; intros p Hp He; [done|].
  simpl. destruct (cont_stable_step p c Hp He) as [Hp' He'].
  by apply IH.
Qed.

Lemma cont_out_strip (d : list byte) :
  Cont.out (Cont.run Cont.init d) = strip_continuations d.
Proof.
  remember (length d) as n eqn:Hn.
  revert d Hn. induction (lt_wf n) as [n _ IH]. intros d ->.
  assert (Hpre : ∀ o l, Cont.out (Cont.run {| Cont.out := o;
                                              Cont.esc := false |} l)
                        = o ++ Cont.out (Cont.run Cont.init l)).
  { intros o l. rewrite <- (app_nil_r o) at 1.
    by rewrite cont_run_prefix. }
  destruct d as [|c d']; [done|].
  destruct (decide (c = Ch.backslash)) as [->|Hc].
  - destruct d' as [|x d'']; [done|].
    destruct (decide (x = Ch.nl)) as [->|Hx].
    + change (Cont.run Cont.init (Ch.backslash :: Ch.nl :: d''))
        with (Cont.run Cont.init d'').
      change (strip_continuations (Ch.backslash :: Ch.nl :: d''))
        with (strip_continuations d'').
      apply (IH (length d'')); [simpl; lia|done].
    + cbn [strip_continuations]. rewrite byte_eqb_refl, (byte_eqb_ne _ _ Hx).
      change (Cont.run Cont.init (Ch.backslash :: x :: d''))
        with (Cont.run (Cont.step (Cont.step Cont.init Ch.backslash) x)
                d'').
      assert (E : Cont.step (Cont.step Cont.init Ch.backslash) x
                  = {| Cont.out := [Ch.backslash; x]; Cont.esc := false |}).
      { unfold Cont.step. simpl. by rewrite (byte_eqb_ne _ _ Hx). }
      rewrite E, Hpre. simpl. do 2 f_equal.
      apply (IH (length d'')); [simpl; lia|done].
  - cbn [strip_continuations]. rewrite (byte_eqb_ne _ _ Hc).
    change (Cont.run Cont.init (c :: d'))
      with (Cont.run (Cont.step Cont.init c) d').
    assert (E : Cont.step Cont.init c
                = {| Cont.out := [c]; Cont.esc := false |}).
    { unfold Cont.step. simpl. by rewrite (byte_eqb_ne _ _ Hc). }
    rewrite E, Hpre. simpl. f_equal.
    apply (IH (length d')); [simpl; lia|done].
Qed.

(** X6: what [lineReader.Read] returns. It never fails, and it returns
    what the source has read without the continuations: every backslash
    that a newline follows is left out with the newline, unless the
    backslash is itself escaped, and every other byte is kept. So the
    result is a subsequence of what was read, and a second pass over it
    changes nothing. *)
Theorem X6_Read_removes_escaped_newlines (d : list byte) :
  LineReader.Read d = Some (strip_continuations d) ∧
  sublist (strip_continuations d) d ∧
  LineReader.Read (strip_continuations d) = Some (strip_continuations d).
Proof.
  rewrite <- cont_out_strip. split; [apply Read_cont|]. split.
  - apply (cont_run_sublist d Cont.init).
  - rewrite Read_cont. f_equal.
    by rewrite (cont_stable_run d Cont.init).
Qed.

Example strip_continuations_example :
  strip_continuations (B "a\" ++ Ch.nl :: B "b\\" ++ Ch.nl :: B "c\")
  = B "ab\\" ++ Ch.nl :: B "c\".
Proof. reflexivity. Qed.

Lemma cont_run_closed (c1 c2 : list byte) :
  Cont.esc (Cont.run Cont.init c1) = false →
  Cont.run Cont.init (c1 ++ c2)
  = {| Cont.out := Cont.out (Cont.run Cont.init c1)
                   ++ Cont.out (Cont.run Cont.init c2);
       Cont.esc := Cont.esc (Cont.run Cont.init c2) |}.
Proof.
  intros He. rewrite cont_run_app.
  destruct (Cont.run Cont.init c1) as [o e] eqn:E. simpl in He. subst e.
  rewrite <- (app_nil_r o) at 1.
  by rewrite cont_run_prefix.
Qed.

(** X7: reading in two parts. When the loop of [Read] ends on the first
    part with no escape pending, reading the two parts one after the other
    gives what reading them at once gives. *)
Theorem X7_Read_in_two_parts (c1 c2 : list byte) (s : LineReader.state) :
  Read_at c1 (length c1) = Some s → LineReader.escaped s = false →
  ∃ r1 r2, LineReader.Read c1 = Some r1 ∧ LineReader.Read c2 = Some r2 ∧
           LineReader.Read (c1 ++ c2) = Some (r1 ++ r2).
Proof.
  intros E He. rewrite <- (app_nil_r c1) in E at 1.
  apply Read_at_inv in E. rewrite He in E.
  eexists _, _. rewrite !Read_cont. split_and!; try done.
  by rewrite cont_run_closed.
Qed.

Lemma X7_witness :
  ∃ r1 r2, LineReader.Read (B "a\\") = Some r1 ∧
           LineReader.Read (Ch.nl :: B "b\") = Some r2 ∧
           LineReader.Read (B "a\\" ++ Ch.nl :: B "b\") = Some (r1 ++ r2).
Proof.
  eapply (X7_Read_in_two_parts (B "a\\") (Ch.nl :: B "b\"));
    vm_compute; reflexivity.
Defined.

(** * scanLines and lineReader.Read on data that comes in parts *)

(** A token found before the end of the input is final: more data leaves
    it as it is. *)
Lemma scanLines_stable (d more : list byte) (atEOF : bool) (adv : Z)
    (tok : list byte) :
  scanLines d false = (adv, Some tok) →
  scanLines (d ++ more) atEOF = (adv, Some tok).
Proof.
  unfold scanLines at 1. simpl.
  destruct (scanLines_loop d 0 false Ch.nul) as [i|e q] eqn:El; [|done].
  intros [= <- <-].
  destruct (scanLines_loop_Return _ _ _ _ _ El) as (line & rest & e' & -> & -> & _).
  rewrite scanLines_nonempty by by destruct line.
  rewrite scanLines_loop_app, El. rewrite Z.add_0_l.
  unfold len. rewrite Nat2Z.id, <- !app_assoc.
  by rewrite !take_app_length.
Qed.

Lemma mapM_Read (source : list (list byte)) :
  mapM LineReader.Read source
  = Some (map (λ c, Cont.out (Cont.run Cont.init c)) source).
Proof.
  induction source as [|c source IH]; [done|].
  cbn [mapM]. by rewrite Read_cont, IH.
Qed.

(** X8: a line that [scanLines] finds is final. When [scanLines], called
    on data with more to come, returns a line, the advance is at least
    one byte and stays within the data, the line is made of the bytes
    before the last byte it advances over, less a final carriage return,
    and the call returns the same advance and the same line whatever data
    is put behind, and whether or not the input is then at its end. *)
Theorem X8_scanLines_line_is_final (d more : list byte) (atEOF : bool)
    (adv : Z) (tok : list byte) :
  scanLines d false = (adv, Some tok) →
  0 < adv ≤ len d ∧
  tok = dropCR (take (Z.to_nat (adv - 1)) d) ∧
  scanLines (d ++ more) atEOF = (adv, Some tok).
Proof.
  intros H. split; [by eapply scanLines_advance|]. split.
  - unfold scanLines in H. simpl in H.
    destruct (scanLines_loop d 0 false Ch.nul) as [i|e q]; [|done].
    injection H as <- <-. by replace (i + 1 - 1) with i by lia.
  - by apply scanLines_stable.
Qed.

Lemma X8_witness :
  0 < 3 ≤ len (B "a" ++ [Ch.cr; Ch.nl]) ∧
  B "a" = dropCR (take (Z.to_nat (3 - 1)) (B "a" ++ [Ch.cr; Ch.nl])) ∧
  scanLines ((B "a" ++ [Ch.cr; Ch.nl]) ++ B "'b") true = (3, Some (B "a")).
Proof.
  apply (X8_scanLines_line_is_final (B "a" ++ [Ch.cr; Ch.nl]) (B "'b") true
           3 (B "a")).
  reflexivity.
Defined.

Lemma cont_concat_closed (source : list (list byte)) :
  Forall ends_unescaped source →
  Cont.run Cont.init (concat source)
  = {| Cont.out :=
         concat (map (λ c, Cont.out (Cont.run Cont.init c)) source);
       Cont.esc := false |}.
Proof.
  induction 1 as [|c source (s & E & He) _ IH]; [done|].
  rewrite <- (app_nil_r c) in E at 1.
  apply Read_at_inv in E. rewrite He in E.
  simpl concat. rewrite cont_run_closed by done. by rewrite IH.
Qed.

(** X9: reading in several parts. When the loop of [Read] ends on every
    part with no escape pending, what the calls of [Read] on the parts
    return, put together, is what one call returns on the whole. *)
Theorem X9_Read_of_chunks (source : list (list byte)) :
  Forall ends_unescaped source →
  ∃ rs, mapM LineReader.Read source = Some rs ∧
        LineReader.Read (concat source) = Some (concat rs).
Proof.
  intros Hs. eexists. split; [apply mapM_Read|].
  by rewrite Read_cont, (cont_concat_closed source Hs).
Qed.

Lemma X9_witness :
  ∃ rs,
    mapM LineReader.Read [B "a \\"; B "n\" ++ Ch.nl :: B "'c"; Ch.nl :: B "d'"]
    = Some rs ∧
    LineReader.Read
      (concat [B "a \\"; B "n\" ++ Ch.nl :: B "'c"; Ch.nl :: B "d'"])
    = Some (concat rs).
Proof.
  apply X9_Read_of_chunks.
  repeat (apply Forall_cons; split;
          [eexists; (split; [vm_compute; reflexivity|done])|]).
  apply Forall_nil_2.
Defined.

(** * scanLines and tokenize agree on quotes *)

(** The loop of [scanLines], as long as it does not return, keeps the
    escape flag and the quote of [tokenize]. *)
Lemma scanLines_loop_lex (line : list byte) : ∀ (a : Lex.st) (i : Z) e' q',
  scanLines_loop line i (Lex.esc a) (Lex.q a) = Fallthrough e' q' →
  Lex.esc (Lex.run a line) = e' ∧ Lex.q (Lex.run a line) = q'.
Proof.
  induction line as [|c line IH]; intros a i e' q' H.
  { simpl in H. by injection H as <- <-. }
  cbn [scanLines_loop] in H. simpl.
  apply (IH (Lex.step a c) (i + 1)).
  rewrite lex_step_esc, lex_step_q.
  destruct (Byte.eqb (Lex.q a) Ch.nul).
  - destruct (Byte.eqb c Ch.nl); [done|].
    by destruct (Lex.esc a).
  - by destruct (Lex.esc a).
Qed.

Lemma lex_q_before_cr (a : Lex.st) :
  lex_wf a → Lex.q (Lex.step a Ch.cr) = Ch.nul → Lex.q a = Ch.nul.
Proof.
  intros [_ _ _ Hm]. rewrite lex_step_q.
  destruct (Lex.esc a); [done|].
  destruct (byte_eqb_spec (Lex.q a) Ch.nul) as [|Hn]; [done|].
  destruct Hm as [|Hm]; [done|].
  destruct (byte_eqb_spec Ch.cr (Lex.q a)) as [E|]; [|done].
  by rewrite <- E in Hm.
Qed.

(** X10: a line that [scanLines] returns before the end of the input is
    one on which the loop of [tokenize] ends with no quotation open: the
    two functions agree on where a quoted region ends. *)
Theorem X10_scanned_line_has_closed_quotes (d : list byte) (adv : Z)
    (tok : list byte) :
  scanLines d false = (adv, Some tok) →
  ∃ s, tokenize_at tok (length tok) = Some s ∧ quote s = Ch.nul.
Proof.
  unfold scanLines. simpl.
  destruct (scanLines_loop d 0 false Ch.nul) as [i|e q] eqn:El; [|done].
  intros [= <- <-].
  destruct (scanLines_loop_Return _ _ _ _ _ El)
    as (line & rest & e' & -> & -> & Hl).
  rewrite Z.add_0_l. unfold len. rewrite Nat2Z.id, take_app_length.
  apply (scanLines_loop_lex line Lex.init) in Hl as [_ Hq].
  assert (Hq' : Lex.q (Lex.run Lex.init (dropCR line)) = Ch.nul).
  { destruct (dropCR_spec line) as [E|[E _]]; [|by rewrite E].
    rewrite E, lex_run_app in Hq. simpl in Hq.
    apply lex_q_before_cr in Hq; [done|].
    apply lex_wf_run, lex_wf_init. }
  destruct (tokenize_at_refines (dropCR line) []) as (s & E & R).
  rewrite app_nil_r in E. exists s. split; [done|].
  destruct R as [_ _ _ _ _ _ _ Rq]. congruence.
Qed.

Lemma X10_witness :
  ∃ s, tokenize_at (B "a 'b" ++ Ch.nl :: B "c' d")
         (length (B "a 'b" ++ Ch.nl :: B "c' d")) = Some s ∧
       quote s = Ch.nul.
Proof.
  apply (X10_scanned_line_has_closed_quotes
           (B "a 'b" ++ Ch.nl :: B "c' d" ++ Ch.cr :: Ch.nl :: B "e") 11).
  vm_compute. reflexivity.
Defined.

(** * Parsers, apply, mapLines and Main *)

Section ArgsFacts.

Context {F O Err : Type}.

Lemma apply_loop_spec (cfg : Args.config F O Err) (args : list (list byte)) :
  ∀ (i : nat) (rs : list (Args.value F O * option Err)) (done : list (Args.value F O))
    (success : bool),
  length rs = length args → length done = i →
  (∀ k arg r, args !! k = Some arg → rs !! k = Some r →
     ∃ f, Args.parsers cfg !! (if Args.repeat cfg then 0%nat else (i + k)%nat)
          = Some (Some f) ∧ f arg = Some r) →
  Args.apply_loop cfg i args (done ++ replicate (length args) Args.VNil)
    success
  = (Args.errors args rs,
     Args.Ret (done ++ rs.*1, success && Args.all_parsed rs)).
Proof.
  induction args as [|arg args IH]; intros i rs done success Hl Hd Hp.
  { destruct rs; [|done]. simpl. by rewrite app_nil_r, andb_true_r. }
  destruct rs as [|[v err] rs]; [done|]. simpl in Hl.
  destruct (Hp 0%nat arg (v, err) eq_refl eq_refl) as (f & Hf & Hr).
  assert (H0 : ∃ p0, Args.parsers cfg !! 0%nat = Some p0).
  { apply lookup_lt_is_Some. apply lookup_lt_Some in Hf.
    destruct (Args.repeat cfg); (eapply Nat.le_lt_trans; [|exact Hf]); lia. }
  destruct H0 as [p0 H0].
  cbn [Args.apply_loop]. unfold Args.at_index at 1. rewrite H0.
  cbn [Args.bind Args.ret app].
  assert (Hcall :
    (if negb (Args.repeat cfg)
     then Args.at_index (Args.parsers cfg) i else Args.ret p0)
    = (Args.ret (Some f)
       : Args.M F O Err (Args.Parser F O Err))).
  { destruct (Args.repeat cfg); simpl.
    - pose proof (eq_trans (eq_sym H0) Hf) as E. by injection E as ->.
    - unfold Args.at_index. rewrite Nat.add_0_r in Hf.
      unfold Args.Parser, Args.Func in *. by rewrite Hf. }
  rewrite Hcall. cbn [Args.bind Args.ret app Args.call]. rewrite Hr.
  cbn [Args.bind Args.ret app].
  unfold Args.set_index. rewrite bool_decide_eq_true_2.
  2:{ rewrite length_app. simpl. lia. }
  cbn [Args.bind Args.ret app].
  rewrite insert_app_r_alt by lia.
  replace (i - length done)%nat with 0%nat by lia. simpl insert.
  rewrite (cons_middle v), app_assoc.
  specialize (IH (S i) rs (done ++ [v])).
  assert (Hp' : ∀ k arg0 r, args !! k = Some arg0 → rs !! k = Some r →
     ∃ f0, Args.parsers cfg
             !! (if Args.repeat cfg then 0%nat else (S i + k)%nat)
           = Some (Some f0) ∧ f0 arg0 = Some r).
  { intros k a r Ha Hk. destruct (Hp (S k) a r Ha Hk) as (f0 & E & ?).
    exists f0. split; [|done].
    by replace (S i + k)%nat with (i + S k)%nat by lia. }
  destruct err as [e|]; simpl.
  - rewrite IH; [|lia|rewrite length_app; simpl; lia|done].
    unfold Args.errors. simpl. by rewrite <- app_assoc, andb_false_r.
  - rewrite IH; [|lia|rewrite length_app; simpl; lia|done].
    unfold Args.errors. simpl. by rewrite <- app_assoc.
Qed.

(** X11: what [apply] does. When the parser of each argument, which is
    [parsers[0]] if [repeat] is set and [parsers[i]] otherwise, is a
    function and returns, [apply] logs one message for each argument with
    an error, in their order, and then calls [fn] exactly when there was
    none, with one value for each argument; it returns whether it has
    called [fn]. *)
Theorem X11_apply_calls_fn_iff_all_parse (cfg : Args.config F O Err)
    (args : list (list byte)) (rs : list (Args.value F O * option Err)) :
  length rs = length args →
  (∀ i arg r, args !! i = Some arg → rs !! i = Some r →
     ∃ f, Args.parsers cfg !! (if Args.repeat cfg then 0%nat else i)
          = Some (Some f) ∧ f arg = Some r) →
  Args.apply cfg args
  = (Args.errors args rs
       ++ (if Args.all_parsed rs then [Args.Call rs.*1] else []),
     Args.Ret (Args.all_parsed rs)).
Proof.
  intros Hl Hp. unfold Args.apply.
  pose proof (apply_loop_spec cfg args 0 rs [] true Hl eq_refl Hp) as E.
  rewrite app_nil_l in E. rewrite E.
  simpl. by destruct (Args.all_parsed rs).
Qed.

(** X12: with the initial values of [parsers] and [repeat], before any
    call of [SetEveryParser] or [SetParsers], [apply] panics on every list
    of at least one argument, for it calls the nil parser; so do [Main] on
    every command line that it hands to [apply], and the loop of
    [mapLines] on every line with a token. *)
Theorem X12_initial_configuration_panics :
  (∀ (arg : list byte) (args : list (list byte)),
     Args.apply (F := F) (O := O) (Err := Err) Args.initial (arg :: args)
     = ([], Args.Panicked)) ∧
  (∀ (arg : list byte) (args : list (list byte)) (stdin : Args.scanned Err),
     (args = [] → arg ≠ B "-h" ∧ arg ≠ B "--help" ∧ arg ≠ B "-") →
     Args.Main (F := F) (O := O) (Err := Err) Args.initial (arg :: args)
       true stdin
     = ([], Args.Panicked)) ∧
  (∀ (line : list byte) (success : bool) (s : tstate),
     tokenize_at line (length line) = Some s →
     (tokens s ≠ [] ∨ start s ≠ -1) →
     Args.mapLines_body (F := F) (O := O) (Err := Err) Args.initial line
       success
     = ([], Args.Panicked)).
Proof.
  split; [done|]. split.
  - intros arg args stdin Hn. unfold Args.Main.
    destruct args as [|arg' args].
    + destruct (Hn eq_refl) as (H1 & H2 & H3). simpl.
      rewrite !bool_decide_eq_false_2 by congruence. done.
    + done.
  - intros line success s Hs Htok. unfold Args.mapLines_body.
    unfold tokenize_strings, tokenize. unfold tokenize_at in Hs.
    rewrite Hs. cbn [mbind option_bind].
    unfold tokenize_finish.
    destruct (start s =? -1) eqn:Est; cbn [negb].
    + apply Z.eqb_eq in Est. destruct Htok as [Htok|]; [|done].
      simpl. by destruct (tokens s).
    + destruct (subslice _ _ _) as [t|]; [|done]. simpl.
      by destruct (tokens s).
Qed.

(** X13: a parser made by [Restrict] returns a value without an error
    only when the parser it restricts has returned that value without an
    error and the predicate has accepted it; with an error it returns nil
    for the value. *)
Theorem X13_Restrict_sound (p : Args.Parser F O Err)
    (pred : Args.Func (Args.value F O) (option Err)) (s : list byte)
    (x : Args.value F O) (err : option Err) :
  Args.call (F := F) (O := O) (Err := Err) (Args.Restrict p pred) s
  = ([], Args.Ret (x, err)) →
  match err with
  | None =>
      Args.call (F := F) (O := O) (Err := Err) p s
      = ([], Args.Ret (x, None)) ∧
      Args.call (F := F) (O := O) (Err := Err) pred x = ([], Args.Ret None)
  | Some _ => x = Args.VNil
  end.
Proof.
  unfold Args.Restrict. cbn [Args.call].
  destruct p as [f|]; [|done]. cbn [Args.call].
  destruct (f s) as [[y [e|]]|]; [| |done].
  - simpl. intros [= <- <-]. done.
  - cbn [Args.bind Args.ret].
    destruct pred as [g|]; [|done]. cbn [Args.call].
    destruct (g y) as [[e|]|] eqn:Eg; [| |done]; simpl; intros [= <- <-];
      [done|].
    split; [done|]. by rewrite Eg.
Qed.

(** X14: restricting twice is restricting by the two predicates one after
    the other: the two parsers behave alike on every string. *)
Theorem X14_Restrict_twice (p : Args.Parser F O Err)
    (f g : Args.value F O → option (option Err)) (s : list byte) :
  Args.call (F := F) (O := O) (Err := Err)
    (Args.Restrict (Args.Restrict p (Some f)) (Some g)) s
  = Args.call (F := F) (O := O) (Err := Err)
      (Args.Restrict p (Args.pred_then f g)) s.
Proof.
  unfold Args.Restrict, Args.pred_then. cbn [Args.call].
  destruct p as [h|]; [|done]. cbn [Args.call].
  destruct (h s) as [[y [e|]]|]; [done| |done].
  cbn [Args.bind Args.ret Args.call Args.run_pure].
  destruct (f y) as [[e|]|]; [done| |done].
  cbn [Args.bind Args.ret Args.call Args.run_pure].
  by destruct (g y) as [[e|]|].
Qed.

Lemma AssertInts_loop_spec (ns : list Z) : ∀ (i : nat) (done : list Z),
  length done = i →
  Args.AssertInts_loop (F := F) (O := O) i (map Args.VInt ns)
    (done ++ replicate (length ns) 0)
  = Some (done ++ ns).
Proof.
  induction ns as [|n ns IH]; intros i done Hd; simpl.
  { by rewrite app_nil_r. }
  rewrite bool_decide_eq_true_2 by (rewrite length_app; simpl; lia).
  rewrite insert_app_r_alt by lia.
  replace (i - length done)%nat with 0%nat by lia. simpl.
  rewrite (cons_middle n done ns), (cons_middle n done), !app_assoc.
  apply IH. rewrite length_app. simpl. lia.
Qed.

Lemma errors_are_logs (args : list (list byte))
    (rs : list (Args.value F O * option Err)) (vs : list (Args.value F O)) :
  Args.Call vs ∉ Args.errors args rs.
Proof.
  unfold Args.errors. intros H.
  apply list_elem_of_omap in H as ([a [v [e|]]] & _ & H); simpl in H; done.
Qed.

(** X15: the types that [fn] receives. With [SetEveryParser(Int)],
    [apply] does not panic, and whenever it calls [fn], the type
    assertions of [AssertInts] succeed on what [fn] receives, and give the
    integers that [strconv.ParseInt] has returned for the arguments. *)
Theorem X15_Int_arguments_assert (ParseInt : list byte → Z + Err)
    (args : list (list byte)) :
  ∃ t ok,
    Args.apply (F := F) (O := O)
      (Args.SetEveryParser (Args.Int ParseInt)) args = (t, Args.Ret ok) ∧
    ∀ vs, Args.Call vs ∈ t →
      ∃ ns, Args.AssertInts vs = Some ns ∧
            Forall2 (λ a n, ParseInt a = inl n) args ns.
Proof.
  set (res := λ a : list byte,
        match ParseInt a with
        | inl n => (Args.VInt (F := F) (O := O) n, None)
        | inr e => (Args.VNil, Some e)
        end).
  pose proof (apply_loop_spec
                (Args.SetEveryParser (Args.Int ParseInt)) args 0
                (map res args) [] true) as E.
  rewrite app_nil_l in E.
  unfold Args.apply. rewrite E; clear E.
  2:{ by rewrite length_map. }
  2:{ done. }
  2:{ intros k a r Ha Hr. simpl. eexists. split; [done|].
      rewrite list_lookup_fmap, Ha in Hr. simpl in Hr.
      injection Hr as <-. unfold res. by destruct (ParseInt a). }
  cbn [andb app]. destruct (Args.all_parsed (map res args)) eqn:Eok.
  - eexists _, _. split; [done|]. intros vs Hin.
    rewrite app_nil_r in Hin. apply elem_of_app in Hin as [Hin|Hin].
    { by apply errors_are_logs in Hin. }
    apply list_elem_of_singleton in Hin as [= ->].
    assert (Hns : ∃ ns, (map res args).*1 = map Args.VInt ns ∧
                        Forall2 (λ a n, ParseInt a = inl n) args ns).
    { clear -Eok. induction args as [|a args IH].
      { by exists []. }
      simpl in Eok. apply andb_true_iff in Eok as [Ha Hrest].
      destruct (IH Hrest) as (ns & E & Hall).
      assert (Hn : ∃ n, ParseInt a = inl n ∧ res a = (Args.VInt n, None)).
      { unfold res in Ha |- *. destruct (ParseInt a) as [n|e]; [|done].
        by exists n. }
      destruct Hn as (n & Ep & Er).
      exists (n :: ns). split; [|by constructor].
      cbn [map fmap list_fmap]. rewrite Er. simpl. f_equal. exact E. }
    destruct Hns as (ns & -> & Hall). exists ns. split; [|done].
    unfold Args.AssertInts. rewrite length_map.
    apply (AssertInts_loop_spec ns 0 []). done.
  - eexists _, _. split; [done|]. intros vs Hin.
    rewrite !app_nil_r in Hin. by apply errors_are_logs in Hin.
Qed.

Lemma results_every (f : list byte → option (Args.value F O * option Err))
    (args : list (list byte)) :
  (∀ s, f s ≠ None) →
  ∃ rs, length rs = length args ∧
        ∀ k arg r, args !! k = Some arg → rs !! k = Some r → f arg = Some r.
Proof.
  intros Hf. induction args as [|a args (rs & Hl & Hr)].
  { by exists []. }
  destruct (f a) as [r0|] eqn:E; [|by destruct (Hf a)].
  exists (r0 :: rs). split; [simpl; lia|].
  intros [|k] arg r Ha Hk; simpl in *; simplify_eq; eauto.
Qed.

Lemma results_each (ps : list (Args.Parser F O Err)) :
  Forall Args.total ps → ∀ args : list (list byte),
  (length args ≤ length ps)%nat →
  ∃ rs : list (Args.value F O * option Err),
    length rs = length args ∧
    ∀ k arg r, args !! k = Some arg → rs !! k = Some r →
      ∃ f, ps !! k = Some (Some f) ∧ f arg = Some r.
Proof.
  induction 1 as [|p ps (f & -> & Hf) _ IH]; intros args Hl.
  { destruct args; [|simpl in Hl; lia]. by exists []. }
  destruct args as [|a args]; [by exists []|].
  destruct (IH args) as (rs & Hlen & Hr); [simpl in Hl; lia|].
  destruct (f a) as [r0|] eqn:E; [|by destruct (Hf a)].
  exists (r0 :: rs). split; [simpl; lia|].
  intros [|k] arg r Ha Hk; simpl in *; simplify_eq; eauto.
Qed.

(** [apply] under a configuration that the setters have made. *)
Lemma apply_ready (cfg : Args.config F O Err) (args : list (list byte)) :
  Args.ready cfg →
  (Args.repeat cfg = false →
   (length args ≤ length (Args.parsers cfg))%nat) →
  ∃ rs, length rs = length args ∧
    Args.apply cfg args
    = (Args.errors args rs
         ++ (if Args.all_parsed rs then [Args.Call rs.*1] else []),
       Args.Ret (Args.all_parsed rs)).
Proof.
  intros Hc Hl.
  assert (∃ rs : list (Args.value F O * option Err),
            length rs = length args ∧
            ∀ i arg r, args !! i = Some arg → rs !! i = Some r →
              ∃ f, Args.parsers cfg
                     !! (if Args.repeat cfg then 0%nat else i)
                   = Some (Some f) ∧ f arg = Some r) as (rs & Hlen & Hp).
  { destruct Hc as [p (f & -> & Hf)|ps Hps].
    - destruct (results_every f args Hf) as (rs & Hlen & Hr).
      exists rs. split; [done|].
      intros i arg r Ha Hi. exists f. split; [done|]. eauto.
    - destruct (results_each ps Hps args (Hl eq_refl)) as (rs & Hlen & Hr).
      exists rs. split; [done|]. intros i arg r Ha Hi. simpl. eauto. }
  exists rs. split; [done|]. unfold Args.apply.
  pose proof (apply_loop_spec cfg args 0 rs [] true Hlen eq_refl Hp) as E.
  rewrite app_nil_l in E. rewrite E.
  simpl. by destruct (Args.all_parsed rs).
Qed.

Lemma errors_logged (args : list (list byte)) :
  ∀ rs : list (Args.value F O * option Err),
  length rs = length args →
  existsb Args.logged (Args.errors args rs) = negb (Args.all_parsed rs).
Proof.
  induction args as [|a args IH]; intros [|[v [e|]] rs] Hl; try done.
  - unfold Args.errors, Args.all_parsed. simpl.
    apply IH. simpl in Hl. lia.
Qed.

Lemma apply_ready_trace (cfg : Args.config F O Err)
    (args : list (list byte)) :
  Args.ready cfg →
  (Args.repeat cfg = false → length args = length (Args.parsers cfg)) →
  ∃ t, Args.apply cfg args = (t, Args.Ret (negb (existsb Args.logged t))) ∧
       Forall (Args.call_ok cfg) t ∧
       (args = [] → t = [Args.Call []]).
Proof.
  intros Hc Hl.
  destruct (apply_ready cfg args Hc) as (rs & Hlen & E).
  { intros Hr. rewrite (Hl Hr). lia. }
  eexists. split; [|split].
  - rewrite E. f_equal. f_equal.
    rewrite existsb_app, errors_logged by done.
    by destruct (Args.all_parsed rs).
  - apply Forall_app. split.
    + apply Forall_forall. intros e He vs -> _.
      by apply errors_are_logs in He.
    + destruct (Args.all_parsed rs); [|done].
      apply Forall_singleton. intros vs [= <-] Hr.
      by rewrite length_fmap, Hlen, Hl.
  - intros ->. by destruct rs.
Qed.

Lemma lex_blank (line : list byte) :
  forallb isSpace line = true → Lex.lex line = [].
Proof.
  intros Hs. rewrite lex_fields.
  - by apply fields_from_space.
  - clear -Hs. induction line as [|c line IH]; [done|].
    simpl in *. apply andb_true_iff in Hs as [Hc Hs].
    rewrite IH by done. destruct (isSpace_plain c Hc) as [Hq Hb].
    unfold plain. by rewrite Hq, Hb.
Qed.

(** The trace of a computation that continues. *)
Lemma bind_trace {A B : Type} (m : Args.M F O Err A)
    (f : A → Args.M F O Err B) :
  (Args.bind m f).1
  = m.1 ++ match m.2 with Args.Ret a => (f a).1 | _ => [] end.
Proof.
  destruct m as [t [a| |c]]; simpl; [by destruct (f a)|by rewrite app_nil_r..].
Qed.

Lemma bind_ret_l {A B : Type} (a : A) (f : A → Args.M F O Err B) :
  Args.bind (Args.ret a) f = f a.
Proof. unfold Args.bind, Args.ret. by destruct (f a). Qed.

Lemma bind_Ret {A B : Type} (m : Args.M F O Err A)
    (f : A → Args.M F O Err B) (b : B) :
  (Args.bind m f).2 = Args.Ret b →
  ∃ a, m.2 = Args.Ret a ∧ (f a).2 = Args.Ret b.
Proof.
  destruct m as [t [a| |c]]; simpl; [|done..].
  destruct (f a) as [t' o] eqn:E. simpl. intros ->. exists a. by rewrite E.
Qed.

Lemma Forall_bind {A B : Type} (P : Args.event F O Err → Prop)
    (m : Args.M F O Err A) (f : A → Args.M F O Err B) :
  Forall P m.1 → (∀ a, m.2 = Args.Ret a → Forall P (f a).1) →
  Forall P (Args.bind m f).1.
Proof.
  intros Hm Hf. rewrite bind_trace. apply Forall_app. split; [done|].
  destruct m.2 as [a| |c] eqn:E; [by apply Hf|done..].
Qed.

(** The loop of [apply] calls nothing but the parsers, and keeps the
    length of [parsed], whatever the parsers do. *)
Lemma apply_loop_calls (cfg : Args.config F O Err)
    (args : list (list byte)) : ∀ i parsed success,
  Forall (λ e, ∀ vs, e ≠ Args.Call vs)
    (Args.apply_loop cfg i args parsed success).1 ∧
  ∀ r, (Args.apply_loop cfg i args parsed success).2 = Args.Ret r →
       length r.1 = length parsed.
Proof.
  induction args as [|arg args IH]; intros i parsed success.
  { simpl. split; [done|]. by intros r [= <-]. }
  cbn [Args.apply_loop]. unfold Args.at_index.
  destruct (Args.parsers cfg !! 0%nat) as [p0|]; [|by split].
  rewrite bind_ret_l.
  set (m := if negb (Args.repeat cfg) then _ else _).
  assert (Hm : m.1 = []).
  { unfold m. destruct (negb (Args.repeat cfg)); [|done].
    by destruct (Args.parsers cfg !! i). }
  split.
  - apply Forall_bind; [by rewrite Hm|]. intros p _.
    apply Forall_bind.
    { unfold Args.call. destruct p as [g|]; [|done]. by destruct (g arg). }
    intros [v err] _. apply Forall_bind.
    { unfold Args.set_index. by destruct (bool_decide _). }
    intros parsed1 _. apply Forall_bind.
    { destruct err; [|done]. simpl. by apply Forall_singleton. }
    intros success1 _. apply IH.
  - intros r Hr.
    apply bind_Ret in Hr as (p & _ & Hr).
    apply bind_Ret in Hr as ([v err] & _ & Hr).
    apply bind_Ret in Hr as (parsed1 & Hset & Hr).
    apply bind_Ret in Hr as (success1 & _ & Hr).
    apply IH in Hr. rewrite Hr.
    unfold Args.set_index in Hset.
    destruct (bool_decide _); [|done].
    injection Hset as <-. by rewrite length_insert.
Qed.

(** Every call of [fn] that [apply] makes passes as many values as there
    are arguments. *)
Lemma apply_calls (cfg : Args.config F O Err) (args : list (list byte)) :
  Forall (λ e, ∀ vs, e = Args.Call vs → length vs = length args)
    (Args.apply cfg args).1.
Proof.
  unfold Args.apply.
  destruct (apply_loop_calls cfg args 0
              (replicate (length args) Args.VNil) true) as [Ht Hr].
  apply Forall_bind.
  { eapply Forall_impl; [exact Ht|]. intros e He vs ->. by destruct (He vs). }
  intros [parsed success] E. specialize (Hr _ E). simpl in Hr.
  rewrite length_replicate in Hr.
  destruct success; [|done]. simpl. apply Forall_singleton.
  by intros vs [= <-].
Qed.

Lemma mapLines_body_calls (cfg : Args.config F O Err) (line : list byte)
    (success : bool) :
  Forall (Args.call_ok cfg) (Args.mapLines_body cfg line success).1.
Proof.
  unfold Args.mapLines_body. rewrite tokenize_strings_lex.
  destruct (negb (Args.repeat cfg)) eqn:Er; simpl.
  - destruct (bool_decide (length (Lex.lex line)
                           < length (Args.parsers cfg))%nat) eqn:E1.
    { simpl. apply Forall_singleton. by intros vs. }
    destruct (bool_decide (length (Args.parsers cfg)
                           < length (Lex.lex line))%nat) eqn:E2.
    { simpl. apply Forall_singleton. by intros vs. }
    apply bool_decide_eq_false in E1, E2.
    apply Forall_bind; [|done].
    eapply Forall_impl; [apply apply_calls|].
    intros e He vs Hv _. rewrite (He vs Hv). lia.
  - apply Forall_bind; [|done].
    eapply Forall_impl; [apply apply_calls|].
    intros e He vs Hv Hr. apply negb_false_iff in Er. congruence.
Qed.

Lemma mapLines_calls (cfg : Args.config F O Err)
    (stdin : Args.scanned Err) :
  Forall (Args.call_ok cfg) (Args.mapLines cfg stdin).1.
Proof.
  unfold Args.mapLines. apply Forall_bind.
  - generalize true. induction stdin.1 as [|line lines IH]; intros success;
      [done|].
    cbn [Args.mapLines_loop]. apply Forall_bind; [|by intros].
    apply mapLines_body_calls.
  - intros success _. apply Forall_bind.
    + destruct stdin.2; [|done]. simpl. apply Forall_singleton.
      by intros vs.
    + intros success1 _. by destruct success1.
Qed.

(** Every call of [fn] that [Main] makes is one that the configuration
    allows. *)
Lemma Main_calls (cfg : Args.config F O Err) (args : list (list byte))
    (isTerminal : bool) (stdin : Args.scanned Err) :
  Forall (Args.call_ok cfg) (Args.Main cfg args isTerminal stdin).1.
Proof.
  unfold Args.Main.
  destruct (_ && (_ || _)).
  { simpl. apply Forall_singleton. by intros vs. }
  destruct (bool_decide (length args = 1%nat)
            && bool_decide (args !! 0%nat = Some (B "-"))).
  { apply Forall_bind; [|intros; apply mapLines_calls].
    simpl. apply Forall_singleton. by intros vs. }
  destruct (bool_decide (length args = 0%nat) && negb isTerminal).
  { apply mapLines_calls. }
  destruct (Args.repeat cfg && bool_decide (0 < length args)%nat
            || negb (Args.repeat cfg)
               && bool_decide (length args = length (Args.parsers cfg)))
    eqn:Ed.
  - apply Forall_bind; [|intros ok _; by destruct ok].
    eapply Forall_impl; [apply apply_calls|].
    intros e He vs Hv Hr. rewrite Hr in Ed. simpl in Ed.
    apply bool_decide_eq_true in Ed. rewrite (He vs Hv). done.
  - simpl. repeat (apply Forall_cons; split; [by intros vs|]). done.
Qed.

Lemma mapLines_body_ready (cfg : Args.config F O Err) (line : list byte)
    (success : bool) :
  Args.ready cfg →
  ∃ t, Args.mapLines_body cfg line success
       = (t, Args.Ret (success && negb (existsb Args.logged t))) ∧
       Forall (Args.call_ok cfg) t ∧
       (Args.repeat cfg = true → forallb isSpace line = true →
        t = [Args.Call []]).
Proof.
  intros Hc. unfold Args.mapLines_body. rewrite tokenize_strings_lex.
  destruct (Args.repeat cfg) eqn:Er; simpl.
  - destruct (apply_ready_trace cfg (Lex.lex line) Hc) as (t & E & Hok & Hb).
    { by rewrite Er. }
    exists t. rewrite E. simpl. rewrite app_nil_r. split; [|split].
    + by destruct (existsb Args.logged t), success.
    + done.
    + intros _ Hs. apply Hb. by apply lex_blank.
  - destruct (bool_decide (length (Lex.lex line)
                           < length (Args.parsers cfg))%nat) eqn:E1; simpl.
    { exists [Args.Log Args.TooFew]. simpl.
      split; [by rewrite andb_false_r|]. split; [|done].
      apply Forall_singleton. by intros vs. }
    destruct (bool_decide (length (Args.parsers cfg)
                           < length (Lex.lex line))%nat) eqn:E2; simpl.
    { exists [Args.Log Args.TooMany]. simpl.
      split; [by rewrite andb_false_r|]. split; [|done].
      apply Forall_singleton. by intros vs. }
    apply bool_decide_eq_false in E1, E2.
    destruct (apply_ready_trace cfg (Lex.lex line) Hc) as (t & E & Hok & _).
    { intros _. lia. }
    exists t. rewrite E. simpl. rewrite app_nil_r. split; [|split].
    + by destruct (existsb Args.logged t), success.
    + done.
    + done.
Qed.

Lemma mapLines_loop_ready (cfg : Args.config F O Err) :
  Args.ready cfg → ∀ (lines : list (list byte)) (success : bool),
  ∃ t, Args.mapLines_loop cfg lines success
       = (t, Args.Ret (success && negb (existsb Args.logged t))) ∧
       Forall (Args.call_ok cfg) t ∧
       (Args.repeat cfg = true →
        Exists (λ line, forallb isSpace line = true) lines →
        Args.Call [] ∈ t).
Proof.
  intros Hc. induction lines as [|line lines IH]; intros success.
  { exists []. simpl. rewrite andb_true_r. split; [done|]. split; [done|].
    intros _ H. by apply Exists_nil in H. }
  cbn [Args.mapLines_loop].
  destruct (mapLines_body_ready cfg line success Hc) as (t1 & E1 & H1 & B1).
  rewrite E1. cbn [Args.bind].
  destruct (IH (success && negb (existsb Args.logged t1)))
    as (t2 & E2 & H2 & B2).
  rewrite E2. exists (t1 ++ t2). split; [|split].
  - f_equal. f_equal. rewrite existsb_app.
    by destruct success, (existsb Args.logged t1), (existsb Args.logged t2).
  - by apply Forall_app.
  - intros Hr Hex. apply elem_of_app.
    apply Exists_cons in Hex as [Hs|Hex].
    + left. rewrite (B1 Hr Hs). by apply list_elem_of_singleton.
    + right. by apply B2.
Qed.

Lemma mapLines_ready (cfg : Args.config F O Err)
    (stdin : Args.scanned Err) :
  Args.ready cfg →
  ∃ t,
    Args.mapLines cfg stdin
    = (t, if existsb Args.logged t then Args.Exited 1 else Args.Ret tt) ∧
    (∀ line, line ∈ stdin.1 →
       Args.repeat cfg = true → forallb isSpace line = true →
       Args.Call [] ∈ t) ∧
    (∀ err, stdin.2 = Some err → Args.Log (Args.ScanError err) ∈ t).
Proof.
  intros Hc. unfold Args.mapLines. destruct stdin as [lines err]. simpl.
  destruct (mapLines_loop_ready cfg Hc lines true) as (t & E & _ & Hb).
  rewrite E. cbn [Args.bind]. simpl andb.
  destruct err as [err|].
  - exists (t ++ [Args.Log (Args.ScanError err)]). split; [|split].
    + simpl. rewrite existsb_app. simpl. by rewrite orb_true_r.
    + intros line Hin Hr Hs. apply elem_of_app. left. apply Hb; [done|].
      apply Exists_exists. eauto.
    + intros e [= <-]. apply elem_of_app. right.
      by apply list_elem_of_singleton.
  - exists t. split; [|split; [|done]].
    + simpl. destruct (existsb Args.logged t); simpl; by rewrite app_nil_r.
    + intros line Hin Hr Hs. apply Hb; [done|].
      apply Exists_exists. eauto.
Qed.

(** X16: the exit status of [Main]. Under a configuration that
    [SetEveryParser] or [SetParsers] has made from parsers that are
    functions and return, and whatever the scanner does on the standard
    input, [Main] does not panic, and it exits with status 1 exactly when
    it has written an error to the log; otherwise it returns.  An error
    of the scanner is such an error: on the argument [-], [Main] writes
    it to the log. *)
Theorem X16_Main_exits_iff_logged (cfg : Args.config F O Err)
    (args : list (list byte)) (isTerminal : bool)
    (stdin : Args.scanned Err) :
  Args.ready cfg →
  ∃ t, Args.Main cfg args isTerminal stdin
       = (t, if existsb Args.logged t then Args.Exited 1 else Args.Ret tt) ∧
       (∀ err, args = [B "-"] → stdin.2 = Some err →
               Args.Log (Args.ScanError err) ∈ t).
Proof.
  intros Hc.
  assert (∃ t, Args.Main cfg args isTerminal stdin
               = (t, if existsb Args.logged t then Args.Exited 1
                     else Args.Ret tt) ∧
               (∀ err, args = [B "-"] → stdin.2 = Some err →
                       Args.Log (Args.ScanError err) ∈ t)) as [t E];
    [|by exists t].
  unfold Args.Main.
  {
    destruct (mapLines_ready cfg stdin Hc) as (tm & Em & _ & Herr).
    destruct (bool_decide (length args = 1%nat)
              && (bool_decide (args !! 0%nat = Some (B "-h"))
                  || bool_decide (args !! 0%nat = Some (B "--help"))))
      eqn:Eh.
    { exists [Args.PrintUsage]. split; [done|].
      intros err -> _. by vm_compute in Eh. }
    destruct (bool_decide (length args = 1%nat)
              && bool_decide (args !! 0%nat = Some (B "-"))) eqn:E1.
    { rewrite Em. exists (Args.SetPrefix (B "error: ") :: tm). split.
      - simpl. by destruct (existsb Args.logged tm).
      - intros err _ He. apply list_elem_of_further. by apply Herr. }
    destruct (bool_decide (length args = 0%nat) && negb isTerminal) eqn:E0.
    { exists tm. split; [done|]. intros err -> _. by vm_compute in E1. }
    destruct (Args.repeat cfg && bool_decide (0 < length args)%nat
              || negb (Args.repeat cfg)
                 && bool_decide (length args = length (Args.parsers cfg)))
      eqn:Ed.
    - destruct (apply_ready_trace cfg args Hc) as (t & E & _ & _).
      { intros Hr. rewrite Hr in Ed. simpl in Ed.
        by apply bool_decide_eq_true in Ed. }
      rewrite E. exists t. split.
      + simpl. destruct (existsb Args.logged t); simpl; by rewrite app_nil_r.
      + intros err -> _. by vm_compute in E1.
    - exists [Args.SetPrefix []; Args.LogUsage]. split; [done|].
      intros err -> _. by vm_compute in E1. }
Qed.

(** X17: the number of arguments under [SetParsers]. Whatever the
    parsers are, and whatever the command line holds and the scanner does
    on the standard input, every call of [fn] that [Main] makes, up to
    its return, its exit or a panic, passes as many values as there are
    parsers. *)
Theorem X17_SetParsers_fixes_the_arity (ps : list (Args.Parser F O Err))
    (args : list (list byte)) (isTerminal : bool)
    (stdin : Args.scanned Err) (vs : list (Args.value F O)) :
  Args.Call vs ∈ (Args.Main (Args.SetParsers ps) args isTerminal stdin).1 →
  length vs = length ps.
Proof.
  intros Hin.
  pose proof (Main_calls (Args.SetParsers ps) args isTerminal stdin) as H.
  rewrite Forall_forall in H. by apply (H _ Hin vs).
Qed.

(** X18: the number of arguments under [SetEveryParser]. A line that
    holds white space only has no tokens, and the body of the loop of
    [mapLines] calls [fn] for it with no argument at all, whatever the
    parser is, and leaves the success as it was; so does [mapLines] for
    every such line that the scanner yields, when the parser is a
    function and returns. *)
Theorem X18_blank_line_calls_fn_without_arguments
    (p : Args.Parser F O Err) (line : list byte) :
  forallb isSpace line = true →
  (∀ success,
     Args.mapLines_body (Args.SetEveryParser p) line success
     = ([Args.Call []], Args.Ret success)) ∧
  (∀ stdin : Args.scanned Err,
     Args.total p → line ∈ stdin.1 →
     Args.Call [] ∈ (Args.mapLines (Args.SetEveryParser p) stdin).1).
Proof.
  intros Hs. split.
  - intros success. unfold Args.mapLines_body.
    rewrite tokenize_strings_lex, (lex_blank line Hs). simpl.
    by destruct success.
  - intros stdin Hp Hin. pose proof (Args.ready_every p Hp) as Hc.
    destruct (mapLines_ready _ stdin Hc) as (t & E & Hb & _).
    rewrite E. simpl. by apply (Hb line).
Qed.

End ArgsFacts.

Lemma X11_witness :
  Args.apply (F := unit) (O := unit)
    (Args.SetParsers [Args.Int Args.digit; Args.Int Args.digit])
    [B "7"; B "x"]
  = ([Args.Log (Args.ParseError (B "x") tt)], Args.Ret false).
Proof.
  apply (X11_apply_calls_fn_iff_all_parse (F := unit) (O := unit)
           (Args.SetParsers [Args.Int Args.digit; Args.Int Args.digit])
           [B "7"; B "x"] [(Args.VInt 7, None); (Args.VNil, Some tt)]).
  - reflexivity.
  - intros [|[|i]] arg r Ha Hr; simpl in Ha, Hr; simplify_eq;
      eexists; split; reflexivity.
Defined.

Lemma X13_witness :
  Args.call (F := unit) (O := unit) (Err := unit)
    (Args.Int (F := unit) (O := unit) Args.digit) (B "5")
  = ([], Args.Ret (Args.VInt 5, None)) ∧
  Args.call (F := unit) (O := unit) (Err := unit)
    (Args.positive (F := unit) (O := unit)) (Args.VInt 5) = ([], Args.Ret None).
Proof.
  apply (X13_Restrict_sound (F := unit) (O := unit)
           (Args.Int (F := unit) (O := unit) Args.digit) Args.positive (B "5") (Args.VInt 5) None).
  reflexivity.
Defined.

Lemma total_Int_digit :
  Args.total (F := unit) (O := unit) (Args.Int Args.digit).
Proof.
  eexists. split; [reflexivity|]. intros s. simpl.
  by destruct (Args.digit s).
Qed.

Lemma X16_witness :
  ∃ t, Args.Main (F := unit) (O := unit)
         (Args.SetEveryParser (Args.Int Args.digit)) [B "-"] true
         ([B "3 x"; B "4"], Some tt)
       = (t, if existsb Args.logged t then Args.Exited 1 else Args.Ret tt) ∧
       (∀ err, [B "-"] = [B "-"] →
               (([B "3 x"; B "4"], Some tt) : Args.scanned unit).2
               = Some err →
               Args.Log (Args.ScanError err) ∈ t).
Proof.
  apply X16_Main_exits_iff_logged.
  apply Args.ready_every, total_Int_digit.
Defined.

Lemma X17_witness :
  length [Args.VInt (F := unit) (O := unit) 1; Args.VInt 2]
  = length [Args.Int (F := unit) (O := unit) Args.digit;
            Args.Int Args.digit].
Proof.
  apply (X17_SetParsers_fixes_the_arity
           [Args.Int Args.digit; Args.Int Args.digit] [B "-"] false
           ([B "1 2"; B "3"], None)).
  match goal with
  | |- ?x ∈ ?t => let t' := eval vm_compute in t in change (x ∈ t')
  end.
  apply list_elem_of_further, list_elem_of_here.
Defined.

Lemma X18_witness :
  (∀ success,
     Args.mapLines_body (F := unit) (O := unit)
       (Args.SetEveryParser (Args.Int Args.digit)) [Ch.space; Ch.tab] success
     = ([Args.Call []], Args.Ret success)) ∧
  (∀ stdin : Args.scanned unit,
     Args.total (F := unit) (O := unit) (Args.Int Args.digit) →
     [Ch.space; Ch.tab] ∈ stdin.1 →
     Args.Call (F := unit) (O := unit) (Err := unit) []
     ∈ (Args.mapLines (Args.SetEveryParser (Args.Int Args.digit)) stdin).1).
Proof.
  apply (X18_blank_line_calls_fn_without_arguments (Args.Int Args.digit)
           [Ch.space; Ch.tab]).
  reflexivity.
Defined.

(** [Main] on a standard input that the scanner gives up with an
    error. *)
Example Main_scanner_error :
  Args.Main (F := unit) (O := unit)
    (Args.SetEveryParser (Args.Int Args.digit)) [B "-"] true
    ([B "3 4"], Some tt)
  = ([Args.SetPrefix (B "error: ");
      Args.Call [Args.VInt 3; Args.VInt 4];
      Args.Log (Args.ScanError tt)], Args.Exited 1).
Proof. reflexivity. Qed.

(** * simple_fgetline and its buffer *)

Lemma code_inj (c d : byte) : Simpleio.code c = Simpleio.code d → c = d.
Proof.
  unfold Simpleio.code. intros H. apply N2Z.inj in H.
  pose proof (Byte.of_to_N c) as Hc. rewrite H, Byte.of_to_N in Hc.
  by injection Hc.
Qed.

Lemma code_eqb (c d : byte) :
  (Simpleio.code c =? Simpleio.code d) = Byte.eqb c d.
Proof.
  destruct (byte_eqb_spec c d) as [->|Hn].
  - apply Z.eqb_refl.
  - apply Z.eqb_neq. intros E. by apply code_inj in E.
Qed.

Lemma code_nonneg (c : byte) : 0 ≤ Simpleio.code c.
Proof. unfold Simpleio.code. lia. Qed.

Lemma fgetline_body_inv (c : byte) (s : Simpleio.state) (bufsize : Z) :
  fgetline_inv s bufsize →
  let bufsize1 :=
    if Simpleio.i s =? bufsize then bufsize + Fgetline.block_size
    else bufsize in
  Simpleio.i s < bufsize1 ∧
  fgetline_inv (Simpleio.body c s).1 bufsize1 ∧
  ((Simpleio.body c s).2 = true → 1 ≤ Simpleio.i (Simpleio.body c s).1).
Proof.
  intros [Hlo Hhi Hbuf Hprev] bufsize1.
  assert (Hlt : Simpleio.i s < bufsize1).
  { unfold bufsize1, Fgetline.block_size.
    destruct (Z.eqb_spec (Simpleio.i s) bufsize); lia. }
  split; [done|].
  assert (Hlen : len (take (Z.to_nat (Simpleio.i s)) (Simpleio.buf s) ++ [c])
                 = Simpleio.i s + 1).
  { unfold len in *. rewrite length_app, length_take. simpl. lia. }
  assert (Hc : Simpleio.code c = Simpleio.code Ch.backslash →
               1 ≤ Simpleio.i s + 1) by lia.
  unfold Simpleio.body.
  destruct (Z.eqb_spec (Simpleio.previous s) (Simpleio.code Ch.backslash))
    as [Ep|Ep]; simpl.
  - specialize (Hprev Ep). rewrite !code_eqb.
    destruct (Byte.eqb c Ch.nl) eqn:En; simpl.
    { split; [|done]. destruct (byte_eqb_spec c Ch.nl) as [->|]; [|done].
      split; simpl; rewrite ?Hlen; try lia. done. }
    destruct (Byte.eqb c Ch.backslash) eqn:Eb;
      destruct (Simpleio.quote s =? -1); simpl;
      (split; [split; simpl; rewrite ?Hlen; lia|done]).
  - rewrite !code_eqb.
    destruct (Simpleio.quote s =? -1); simpl.
    + destruct (Byte.eqb c Ch.nl) eqn:En; simpl.
      { split; [|lia]. split; simpl; rewrite ?Hlen; lia. }
      destruct (isQuote c); simpl;
        (split; [split; simpl; rewrite ?Hlen; lia|done]).
    + destruct (Simpleio.code c =? Simpleio.quote s); simpl;
        (split; [split; simpl; rewrite ?Hlen; lia|done]).
Qed.

Lemma fgetline_loop_inv (stream : list byte) : ∀ s bufsize,
  fgetline_inv s bufsize →
  ∃ s' bufsize' rest,
    Fgetline.loop stream s bufsize = Some (s', bufsize', rest) ∧
    Simpleio.loop stream s = (s', rest) ∧
    fgetline_inv s' bufsize' ∧
    (rest = [] ∨ 1 ≤ Simpleio.i s').
Proof.
  induction stream as [|c stream IH]; intros s bufsize Hi.
  { exists s, bufsize, []. simpl. auto. }
  destruct (fgetline_body_inv c s bufsize Hi) as (Hlt & Hi1 & Hstop).
  cbn [Fgetline.loop Simpleio.loop].
  pose proof (fi_lo _ _ Hi) as Hlo.
  replace (0 <=? Simpleio.i s) with true by (symmetry; by apply Z.leb_le).
  replace (Simpleio.i s <? _) with true by (symmetry; by apply Z.ltb_lt).
  cbn [andb].
  destruct (Simpleio.body c s) as [s1 stop]. simpl in Hi1, Hstop.
  destruct stop.
  - eexists _, _, _. split; [done|]. split; [done|]. split; [done|].
    right. by apply Hstop.
  - by apply IH.
Qed.

(** X19: the writes of [simple_fgetline]. No write of its loop falls
    outside of the buffer, and the index never goes below zero; the bytes
    it stores do not depend on the size of the buffer; the write of the
    terminating zero after the loop falls outside of the buffer exactly
    when the line fills the buffer, and then by one byte; and a call that
    returns zero has read the stream to its end. *)
Theorem X19_fgetline_writes (size : option Z) (stream : list byte) :
  (∀ z, size = Some z → 1 < z) →
  ∃ line rest,
    Simpleio.simple_fgetline stream = (line, rest) ∧
    (line = [] → rest = []) ∧
    ((∃ bufsize, Fgetline.simple_fgetline size stream
                 = Some (Fgetline.Line line bufsize rest) ∧
                 len line < bufsize) ∨
     Fgetline.simple_fgetline size stream
     = Some (Fgetline.OutOfBounds (len line) (len line))).
Proof.
  intros Hsize.
  destruct (fgetline_loop_inv stream
              {| Simpleio.buf := []; Simpleio.i := 0;
                 Simpleio.previous := -1; Simpleio.quote := -1 |}
              (default Fgetline.block_size size))
    as (s & bufsize & rest & El & Es & [Hlo Hhi Hbuf _] & Hr).
  { split; simpl; try done.
    destruct size as [z|]; simpl; [specialize (Hsize z eq_refl); lia|].
    unfold Fgetline.block_size. lia. }
  assert (Hlen : len (take (Z.to_nat (Simpleio.i s)) (Simpleio.buf s))
                 = Simpleio.i s).
  { unfold len in *. rewrite length_take. lia. }
  exists (take (Z.to_nat (Simpleio.i s)) (Simpleio.buf s)), rest.
  unfold Simpleio.simple_fgetline, Fgetline.simple_fgetline.
  rewrite Es, El. cbn [mbind option_bind]. split; [done|]. split.
  - intros E. destruct Hr as [|Hr]; [done|].
    rewrite E in Hlen. unfold len in Hlen. simpl in Hlen. lia.
  - replace (0 <=? Simpleio.i s) with true by (symmetry; by apply Z.leb_le).
    cbn [andb]. rewrite Hlen.
    destruct (Z.ltb_spec (Simpleio.i s) bufsize).
    + left. by exists bufsize.
    + right. by replace bufsize with (Simpleio.i s) by lia.
Qed.

Lemma X19_witness :
  ∃ line rest,
    Simpleio.simple_fgetline (B "a 'b" ++ Ch.nl :: B "c'" ++ Ch.nl :: B "d")
    = (line, rest) ∧
    (line = [] → rest = []) ∧
    ((∃ bufsize,
        Fgetline.simple_fgetline (Some 2)
          (B "a 'b" ++ Ch.nl :: B "c'" ++ Ch.nl :: B "d")
        = Some (Fgetline.Line line bufsize rest) ∧
        len line < bufsize) ∨
     Fgetline.simple_fgetline (Some 2)
       (B "a 'b" ++ Ch.nl :: B "c'" ++ Ch.nl :: B "d")
     = Some (Fgetline.OutOfBounds (len line) (len line))).
Proof.
  apply (X19_fgetline_writes (Some 2)). intros z [= <-]. lia.
Defined.

Lemma fgetline_loop_plain (size0 : Z) (rest : list byte) (l : list byte) :
  ∀ s bufsize,
  Forall (λ c, c ≠ Ch.nl ∧ c ≠ Ch.backslash ∧ isQuote c = false) l →
  Simpleio.quote s = -1 →
  Simpleio.previous s ≠ Simpleio.code Ch.backslash →
  0 ≤ Simpleio.i s → tight size0 (Simpleio.i s) bufsize →
  ∃ s' bufsize',
    Fgetline.loop (l ++ Ch.nl :: rest) s bufsize = Some (s', bufsize', rest) ∧
    Simpleio.i s' = Simpleio.i s + len l + 1 ∧
    tight size0 (Simpleio.i s') bufsize'.
Proof.
  assert (Htight : ∀ i b, tight size0 i b →
            let b1 := if i =? b then b + Fgetline.block_size else b in
            i < b1 ∧ tight size0 (i + 1) b1).
  { intros i b (Hle & j & Hj & Hb & Hmin).
    unfold tight, Fgetline.block_size in *.
    destruct (Z.eqb_spec i b) as [->|Hne]; simpl.
    - split; [lia|]. split; [lia|]. exists (j + 1). lia.
    - split; [lia|]. split; [lia|]. exists j. lia. }
  induction l as [|c l IH]; intros s bufsize Hl Hq Hp Hi Ht.
  - destruct (Htight _ _ Ht) as [Hlt Ht1].
    cbn [app Fgetline.loop].
    replace (0 <=? Simpleio.i s) with true by (symmetry; by apply Z.leb_le).
    replace (Simpleio.i s <? _) with true by (symmetry; by apply Z.ltb_lt).
    cbn [andb]. unfold Simpleio.body. rewrite Hq.
    replace (Simpleio.previous s =? _) with false
      by (symmetry; by apply Z.eqb_neq).
    simpl. eexists _, _. split; [done|]. simpl. rewrite len_nil.
    split; [lia|done].
  - apply Forall_cons in Hl as [(Hnl & Hbs & Hnq) Hl].
    destruct (Htight _ _ Ht) as [Hlt Ht1].
    cbn [app Fgetline.loop].
    replace (0 <=? Simpleio.i s) with true by (symmetry; by apply Z.leb_le).
    replace (Simpleio.i s <? _) with true by (symmetry; by apply Z.ltb_lt).
    cbn [andb]. unfold Simpleio.body. rewrite Hq.
    replace (Simpleio.previous s =? _) with false
      by (symmetry; by apply Z.eqb_neq).
    rewrite code_eqb, (byte_eqb_ne _ _ Hnl), Hnq. simpl.
    match goal with
    | |- ∃ _ _, Fgetline.loop _ ?s1 ?b1 = _ ∧ _ =>
        destruct (IH s1 b1 Hl) as (s' & b' & E & Ei & Ht'); simpl;
          [done| |lia|done|]
    end.
    + intros E. by apply code_inj in E.
    + eexists _, _. split; [exact E|]. simpl in Ei.
      split; [rewrite len_cons; lia|done].
Qed.

(** X20: a line that fills the buffer. When the bytes of a line, its
    newline included, are as many as the buffer holds at first or after
    some growths by [block_size], so 128 bytes with a fresh buffer,
    [simple_fgetline] writes the terminating zero one byte past the end of
    the buffer. *)
Theorem X20_fgetline_full_line_overflows (size : option Z) (k : Z)
    (l rest : list byte) :
  (∀ z, size = Some z → 1 < z) → 0 ≤ k →
  Forall (λ c, c ≠ Ch.nl ∧ c ≠ Ch.backslash ∧ isQuote c = false) l →
  len l + 1 = default Fgetline.block_size size + Fgetline.block_size * k →
  Fgetline.simple_fgetline size (l ++ Ch.nl :: rest)
  = Some (Fgetline.OutOfBounds (len l + 1) (len l + 1)).
Proof.
  intros Hsize Hk Hl Hlen. unfold Fgetline.simple_fgetline.
  set (size0 := default Fgetline.block_size size) in *.
  assert (Hs0 : 1 < size0).
  { unfold size0. destruct size as [z|]; simpl; [by apply Hsize|].
    unfold Fgetline.block_size. lia. }
  edestruct (fgetline_loop_plain size0 rest l) as (s & b & E & Ei & Ht);
    [exact Hl| | | | |].
  5:{ rewrite E. cbn [mbind option_bind]. simpl in Ei.
      destruct Ht as (Hle & j & Hj & Hb & Hmin).
      unfold Fgetline.block_size in *.
      assert (b = Simpleio.i s) as -> by lia.
      pose proof (len_nonneg l).
      replace (0 <=? Simpleio.i s) with true by (symmetry; apply Z.leb_le; lia).
      rewrite Z.ltb_irrefl. simpl. by rewrite Ei. }
  - done.
  - simpl. unfold Simpleio.code. simpl. lia.
  - done.
  - simpl. split; [lia|]. exists 0. unfold Fgetline.block_size. lia.
Qed.

Lemma X20_witness :
  Fgetline.simple_fgetline None (replicate 127 "a"%byte ++ Ch.nl :: B "b")
  = Some (Fgetline.OutOfBounds 128 128).
Proof.
  apply (X20_fgetline_full_line_overflows None 0 (replicate 127 "a"%byte)
           (B "b")).
  - intros z [=].
  - lia.
  - apply Forall_replicate. by vm_compute.
  - vm_compute. reflexivity.
Defined.

(** * simple_fgetline and the functions of the Go package *)

Lemma quote_code_nul (q : byte) :
  (quote_code q =? -1) = Byte.eqb q Ch.nul.
Proof.
  unfold quote_code. destruct (Byte.eqb q Ch.nul); [done|].
  apply Z.eqb_neq. pose proof (code_nonneg q). lia.
Qed.

Lemma scanLines_loop_snoc (o : list byte) (c : byte) (e : bool) (q : byte) :
  scanLines_loop o 0 false Ch.nul = Fallthrough e q →
  scanLines_loop (o ++ [c]) 0 false Ch.nul
  = if Byte.eqb q Ch.nul then
      if Byte.eqb c Ch.nl then Return (len o)
      else Fallthrough (negb e && Byte.eqb c Ch.backslash)
             (if negb e && isQuote c then c else q)
    else Fallthrough (negb e && Byte.eqb c Ch.backslash)
           (if negb e && Byte.eqb c q then Ch.nul else q).
Proof.
  intros H. rewrite scanLines_loop_app, H. simpl.
  destruct (Byte.eqb q Ch.nul); [|done]. by destruct (Byte.eqb c Ch.nl).
Qed.

(** What the scan has seen before a pending escape. *)
Lemma scanLines_loop_unsnoc (out : list byte) (q : byte) :
  out ≠ [] →
  scanLines_loop out 0 false Ch.nul = Fallthrough true q →
  scanLines_loop (take (length out - 1) out) 0 false Ch.nul
  = Fallthrough false q.
Proof.
  intros Hne H.
  destruct (exists_last Hne) as (o & x & ->).
  rewrite length_app. simpl.
  replace (length o + 1 - 1)%nat with (length o) by lia.
  rewrite take_app_length.
  destruct (scanLines_loop o 0 false Ch.nul) as [j|e0 q0] eqn:Eo.
  { by rewrite scanLines_loop_app, Eo in H. }
  assert (Hm : q0 = Ch.nul ∨ isQuote q0 = true).
  { eapply scanLines_loop_mark; [|exact Eo]. by left. }
  rewrite (scanLines_loop_snoc _ _ _ _ Eo) in H.
  destruct (decide (q0 = Ch.nul)) as [->|Hn].
  - simpl in H. destruct (Byte.eqb x Ch.nl); [done|].
    destruct e0; [done|]. simpl in H.
    destruct (decide (x = Ch.backslash)) as [->|Hx].
    + simpl in H. by injection H as <-.
    + by rewrite (byte_eqb_ne _ _ Hx) in H.
  - rewrite (byte_eqb_ne _ _ Hn) in H.
    destruct Hm as [|Hm]; [done|].
    destruct e0; [done|]. simpl in H.
    destruct (decide (x = Ch.backslash)) as [->|Hx].
    + destruct (decide (Ch.backslash = q0)) as [<-|Hq]; [done|].
      rewrite (byte_eqb_ne _ _ Hq) in H. by injection H as <-.
    + by rewrite (byte_eqb_ne _ _ Hx) in H.
Qed.

Lemma fgetline_body_refines (c : byte) (s : Simpleio.state) (p : Cont.st)
    (q : byte) :
  fgetline_refines s p q →
  if (Simpleio.body c s).2 then
    c = Ch.nl ∧ Cont.esc p = false ∧ q = Ch.nul ∧
    take (Z.to_nat (Simpleio.i (Simpleio.body c s).1))
      (Simpleio.buf (Simpleio.body c s).1)
    = Cont.out p ++ [Ch.nl]
  else ∃ q1, fgetline_refines (Simpleio.body c s).1 (Cont.step p c) q1.
Proof.
  intros [Hbuf Hi Hscan Hprev Hquote Hmark Hlast].
  assert (Ep : (Simpleio.previous s =? Simpleio.code Ch.backslash)
               = Cont.esc p).
  { destruct (Cont.esc p) eqn:Ee.
    - apply Z.eqb_eq. by apply Hprev.
    - apply Z.eqb_neq. intros E. apply Hprev in E. done. }
  assert (Hlen : Z.to_nat (len (Cont.out p)) = length (Cont.out p)).
  { unfold len. apply Nat2Z.id. }
  assert (Hsnoc : take (Z.to_nat (len (Cont.out p) + 1))
                    (Cont.out p ++ [c]) = Cont.out p ++ [c]).
  { apply take_ge. rewrite length_app. simpl. unfold len. lia. }
  assert (Hpc : ∀ b : bool,
            (if b && Byte.eqb c Ch.backslash then -1 else Simpleio.code c)
            = Simpleio.code Ch.backslash
            ↔ negb b && Byte.eqb c Ch.backslash = true).
  { intros b. destruct (decide (c = Ch.backslash)) as [->|Hcb].
    - by destruct b.
    - rewrite (byte_eqb_ne _ _ Hcb), !andb_false_r.
      split; [|done]. intros E. by apply code_inj in E. }
  pose proof (scanLines_loop_snoc _ c _ _ Hscan) as Hs.
  unfold Simpleio.body. rewrite Ep, Hquote, quote_code_nul, Hbuf, Hi.
  rewrite !code_eqb.
  destruct (decide (Cont.esc p = true ∧ c = Ch.nl)) as [[Ee ->]|Hcont].
  - (* a continuation *)
    rewrite Ee. simpl.
    exists q. unfold Cont.step. rewrite Ee. simpl.
    pose proof (Hlast Ee) as Hne.
    assert (Hpos : (0 < length (Cont.out p))%nat).
    { destruct (Cont.out p); [done|simpl; lia]. }
    rewrite Ee in Hscan.
    split; simpl; try done.
    + replace (Z.to_nat (len (Cont.out p) + 1 - 2))
        with (length (Cont.out p) - 1)%nat by (unfold len; lia).
      apply take_app_le. lia.
    + unfold len. rewrite length_take. lia.
    + by apply scanLines_loop_unsnoc.
  - assert (Hstep : Cont.step p c
              = {| Cont.out := Cont.out p ++ [c];
                   Cont.esc := negb (Cont.esc p)
                               && Byte.eqb c Ch.backslash |}).
    { unfold Cont.step. f_equal.
      destruct (Cont.esc p) eqn:Ee; [|done].
      destruct (decide (c = Ch.nl)) as [->|Hnl]; [by destruct Hcont|].
      by rewrite (byte_eqb_ne _ _ Hnl). }
    assert (Hcond : Cont.esc p && Byte.eqb c Ch.nl = false).
    { destruct (Cont.esc p) eqn:Ee; [|done].
      destruct (decide (c = Ch.nl)) as [->|Hnl]; [by destruct Hcont|].
      by rewrite (byte_eqb_ne _ _ Hnl). }
    rewrite Hcond, Hstep.
    destruct (decide (q = Ch.nul)) as [->|Hq].
    + rewrite byte_eqb_refl in Hs |- *.
      destruct (decide (c = Ch.nl)) as [->|Hnl].
      { simpl. destruct (Cont.esc p); [by destruct Hcont|]. done. }
      rewrite (byte_eqb_ne _ _ Hnl) in Hs |- *.
      destruct (negb (Cont.esc p) && isQuote c) eqn:Eq; simpl.
      * exists c. apply andb_true_iff in Eq as [_ Eq].
        pose proof (isQuote_not_nul _ Eq) as Hcn.
        split; simpl; try done;
          first [ rewrite len_app, len_cons, len_nil; lia
                | apply Hpc
                | by right
                | unfold quote_code; by rewrite (byte_eqb_ne _ _ Hcn)
                | intros _ E; by destruct (Cont.out p) ].
      * exists Ch.nul.
        split; simpl; try done;
          first [ rewrite len_app, len_cons, len_nil; lia
                | apply Hpc
                | by left
                | intros _ E; by destruct (Cont.out p) ].
    + rewrite (byte_eqb_ne _ _ Hq) in Hs |- *.
      assert (Hcq : (Simpleio.code c =? quote_code q) = Byte.eqb c q).
      { unfold quote_code. by rewrite (byte_eqb_ne _ _ Hq), code_eqb. }
      rewrite Hcq.
      destruct (negb (Cont.esc p) && Byte.eqb c q) eqn:Ecq; simpl.
      * exists Ch.nul.
        split; simpl; try done;
          first [ rewrite len_app, len_cons, len_nil; lia
                | apply Hpc
                | by left
                | intros _ E; by destruct (Cont.out p) ].
      * exists q.
        split; simpl; try done;
          first [ rewrite len_app, len_cons, len_nil; lia
                | apply Hpc
                | unfold quote_code; by rewrite (byte_eqb_ne _ _ Hq)
                | intros _ E; by destruct (Cont.out p) ].
Qed.

Lemma fgetline_loop_refines (stream : list byte) : ∀ s p q,
  fgetline_refines s p q →
  (Simpleio.loop stream s).2 = [] ∧
  (∃ q', fgetline_refines (Simpleio.loop stream s).1 (Cont.run p stream) q')
  ∨
  ∃ pre, stream = pre ++ Ch.nl :: (Simpleio.loop stream s).2 ∧
         Cont.esc (Cont.run p pre) = false ∧
         scanLines_loop (Cont.out (Cont.run p pre)) 0 false Ch.nul
         = Fallthrough false Ch.nul ∧
         take (Z.to_nat (Simpleio.i (Simpleio.loop stream s).1))
           (Simpleio.buf (Simpleio.loop stream s).1)
         = Cont.out (Cont.run p pre) ++ [Ch.nl].
Proof.
  induction stream as [|c stream IH]; intros s p q R.
  { left. simpl. eauto. }
  pose proof (fgetline_body_refines c s p q R) as Hb.
  cbn [Simpleio.loop].
  destruct (Simpleio.body c s) as [s1 stop]. simpl in Hb.
  destruct stop.
  - destruct Hb as (-> & He & -> & Ht). right. exists []. simpl.
    split; [done|]. split; [done|]. split; [|done].
    pose proof (fr_scan _ _ _ R) as Hs. by rewrite He in Hs.
  - destruct Hb as [q1 R1].
    destruct (IH s1 _ _ R1) as [[Hrest Hq]|(pre & E & He & Hs & Ht)].
    + left. by split.
    + right. exists (c :: pre). split; [|done].
      simpl. by rewrite <- E.
Qed.

(** The first line of a stream as [simple_fgetline] and as [scanLines]
    see it: a line that a newline ends, or the rest of the stream. *)
Lemma fgetline_first_line (stream : list byte) :
  let r := Cont.out (Cont.run Cont.init stream) in
  (∃ t rest,
     Simpleio.simple_fgetline stream = (t ++ [Ch.nl], rest) ∧
     r = t ++ Ch.nl :: Cont.out (Cont.run Cont.init rest) ∧
     scanLines_loop t 0 false Ch.nul = Fallthrough false Ch.nul ∧
     scanLines r true = (len t + 1, Some (dropCR t))) ∨
  (Simpleio.simple_fgetline stream = (r, []) ∧
   scanLines r true
   = (len r, match r with [] => None | _ => Some (dropCR r) end)).
Proof.
  intros r.
  set (s0 := {| Simpleio.buf := []; Simpleio.i := 0;
                Simpleio.previous := -1; Simpleio.quote := -1 |}).
  assert (R0 : fgetline_refines s0 Cont.init Ch.nul).
  { split; simpl; try done. by left. }
  unfold Simpleio.simple_fgetline. fold s0.
  destruct (fgetline_loop_refines stream s0 _ _ R0)
    as [[Hrest [q' R]]|(pre & E & He & Hs & Ht)].
  - right. destruct (Simpleio.loop stream s0) as [s' rest]. simpl in *.
    subst rest. destruct R as [Hbuf Hi Hscan _ _ _ _]. rewrite Hbuf.
    fold r in Hscan |- *. split; [done|].
    destruct r as [|b r'] eqn:Er; [done|].
    rewrite scanLines_nonempty by done. by rewrite Hscan.
  - left. destruct (Simpleio.loop stream s0) as [s' rest]. simpl in *.
    rewrite Ht. set (pm := Cont.run Cont.init pre) in *.
    assert (Er : r = Cont.out pm
                     ++ Ch.nl :: Cont.out (Cont.run Cont.init rest)).
    { assert (H2 : Cont.out (Cont.run Cont.init (Ch.nl :: rest))
                   = Ch.nl :: Cont.out (Cont.run Cont.init rest)).
      { exact (f_equal Cont.out (cont_run_closed [Ch.nl] rest eq_refl)). }
      unfold r. rewrite E at 1. rewrite (cont_run_closed pre _ He).
      cbn [Cont.out]. by rewrite H2. }
    exists (Cont.out pm), rest. split; [done|]. split; [done|].
    split; [done|]. rewrite Er.
    rewrite scanLines_nonempty by by destruct (Cont.out pm).
    rewrite (scanLines_at_newline _ _ _ _ Hs). simpl.
    unfold len. rewrite Nat2Z.id. by rewrite take_app_length.
Qed.

(** The loop with the size of the buffer stores what the loop without
    it stores. *)
Lemma fgetline_loop_Simpleio (stream : list byte) :
  ∀ s bufsize s' bufsize' rest,
  Fgetline.loop stream s bufsize = Some (s', bufsize', rest) →
  Simpleio.loop stream s = (s', rest).
Proof.
  induction stream as [|c stream IH]; intros s bufsize s' bufsize' rest.
  { simpl. by intros [= <- _ <-]. }
  cbn [Fgetline.loop Simpleio.loop].
  destruct (_ && _); [|done].
  destruct (Simpleio.body c s) as [s1 stop]. destruct stop.
  - by intros [= <- _ <-].
  - apply IH.
Qed.

Lemma fgetline_Line (size : option Z) (stream line rest : list byte)
    (bufsize : Z) :
  Fgetline.simple_fgetline size stream
  = Some (Fgetline.Line line bufsize rest) →
  Simpleio.simple_fgetline stream = (line, rest).
Proof.
  unfold Fgetline.simple_fgetline, Simpleio.simple_fgetline.
  destruct (Fgetline.loop stream _ _) as [[[s bs] rest']|] eqn:El; [|done].
  rewrite (fgetline_loop_Simpleio _ _ _ _ _ _ El).
  cbn [mbind option_bind]. destruct (_ && _); [|done].
  by intros [= <- _ <-].
Qed.

(** X21: the line reader of the C library and the functions of the Go
    package. When a call of [simple_fgetline], on a buffer of more than
    one byte as it asserts, returns a line, the terminating zero inside
    of the buffer, the line is, newline included,
    the bytes over which [scanLines] advances for its first line in what
    [lineReader.Read] leaves of the stream, read at once and scanned at
    its end; what the call leaves in the stream reads as the rest; and
    the line of [scanLines] is that of [simple_fgetline] less the newline
    that ends it and less a final carriage return. *)
Theorem X21_fgetline_is_the_first_scanned_line (size : option Z)
    (stream line rest : list byte) (bufsize : Z) :
  (∀ z, size = Some z → 1 < z) →
  Fgetline.simple_fgetline size stream
  = Some (Fgetline.Line line bufsize rest) →
  ∃ r,
    LineReader.Read stream = Some r ∧
    line = take (Z.to_nat (scanLines r true).1) r ∧
    LineReader.Read rest = Some (drop (Z.to_nat (scanLines r true).1) r) ∧
    ((scanLines r true).2 = None ∧ r = [] ∨
     ∃ t, (scanLines r true).2 = Some (dropCR t) ∧
          (line = t ∨ line = t ++ [Ch.nl])).
Proof.
  intros _ Hline. apply fgetline_Line in Hline.
  set (r := Cont.out (Cont.run Cont.init stream)).
  assert (Hr0 : LineReader.Read [] = Some []) by done.
  destruct (fgetline_first_line stream)
    as [(t & rest' & Ef & Er & _ & Hsc)|[Ef Hsc]].
  - rewrite Hline in Ef. injection Ef as -> ->.
    fold r in Er, Hsc. exists r. rewrite !Read_cont. fold r.
    rewrite Hsc. simpl.
    set (R' := Cont.out (Cont.run Cont.init rest')) in *.
    assert (Er' : r = (t ++ [Ch.nl]) ++ R') by by rewrite Er, <- app_assoc.
    replace (Z.to_nat (len t + 1)) with (length (t ++ [Ch.nl]))
      by (rewrite length_app; unfold len; simpl; lia).
    assert (Htake : take (length (t ++ [Ch.nl])) r = t ++ [Ch.nl]).
    { rewrite Er'. apply take_app_length. }
    assert (Hdrop : drop (length (t ++ [Ch.nl])) r = R').
    { rewrite Er'. apply drop_app_length. }
    rewrite Htake, Hdrop.
    split; [done|]. split; [done|]. split; [done|].
    right. exists t. by auto.
  - rewrite Hline in Ef. injection Ef as -> ->.
    fold r in Hsc. exists r. rewrite Read_cont. fold r.
    rewrite Hsc. simpl.
    unfold len. rewrite Nat2Z.id, take_ge, drop_ge by done.
    split; [done|]. split; [done|]. split; [done|].
    destruct r as [|b r']; [by left|]. right. exists (b :: r'). by auto.
Qed.

Lemma X21_witness :
  ∃ r,
    LineReader.Read (B "a\" ++ Ch.nl :: B "b" ++ Ch.cr :: Ch.nl :: B "c")
    = Some r ∧
    B "ab" ++ [Ch.cr; Ch.nl] = take (Z.to_nat (scanLines r true).1) r ∧
    LineReader.Read (B "c")
    = Some (drop (Z.to_nat (scanLines r true).1) r) ∧
    ((scanLines r true).2 = None ∧ r = [] ∨
     ∃ t, (scanLines r true).2 = Some (dropCR t) ∧
          (B "ab" ++ [Ch.cr; Ch.nl] = t ∨
           B "ab" ++ [Ch.cr; Ch.nl] = t ++ [Ch.nl])).
Proof.
  apply (X21_fgetline_is_the_first_scanned_line None
           (B "a\" ++ Ch.nl :: B "b" ++ Ch.cr :: Ch.nl :: B "c")
           (B "ab" ++ [Ch.cr; Ch.nl]) (B "c") 128).
  - by intros z.
  - vm_compute. reflexivity.
Defined.

(** * split_words *)

Lemma store_ptr_Some (ws : list (option Z)) (i : Z) (p : option Z) :
  0 ≤ i < len ws →
  SplitWords.store_ptr ws i p = Some (<[Z.to_nat i := p]> ws).
Proof.
  intros [H1 H2]. unfold SplitWords.store_ptr.
  apply Z.leb_le in H1. apply Z.ltb_lt in H2. by rewrite H1, H2.
Qed.

Lemma split_body_safe (isspace : byte → bool) (m0 : list byte) (n : Z)
    (c : byte) (s : SplitWords.state) :
  split_safe m0 n s → SplitWords.pos s < n → n < len m0 →
  ∃ s', SplitWords.body isspace c s = Some s' ∧
        split_safe m0 n s' ∧
        SplitWords.pos s' = SplitWords.pos s + 1.
Proof.
  intros [Hpos Hshift Hlen Hrest Hnw Hslot Hws Hmin] Hlt Hn.
  assert (Hm : len (SplitWords.mem s) = len m0) by (unfold len; lia).
  assert (Hstore : ∀ m i x, len m = len m0 → 0 ≤ i ≤ SplitWords.pos s →
            store m i x = Some (<[Z.to_nat i := x]> m)).
  { intros m i x Hl Hi. apply store_Some. lia. }
  assert (Hdrop : ∀ (m : list byte) i x,
            0 ≤ i ≤ SplitWords.pos s →
            drop (Z.to_nat (SplitWords.pos s + 1)) (<[Z.to_nat i := x]> m)
            = drop (Z.to_nat (SplitWords.pos s + 1)) m).
  { intros m i x Hi. apply drop_insert_lt. lia. }
  assert (Hnext : ∀ m : list byte,
            drop (Z.to_nat (SplitWords.pos s)) m
            = drop (Z.to_nat (SplitWords.pos s)) m0 →
            drop (Z.to_nat (SplitWords.pos s + 1)) m
            = drop (Z.to_nat (SplitWords.pos s + 1)) m0).
  { intros m E.
    replace (Z.to_nat (SplitWords.pos s + 1))
      with (Z.to_nat (SplitWords.pos s) + 1)%nat by lia.
    by rewrite <- !drop_drop, E. }
  assert (Hidx : ∀ m, len m = len m0 →
            ∃ c', index m (SplitWords.pos s) = Some c').
  { intros m Hl. unfold index.
    replace (0 <=? SplitWords.pos s) with true by (symmetry; apply Z.leb_le; lia).
    replace (SplitWords.pos s <? len m) with true
      by (symmetry; apply Z.ltb_lt; lia).
    simpl. apply lookup_lt_is_Some. unfold len in *. lia. }
  unfold SplitWords.body.
  set (prevbs := SplitWords.previous s =? Simpleio.code Ch.backslash).
  destruct (if Byte.eqb c Ch.backslash
            then if prevbs then (-1, false) else (Simpleio.code c, true)
            else (Simpleio.code c, false)) as [previous1 delete1].
  assert (Hfin : ∀ m1 ws1 wl1 nw1 q1 w1 (d2 : bool),
    len m1 = len m0 →
    drop (Z.to_nat (SplitWords.pos s + 1)) m1
    = drop (Z.to_nat (SplitWords.pos s + 1)) m0 →
    0 ≤ nw1 → nw1 + 1 ≤ wl1 → len ws1 = wl1 → 1 < wl1 →
    ∃ s',
      (if d2
       then Some {| SplitWords.mem := m1; SplitWords.pos := SplitWords.pos s + 1;
                    SplitWords.words := ws1; SplitWords.words_len := wl1;
                    SplitWords.nwords := nw1;
                    SplitWords.previous := previous1;
                    SplitWords.quote := q1;
                    SplitWords.shift := SplitWords.shift s + 1;
                    SplitWords.word := w1 |}
       else c' ← index m1 (SplitWords.pos s);
            mem2 ← store m1 (SplitWords.pos s - SplitWords.shift s) c';
            Some {| SplitWords.mem := mem2;
                    SplitWords.pos := SplitWords.pos s + 1;
                    SplitWords.words := ws1; SplitWords.words_len := wl1;
                    SplitWords.nwords := nw1;
                    SplitWords.previous := previous1;
                    SplitWords.quote := q1;
                    SplitWords.shift := SplitWords.shift s;
                    SplitWords.word := w1 |}) = Some s' ∧
      split_safe m0 n s' ∧ SplitWords.pos s' = SplitWords.pos s + 1).
  { intros m1 ws1 wl1 nw1 q1 w1 d2 Hl1 Hd1 H1 H2 H3 H4. destruct d2.
    - eexists. split; [done|]. split; [|done].
      split; simpl; try done; try lia. unfold len in Hl1. lia.
    - destruct (Hidx m1 Hl1) as [c' ->]. cbn [mbind option_bind].
      rewrite Hstore by (done || lia). cbn [mbind option_bind].
      eexists. split; [done|]. split; [|done].
      split; simpl; try done; try lia.
      + rewrite length_insert. unfold len in Hl1. lia.
      + rewrite Hdrop by lia. done. }
  destruct (negb prevbs); cbn [mbind option_bind].
  2:{ apply Hfin; try done. by apply Hnext. }
  destruct (SplitWords.quote s =? -1).
  2:{ destruct (SplitWords.quote s =? Simpleio.code c);
        cbn [mbind option_bind];
        [apply (Hfin _ _ _ _ _ _ true)|apply Hfin]; try done;
        by apply Hnext. }
  destruct (SplitWords.word s && isspace c).
  { rewrite Hstore by (done || lia). cbn [mbind option_bind].
    apply Hfin; try done.
    - unfold len. rewrite length_insert. done.
    - rewrite Hdrop by lia. by apply Hnext. }
  destruct (if isQuote c then (Simpleio.code c, true)
            else (SplitWords.quote s, delete1)) as [quote1 delete2].
  destruct (negb (SplitWords.word s) && negb (isspace c)).
  2:{ cbn [mbind option_bind]. apply Hfin; try done. by apply Hnext. }
  destruct (SplitWords.nwords s + 1 =? SplitWords.words_len s) eqn:Eg.
  - apply Z.eqb_eq in Eg.
    rewrite store_ptr_Some.
    2:{ rewrite len_app. unfold len at 2. rewrite length_replicate.
        unfold SplitWords.block_len. lia. }
    cbn [mbind option_bind].
    apply Hfin; try done; try (unfold SplitWords.block_len; lia).
    + by apply Hnext.
    + unfold len. rewrite length_insert, length_app, length_replicate.
      unfold len in Hws. unfold SplitWords.block_len. lia.
  - apply Z.eqb_neq in Eg.
    rewrite store_ptr_Some by lia.
    cbn [mbind option_bind]. apply Hfin; try done; try lia.
    + by apply Hnext.
    + unfold len. rewrite length_insert. done.
Qed.

Lemma split_loop_safe (isspace : byte → bool) (d junk : list byte) :
  Forall (λ c, c ≠ Ch.nul) d →
  ∀ (fuel : nat) (s : SplitWords.state),
  split_safe (d ++ Ch.nul :: junk) (len d) s →
  len d - SplitWords.pos s < Z.of_nat fuel →
  ∃ s', SplitWords.loop isspace fuel s = Some s' ∧
        split_safe (d ++ Ch.nul :: junk) (len d) s' ∧
        SplitWords.pos s' = len d.
Proof.
  intros Hd. induction fuel as [|fuel IH]; intros s Hs Hf.
  { destruct Hs as [Hpos _ _ _ _ _ _ _]. lia. }
  pose proof Hs as [Hpos Hshift Hlen Hrest Hnw Hslot Hws Hmin].
  assert (Hn : len d < len (d ++ Ch.nul :: junk)).
  { rewrite len_app, len_cons. pose proof (len_nonneg junk). lia. }
  assert (Hidx : index (SplitWords.mem s) (SplitWords.pos s)
                 = (d ++ Ch.nul :: junk) !! Z.to_nat (SplitWords.pos s)).
  { unfold index.
    replace (0 <=? SplitWords.pos s) with true
      by (symmetry; apply Z.leb_le; lia).
    replace (SplitWords.pos s <? len (SplitWords.mem s)) with true
      by (symmetry; apply Z.ltb_lt; unfold len in *; lia).
    simpl.
    rewrite <- (Nat.add_0_r (Z.to_nat (SplitWords.pos s))).
    by rewrite <- !lookup_drop, Hrest. }
  cbn [SplitWords.loop]. rewrite Hidx.
  destruct (decide (SplitWords.pos s = len d)) as [Ep|Ep].
  - rewrite Ep. unfold len. rewrite Nat2Z.id, list_lookup_middle by done.
    simpl. eauto.
  - assert (Hlt : SplitWords.pos s < len d) by lia.
    destruct (lookup_lt_is_Some_2 d (Z.to_nat (SplitWords.pos s)))
      as [c Hc]; [unfold len in Hlt; lia|].
    rewrite lookup_app_l by (unfold len in Hlt; lia). rewrite Hc.
    cbn [mbind option_bind].
    rewrite Forall_forall in Hd.
    rewrite (byte_eqb_ne c Ch.nul).
    2:{ apply Hd. eapply list_elem_of_lookup_2. exact Hc. }
    destruct (split_body_safe isspace _ _ c s Hs Hlt Hn) as (s1 & -> & Hs1 & Ep1).
    cbn [mbind option_bind]. apply IH; [done|]. lia.
Qed.

(** X22: [split_words] stays inside its memory. On a string without a
    zero byte before its end, whatever [isspace] is and whatever follows
    the string in memory, the call reads the string to its end and returns;
    every write to the string falls on the string or on its terminator,
    and what follows the terminator is left as it was; the buffer of
    pointers grows before it is full, so that the pointers and the null
    pointer that ends them are stored inside of it, and it can be passed
    to the next call. *)
Theorem X22_split_words_is_memory_safe (isspace : byte → bool)
    (wordsptr : option (list (option Z))) (d junk : list byte) :
  Forall (λ c, c ≠ Ch.nul) d →
  (∀ buffer, wordsptr = Some buffer → 1 < len buffer) →
  ∃ n ws wl m',
    SplitWords.split_words isspace wordsptr (d ++ Ch.nul :: junk)
    = Some (n, ws, wl, m') ∧
    0 ≤ n < wl ∧ 1 < wl ∧ len ws = wl ∧ ws !! Z.to_nat n = Some None ∧
    length m' = length (d ++ Ch.nul :: junk) ∧
    drop (S (length d)) m' = junk.
Proof.
  intros Hd Hbuf. unfold SplitWords.split_words.
  set (ws0 := default (replicate (Z.to_nat SplitWords.block_len) None)
                wordsptr).
  assert (Hws0 : 1 < len ws0).
  { unfold ws0. destruct wordsptr as [b|]; simpl; [by apply Hbuf|].
    by vm_compute. }
  edestruct (split_loop_safe isspace d junk Hd
               (length (d ++ Ch.nul :: junk))) as (s & -> & Hs & Ep).
  { split; simpl; try done; try lia.
    pose proof (len_nonneg d). lia. }
  { simpl. rewrite length_app. simpl. unfold len. lia. }
  destruct Hs as [Hpos Hshift Hlen Hrest Hnw Hslot Hws Hmin].
  cbn [mbind option_bind].
  rewrite store_Some.
  2:{ unfold len in *. rewrite Hlen, length_app. simpl. lia. }
  cbn [mbind option_bind].
  rewrite store_ptr_Some by lia. cbn [mbind option_bind].
  eexists _, _, _, _. split; [done|]. split_and!.
  - done.
  - lia.
  - done.
  - unfold len. rewrite length_insert. done.
  - apply list_lookup_insert_eq. unfold len in Hws. lia.
  - by rewrite length_insert.
  - rewrite drop_insert_lt by (unfold len in *; lia).
    rewrite Ep in Hrest. unfold len in Hrest. rewrite Nat2Z.id in Hrest.
    replace (S (length d)) with (length d + 1)%nat by lia.
    rewrite <- drop_drop, Hrest, drop_drop.
    replace (length d + 1)%nat with (length (d ++ [Ch.nul]))
      by (rewrite length_app; simpl; lia).
    rewrite (cons_middle Ch.nul d junk), app_assoc.
    apply drop_app_length.
Qed.

(** * split_words and tokenize *)

Lemma word_at_snoc (p : list byte) (x : byte) (o : Z) (tok : list byte) :
  word_at p o tok → word_at (p ++ [x]) o tok.
Proof.
  intros (Ho & Hlt & Ht & Hn). unfold len in *.
  split; [done|]. split; [rewrite len_app, len_cons, len_nil; unfold len; lia|].
  split.
  - rewrite drop_app_le by lia. rewrite take_app_le; [done|].
    rewrite length_drop. lia.
  - unfold len. rewrite lookup_app_l by lia. done.
Qed.

Lemma words_denote_grow (p : list byte) (x c : byte) starts dn cu :
  words_denote p starts dn cu →
  (cu ≠ None → x = c) →
  words_denote (p ++ [x]) starts dn ((λ t, t ++ [c]) <$> cu).
Proof.
  intros (sd & -> & Hd & Hc) Hx. exists sd.
  assert (Hl : ∀ (l : list byte) y, len (l ++ [y]) = len l + 1).
  { intros l y. unfold len. rewrite length_app. simpl. lia. }
  split; [|split].
  - destruct cu as [t|]; simpl; [|done].
    rewrite !Hl. do 2 f_equal. lia.
  - eapply Forall2_impl; [exact Hd|]. intros o tok. apply word_at_snoc.
  - destruct cu as [t|]; simpl; [|done]. destruct Hc as [H0 Ht].
    rewrite !Hl.
    replace (len p + 1 - (len t + 1)) with (len p - len t) by lia.
    split; [done|].
    rewrite drop_app_le by (unfold len in *; lia).
    rewrite Ht, Hx; done.
Qed.

Lemma words_denote_open (p : list byte) starts dn :
  words_denote p starts dn None →
  words_denote p (starts ++ [len p]) dn (Some []).
Proof.
  intros (sd & -> & Hd & _). exists sd. rewrite app_nil_r, len_nil, Z.sub_0_r.
  split; [done|]. split; [done|]. split; [apply len_nonneg|].
  unfold len. rewrite Nat2Z.id. apply drop_all.
Qed.

Lemma words_denote_close (p : list byte) starts dn t :
  words_denote p starts dn (Some t) →
  words_denote (p ++ [Ch.nul]) starts (dn ++ [t]) None.
Proof.
  intros (sd & -> & Hd & H0 & Ht).
  exists (sd ++ [len p - len t]). rewrite app_nil_r.
  split; [done|]. split; [|done].
  apply Forall2_app.
  - eapply Forall2_impl; [exact Hd|]. intros o tok. apply word_at_snoc.
  - constructor; [|constructor].
    assert (Hlen : len t ≤ len p).
    { lia. }
    split; [done|].
    split; [unfold len; rewrite length_app; simpl; unfold len in *; lia|].
    split.
    + rewrite drop_app_le by (unfold len in *; lia). rewrite Ht.
      by rewrite take_app_length.
    + replace (len p - len t + len t) with (len p) by lia.
      unfold len. rewrite Nat2Z.id. by apply list_lookup_middle.
Qed.

Lemma take_insert_snoc {A} (l : list A) (n : nat) (x : A) :
  (n < length l)%nat → take (S n) (<[n := x]> l) = take n l ++ [x].
Proof.
  intros Hn. rewrite (take_S_r _ _ x).
  - by rewrite take_insert_ge by lia.
  - by apply list_lookup_insert_eq.
Qed.

Lemma split_body_refines (isspace : byte → bool) (m0 : list byte) (n : Z)
    (c : byte) (s : SplitWords.state) (a : Lex.st) (p : list byte)
    (starts : list Z) :
  split_safe m0 n s → SplitWords.pos s < n → n < len m0 →
  split_refines s a p starts → lex_wf a →
  index (SplitWords.mem s) (SplitWords.pos s) = Some c →
  isspace c = isSpace c →
  ∃ s' p' starts',
    SplitWords.body isspace c s = Some s' ∧
    split_refines s' (Lex.step a c) p' starts'.
Proof.
  intros [Hpos Hshift Hlen Hrest Hnw Hslot Hws Hmin] Hlt Hn
    [Rw Rp Rpl Rprev Rquote Rword Rnw Rwords Rden] [Hcur _ _ Hmark] Hc Hsp.
  pose proof (len_nonneg (Lex.out a)) as Hout.
  set (w := SplitWords.pos s - SplitWords.shift s) in *.
  assert (Hm : len (SplitWords.mem s) = len m0) by (unfold len; lia).
  assert (Ep : (SplitWords.previous s =? Simpleio.code Ch.backslash)
               = Lex.esc a).
  { destruct (Lex.esc a) eqn:Ee.
    - apply Z.eqb_eq. by apply Rprev.
    - apply Z.eqb_neq. intros E. apply Rprev in E. done. }
  (* an iteration that deletes the character *)
  assert (Hdel : ∀ m1 ws1 wl1 nw1 prev1 q1 w1 dn cu wa e qu starts',
    take (Z.to_nat w) m1 = p →
    (prev1 = Simpleio.code Ch.backslash ↔ e = true) →
    q1 = quote_code qu → w1 = negb wa → nw1 = len starts' →
    take (Z.to_nat nw1) ws1 = Some <$> starts' →
    words_denote p starts' dn cu →
    ∃ s' p' st',
      Some {| SplitWords.mem := m1; SplitWords.pos := SplitWords.pos s + 1;
              SplitWords.words := ws1; SplitWords.words_len := wl1;
              SplitWords.nwords := nw1; SplitWords.previous := prev1;
              SplitWords.quote := q1;
              SplitWords.shift := SplitWords.shift s + 1;
              SplitWords.word := w1 |} = Some s' ∧
      split_refines s'
        {| Lex.out := Lex.out a; Lex.done := dn; Lex.cur := cu;
           Lex.was := wa; Lex.esc := e; Lex.q := qu |} p' st').
  { intros m1 ws1 wl1 nw1 prev1 q1 w1 dn cu wa e qu starts'
      H1 H3 H4 H5 H6 H7 H8.
    eexists _, p, starts'. split; [done|].
    split; simpl; try done; try (fold w; lia).
    by rewrite <- Rw. }
  (* an iteration that writes the character [x] it reads again *)
  assert (Hwr : ∀ m1 x ws1 wl1 nw1 prev1 q1 w1 dn cu wa e qu starts',
    take (Z.to_nat w) m1 = p → len m1 = len m0 →
    index m1 (SplitWords.pos s) = Some x →
    (prev1 = Simpleio.code Ch.backslash ↔ e = true) →
    q1 = quote_code qu → w1 = negb wa → nw1 = len starts' →
    take (Z.to_nat nw1) ws1 = Some <$> starts' →
    words_denote (p ++ [x]) starts' dn cu →
    ∃ s' p' st',
      (c' ← index m1 (SplitWords.pos s);
       mem2 ← store m1 w c';
       Some {| SplitWords.mem := mem2;
               SplitWords.pos := SplitWords.pos s + 1;
               SplitWords.words := ws1; SplitWords.words_len := wl1;
               SplitWords.nwords := nw1;
               SplitWords.previous := prev1;
               SplitWords.quote := q1;
               SplitWords.shift := SplitWords.shift s;
               SplitWords.word := w1 |}) = Some s' ∧
      split_refines s'
        {| Lex.out := Lex.out a ++ [c]; Lex.done := dn; Lex.cur := cu;
           Lex.was := wa; Lex.esc := e; Lex.q := qu |} p' st').
  { intros m1 x ws1 wl1 nw1 prev1 q1 w1 dn cu wa e qu starts'
      H1 Hl1 Hx H3 H4 H5 H6 H7 H8.
    rewrite Hx. cbn [mbind option_bind].
    rewrite store_Some by lia. cbn [mbind option_bind].
    eexists _, (p ++ [x]), starts'. split; [done|].
    assert (Hlen' : len (Lex.out a ++ [c]) = len (Lex.out a) + 1).
    { unfold len. rewrite length_app. simpl. lia. }
    split; simpl; rewrite ?Hlen'; try done; try (fold w; lia).
    - replace (Z.to_nat (len (Lex.out a) + 1)) with (S (Z.to_nat w)) by lia.
      rewrite take_insert_snoc by (unfold len in *; lia).
      by rewrite H1.
    - unfold len in *. rewrite length_app. simpl. lia. }
  assert (Hmem : take (Z.to_nat w) (SplitWords.mem s) = p).
  { by rewrite Rw. }
  assert (Hcb : Simpleio.code c = Simpleio.code Ch.backslash
                ↔ Byte.eqb c Ch.backslash = true).
  { rewrite <- code_eqb. symmetry. apply Z.eqb_eq. }
  assert (Hm1 : -1 = Simpleio.code Ch.backslash ↔ false = true) by done.
  assert (Hwords0 : take (Z.to_nat (len starts)) (SplitWords.words s)
                    = Some <$> starts).
  { by rewrite <- Rnw. }
  unfold SplitWords.body, Lex.step.
  rewrite Ep, Rquote, quote_code_nul, Rword, Hsp, Rnw. fold w.
  destruct (Lex.esc a) eqn:Ee; cbn [negb andb orb mbind option_bind].
  { (* behind an unescaped backslash: the character is copied *)
    destruct (Byte.eqb c Ch.backslash) eqn:Eb; cbn [mbind option_bind];
      (eapply Hwr; [exact Hmem|exact Hm|exact Hc| |reflexivity|reflexivity
                   |reflexivity|exact Hwords0
                   |by apply words_denote_grow]).
    - done.
    - exact Hcb. }
  destruct (decide (Lex.q a = Ch.nul)) as [Eq|Eq].
  2:{ (* inside quotation marks *)
      rewrite (byte_eqb_ne _ _ Eq).
      assert (Hqc : (quote_code (Lex.q a) =? Simpleio.code c)
                    = Byte.eqb c (Lex.q a)).
      { unfold quote_code. rewrite (byte_eqb_ne _ _ Eq), code_eqb.
        destruct (decide (c = Lex.q a)) as [->|Hne].
        - by rewrite !byte_eqb_refl.
        - rewrite !byte_eqb_ne; done. }
      rewrite Hqc.
      destruct (Byte.eqb c (Lex.q a)) eqn:Ecq; cbn [mbind option_bind].
      - rewrite orb_true_r.
        destruct (Byte.eqb c Ch.backslash) eqn:Eb;
          cbn [mbind option_bind];
          (eapply Hdel; [exact Hmem|exact Hcb|reflexivity|reflexivity
                        |reflexivity|exact Hwords0|exact Rden]).
      - rewrite orb_false_r.
        destruct (Byte.eqb c Ch.backslash) eqn:Eb;
          cbn [mbind option_bind].
        + eapply Hdel; [exact Hmem|exact Hcb|reflexivity|reflexivity
                       |reflexivity|exact Hwords0|exact Rden].
        + eapply Hwr; [exact Hmem|exact Hm|exact Hc|exact Hcb|reflexivity
                      |reflexivity|reflexivity|exact Hwords0
                      |by apply words_denote_grow]. }
  (* outside of quotation marks *)
  rewrite Eq, byte_eqb_refl.
  assert (Hopen : ∀ (q1 : Z) (d2 : bool),
    ∃ (ws2 : list (option Z)) (wl1 : Z),
      (let '(words1, words_len1) :=
         if len starts + 1 =? SplitWords.words_len s
         then (SplitWords.words s
                 ++ replicate (Z.to_nat SplitWords.block_len) None,
               SplitWords.words_len s + SplitWords.block_len)
         else (SplitWords.words s, SplitWords.words_len s) in
       words2 ← SplitWords.store_ptr words1 (len starts) (Some w);
       Some (SplitWords.mem s, words2, words_len1, len starts + 1, q1,
             true, d2))
      = Some (SplitWords.mem s, ws2, wl1, len starts + 1, q1, true, d2) ∧
      take (Z.to_nat (len starts + 1)) ws2 = Some <$> (starts ++ [w])).
  { intros q1 d2.
    assert (Hsn : ∀ ws : list (option Z),
              (length starts < length ws)%nat →
              take (length starts) ws = Some <$> starts →
              take (Z.to_nat (len starts + 1))
                (<[Z.to_nat (len starts) := Some w]> ws)
              = Some <$> (starts ++ [w])).
    { intros ws Hl Ht. unfold len. rewrite Nat2Z.id.
      replace (Z.to_nat (Z.of_nat (length starts) + 1))
        with (S (length starts)) by lia.
      rewrite take_insert_snoc by done. by rewrite Ht, fmap_app. }
    unfold len in Hwords0. rewrite Nat2Z.id in Hwords0.
    destruct (len starts + 1 =? SplitWords.words_len s) eqn:Eg.
    - apply Z.eqb_eq in Eg.
      rewrite store_ptr_Some.
      2:{ unfold len in *. rewrite length_app, length_replicate.
          unfold SplitWords.block_len. lia. }
      cbn [mbind option_bind]. eexists _, _. split; [done|].
      apply Hsn.
      + rewrite length_app. unfold len in *. lia.
      + rewrite take_app_le by (unfold len in *; lia). done.
    - apply Z.eqb_neq in Eg.
      rewrite store_ptr_Some by (pose proof (len_nonneg starts); lia).
      cbn [mbind option_bind]. eexists _, _. split; [done|].
      apply Hsn; [unfold len in *; lia|done]. }
  assert (Hw : w = len p) by lia.
  destruct (Lex.was a) eqn:Ewas, (isSpace c) eqn:Ews;
    cbn [negb andb orb mbind option_bind].
  - (* white space after white space *)
    destruct (isSpace_plain c Ews) as [Hq Hb]. rewrite Hq, Hb in *.
    cbn [negb andb orb mbind option_bind].
    eapply Hwr; [exact Hmem|exact Hm|exact Hc|exact Hcb|reflexivity
                |reflexivity|reflexivity|exact Hwords0
                |by apply words_denote_grow].
  - (* a word begins *)
    assert (Hnone : Lex.cur a = None) by by apply Hcur.
    rewrite Hnone in Rden.
    apply words_denote_open in Rden. rewrite <- Hw in Rden.
    assert (Hl1 : len starts + 1 = len (starts ++ [w])).
    { unfold len. rewrite length_app. simpl. lia. }
    destruct (isQuote c) eqn:Eqc.
    + destruct (Hopen (Simpleio.code c) true) as (ws2 & wl1 & -> & Hws2).
      rewrite (isQuote_not_backslash c Eqc) in *.
      cbn [negb andb orb mbind option_bind].
      eapply (Hdel _ _ _ _ _ _ _ _ _ _ _ _ (starts ++ [w]));
        [exact Hmem|exact Hcb| |reflexivity|exact Hl1
        |exact Hws2|exact Rden].
      unfold quote_code.
      by rewrite (byte_eqb_ne _ _ (isQuote_not_nul _ Eqc)).
    + destruct (Byte.eqb c Ch.backslash) eqn:Eb.
      * destruct (Hopen (quote_code Ch.nul) true) as (ws2 & wl1 & -> & Hws2).
        cbn [negb andb orb mbind option_bind].
        eapply (Hdel _ _ _ _ _ _ _ _ _ _ _ _ (starts ++ [w]));
          [exact Hmem|exact Hcb|reflexivity|reflexivity
          |exact Hl1|exact Hws2|exact Rden].
      * destruct (Hopen (quote_code Ch.nul) false) as (ws2 & wl1 & -> & Hws2).
        cbn [negb andb orb mbind option_bind].
        eapply (Hwr _ _ _ _ _ _ _ _ _ _ _ _ _ (starts ++ [w]));
          [exact Hmem|exact Hm|exact Hc|exact Hcb|reflexivity
          |reflexivity|exact Hl1|exact Hws2
          |by apply words_denote_grow].
  - (* a word ends *)
    destruct (isSpace_plain c Ews) as [Hq Hb]. rewrite Hq, Hb in *.
    destruct (Lex.cur a) as [t|] eqn:Ecur.
    2:{ destruct Hcur as [_ Hcur]. by specialize (Hcur eq_refl). }
    rewrite store_Some by lia.
    cbn [negb andb orb mbind option_bind].
    eapply Hwr; [|
                |apply index_Some; [lia|apply list_lookup_insert_eq;
                                          unfold len in *; lia]
                |exact Hcb|reflexivity
                |reflexivity|reflexivity|exact Hwords0
                |by apply words_denote_close].
    + rewrite take_insert_ge by lia. done.
    + unfold len. rewrite length_insert. done.
  - (* inside a word *)
    destruct (isQuote c) eqn:Eqc.
    + rewrite (isQuote_not_backslash c Eqc) in *.
      cbn [negb andb orb mbind option_bind].
      eapply Hdel; [exact Hmem|exact Hcb| |reflexivity|reflexivity
                   |exact Hwords0|exact Rden].
      unfold quote_code.
      by rewrite (byte_eqb_ne _ _ (isQuote_not_nul _ Eqc)).
    + destruct (Byte.eqb c Ch.backslash) eqn:Eb;
        cbn [negb andb orb mbind option_bind].
      * eapply Hdel; [exact Hmem|exact Hcb|reflexivity|reflexivity
                     |reflexivity|exact Hwords0|exact Rden].
      * eapply Hwr; [exact Hmem|exact Hm|exact Hc|exact Hcb|reflexivity
                    |reflexivity|reflexivity|exact Hwords0
                    |by apply words_denote_grow].
Qed.

Lemma split_loop_refines (isspace : byte → bool) (d junk : list byte) :
  Forall (λ c, c ≠ Ch.nul) d →
  Forall (λ c, isspace c = isSpace c) d →
  ∀ (fuel : nat) (s : SplitWords.state) (a : Lex.st) p starts,
  split_safe (d ++ Ch.nul :: junk) (len d) s →
  split_refines s a p starts → lex_wf a →
  len d - SplitWords.pos s < Z.of_nat fuel →
  ∃ s' p' starts',
    SplitWords.loop isspace fuel s = Some s' ∧
    split_safe (d ++ Ch.nul :: junk) (len d) s' ∧
    SplitWords.pos s' = len d ∧
    split_refines s'
      (Lex.run a (drop (Z.to_nat (SplitWords.pos s)) d)) p' starts'.
Proof.
  intros Hd Hsp. induction fuel as [|fuel IH]; intros s a p starts Hs R Ha Hf.
  { destruct Hs as [Hpos _ _ _ _ _ _ _]. lia. }
  pose proof Hs as [Hpos Hshift Hlen Hrest Hnw Hslot Hws Hmin].
  assert (Hn : len d < len (d ++ Ch.nul :: junk)).
  { rewrite len_app, len_cons. pose proof (len_nonneg junk). lia. }
  assert (Hidx : index (SplitWords.mem s) (SplitWords.pos s)
                 = (d ++ Ch.nul :: junk) !! Z.to_nat (SplitWords.pos s)).
  { unfold index.
    replace (0 <=? SplitWords.pos s) with true
      by (symmetry; apply Z.leb_le; lia).
    replace (SplitWords.pos s <? len (SplitWords.mem s)) with true
      by (symmetry; apply Z.ltb_lt; unfold len in *; lia).
    simpl.
    rewrite <- (Nat.add_0_r (Z.to_nat (SplitWords.pos s))).
    by rewrite <- !lookup_drop, Hrest. }
  cbn [SplitWords.loop]. rewrite Hidx.
  destruct (decide (SplitWords.pos s = len d)) as [Ep|Ep].
  - rewrite Ep. unfold len. rewrite Nat2Z.id, list_lookup_middle by done.
    simpl. rewrite drop_all. simpl. eauto 10.
  - assert (Hlt : SplitWords.pos s < len d) by lia.
    destruct (lookup_lt_is_Some_2 d (Z.to_nat (SplitWords.pos s)))
      as [c Hc]; [unfold len in Hlt; lia|].
    rewrite lookup_app_l by (unfold len in Hlt; lia). rewrite Hc.
    cbn [mbind option_bind].
    rewrite Forall_forall in Hd. rewrite Forall_forall in Hsp.
    pose proof (list_elem_of_lookup_2 _ _ _ Hc) as Hin.
    rewrite (byte_eqb_ne c Ch.nul) by by apply Hd.
    assert (Hc' : index (SplitWords.mem s) (SplitWords.pos s) = Some c).
    { rewrite Hidx. by rewrite lookup_app_l by (unfold len in Hlt; lia). }
    destruct (split_body_safe isspace _ _ c s Hs Hlt Hn)
      as (s1 & E1 & Hs1 & Ep1).
    destruct (split_body_refines isspace _ _ c s a p starts Hs Hlt Hn R Ha Hc'
                (Hsp _ Hin)) as (s1' & p1 & st1 & E1' & R1).
    rewrite E1 in E1'. injection E1' as <-.
    rewrite E1. cbn [mbind option_bind].
    destruct (IH s1 (Lex.step a c) p1 st1 Hs1 R1) as (s' & p' & st' & El & Hs' & Ep' & R');
      [by apply lex_wf_step|lia|].
    exists s', p', st'. split; [done|]. split; [done|]. split; [done|].
    rewrite Ep1 in R'.
    rewrite (drop_S _ c _ Hc).
    replace (Z.to_nat (SplitWords.pos s + 1))
      with (S (Z.to_nat (SplitWords.pos s))) in R' by lia.
    done.
Qed.

Lemma until_nul_app (tok rest : list byte) :
  Forall (λ c, c ≠ Ch.nul) tok →
  SplitWords.until_nul (tok ++ Ch.nul :: rest) = tok.
Proof.
  induction 1 as [|c tok Hc _ IH]; simpl; [done|].
  by rewrite (byte_eqb_ne _ _ Hc), IH.
Qed.

Lemma cstring_word_at (m p : list byte) (o : Z) (tok : list byte) :
  word_at p o tok → Forall (λ c, c ≠ Ch.nul) tok →
  take (length p) m = p →
  SplitWords.cstring m o = tok.
Proof.
  intros (Ho & Hlt & Ht & Hn) Hnul Hp. unfold SplitWords.cstring.
  rewrite <- (take_drop (length p) m), Hp.
  rewrite drop_app_le by (unfold len in *; lia).
  rewrite <- (take_drop (length tok) (drop (Z.to_nat o) p)), Ht.
  rewrite drop_drop.
  assert (Hd : ∃ r, drop (Z.to_nat o + length tok) p = Ch.nul :: r).
  { replace (Z.to_nat (o + len tok)) with (Z.to_nat o + length tok)%nat
      in Hn by (unfold len; lia).
    exists (drop (S (Z.to_nat o + length tok)) p).
    by apply drop_S. }
  destruct Hd as [r ->]. rewrite <- app_assoc. simpl.
  by apply until_nul_app.
Qed.

Lemma lex_no_nul (d : list byte) :
  Forall (λ c, c ≠ Ch.nul) d →
  Forall (Forall (λ c, c ≠ Ch.nul)) (Lex.lex d).
Proof.
  intros Hd. destruct (tokenize_refines d) as (toks & _ & Hr & <-).
  assert (Ho : Forall (λ c, c ≠ Ch.nul) (Lex.out (Lex.run Lex.init d))).
  { rewrite lex_out_decode by apply lex_wf_init. simpl.
    rewrite Forall_forall in Hd |- *. intros c Hc. apply Hd.
    eapply elem_of_sublist; [exact Hc|apply decode_sublist]. }
  apply Forall_fmap. eapply Forall_impl; [exact Hr|].
  intros t _. simpl. unfold bytes_of.
  by apply Forall_take, Forall_drop.
Qed.

Lemma mapM_cstring (m : list byte) (starts : list Z) :
  mapM (λ p : option Z, SplitWords.cstring m <$> p) (Some <$> starts)
  = Some (SplitWords.cstring m <$> starts).
Proof.
  induction starts as [|o starts IH]; [done|].
  cbn [fmap list_fmap mapM]. simpl. by rewrite IH.
Qed.

Lemma split_words_lex (isspace : byte → bool)
    (wordsptr : option (list (option Z))) (d junk : list byte) :
  Forall (λ c, c ≠ Ch.nul) d →
  (∀ buffer, wordsptr = Some buffer → 1 < len buffer) →
  Forall (λ c, isspace c = isSpace c) d →
  ∃ r, SplitWords.split_words isspace wordsptr (d ++ Ch.nul :: junk)
       = Some r ∧
       SplitWords.strings r = Some (Lex.lex d) ∧
       r.1.1.1 = len (Lex.lex d) ∧
       1 < r.1.2 ∧ len r.1.1.2 = r.1.2.
Proof.
  intros Hd Hbuf Hsp. unfold SplitWords.split_words.
  set (ws0 := default (replicate (Z.to_nat SplitWords.block_len) None)
                wordsptr).
  assert (Hws0 : 1 < len ws0).
  { unfold ws0. destruct wordsptr as [b|]; simpl; [by apply Hbuf|].
    by vm_compute. }
  set (s0 := {| SplitWords.mem := d ++ Ch.nul :: junk; SplitWords.pos := 0;
                SplitWords.words := ws0; SplitWords.words_len := len ws0;
                SplitWords.nwords := 0; SplitWords.previous := -1;
                SplitWords.quote := -1; SplitWords.shift := 0;
                SplitWords.word := false |}).
  destruct (split_loop_refines isspace d junk Hd Hsp
              (length (d ++ Ch.nul :: junk)) s0 Lex.init [] [])
    as (s & p & starts & -> & Hs & Ep & R).
  { split; simpl; try done; try lia.
    pose proof (len_nonneg d). lia. }
  { split; simpl; try done.
    - exists []. by split. }
  { apply lex_wf_init. }
  { simpl. rewrite length_app. simpl. unfold len. lia. }
  simpl in R. rewrite drop_0 in R.
  set (a := Lex.run Lex.init d) in *.
  destruct Hs as [Hpos Hshift Hlen Hrest Hnw Hslot Hws Hmin].
  destruct R as [Rw Rp Rpl Rprev Rquote Rword Rnw Rwords Rden].
  pose proof (len_nonneg (Lex.out a)) as Hout.
  cbn [mbind option_bind].
  rewrite store_Some.
  2:{ unfold len in *. rewrite Hlen, length_app. simpl. lia. }
  cbn [mbind option_bind].
  rewrite store_ptr_Some by lia. cbn [mbind option_bind].
  eexists. split; [done|].
  set (m' := <[Z.to_nat (SplitWords.pos s - SplitWords.shift s) := Ch.nul]>
               (SplitWords.mem s)).
  assert (Hp' : take (length (p ++ [Ch.nul])) m' = p ++ [Ch.nul]).
  { rewrite length_app. simpl.
    replace (length p + 1)%nat
      with (S (Z.to_nat (SplitWords.pos s - SplitWords.shift s)))
      by (unfold len in *; lia).
    unfold m'. rewrite take_insert_snoc.
    - by rewrite Rw, Rp.
    - rewrite Hlen, length_app. simpl. unfold len in *. lia. }
  assert (Hall : Forall2 (word_at (p ++ [Ch.nul])) starts (Lex.lex d)).
  { unfold Lex.lex, Lex.finish. fold a.
    destruct (Lex.cur a) as [t|] eqn:Ec.
    - apply words_denote_close in Rden.
      destruct Rden as (sd & -> & Hf & _). by rewrite app_nil_r.
    - apply (words_denote_grow _ Ch.nul Ch.nul) in Rden; [|done].
      destruct Rden as (sd & -> & Hf & _). by rewrite app_nil_r. }
  pose proof (lex_no_nul d Hd) as Hnn.
  cbn [fst snd]. split_and!.
  - unfold SplitWords.strings.
    rewrite take_insert_ge by lia. rewrite Rwords, mapM_cstring. f_equal.
    fold m'. clear -Hall Hnn Hp'. revert Hnn.
    induction Hall as [|o tok starts toks Hw Hall IH]; intros Hnn; [done|].
    apply Forall_cons in Hnn as [Hn1 Hnn].
    cbn [fmap list_fmap]. f_equal.
    + by eapply cstring_word_at.
    + by apply IH.
  - rewrite Rnw. unfold len. f_equal. by eapply Forall2_length.
  - done.
  - unfold len. rewrite length_insert. done.
Qed.

(** X23: [split_words] and [tokenize] split alike. On a string without
    a zero byte before its end, and when [isspace] is true of the bytes of
    the string that [unicode.IsSpace] holds for white space, the words that
    [split_words] returns, read as strings from the memory it leaves, are
    the tokens that [tokenize] returns for the same bytes. *)
Theorem X23_split_words_agrees_with_tokenize (isspace : byte → bool)
    (wordsptr : option (list (option Z))) (d junk : list byte) :
  Forall (λ c, c ≠ Ch.nul) d →
  (∀ buffer, wordsptr = Some buffer → 1 < len buffer) →
  Forall (λ c, isspace c = isSpace c) d →
  ∃ r, SplitWords.split_words isspace wordsptr (d ++ Ch.nul :: junk)
       = Some r ∧
       SplitWords.strings r = tokenize_strings d.
Proof.
  intros Hd Hbuf Hsp.
  destruct (split_words_lex isspace wordsptr d junk Hd Hbuf Hsp)
    as (r & E & Hr & _).
  exists r. split; [done|]. by rewrite tokenize_strings_lex.
Qed.

Lemma X22_witness :
  ∃ n ws wl m',
    SplitWords.split_words SplitWords.isspace_ascii None
      (B "a 'b c' d" ++ Ch.nul :: B "xyz")
    = Some (n, ws, wl, m') ∧
    0 ≤ n < wl ∧ 1 < wl ∧ len ws = wl ∧ ws !! Z.to_nat n = Some None ∧
    length m' = length (B "a 'b c' d" ++ Ch.nul :: B "xyz") ∧
    drop (S (length (B "a 'b c' d"))) m' = B "xyz".
Proof.
  apply (X22_split_words_is_memory_safe SplitWords.isspace_ascii None
           (B "a 'b c' d") (B "xyz")).
  - repeat (apply Forall_cons; split; [done|]). apply Forall_nil_2.
  - intros buffer [=].
Defined.

Lemma X23_witness :
  ∃ r, SplitWords.split_words SplitWords.isspace_ascii None
         (B "a\ b  'c d'e" ++ Ch.nul :: B "xyz") = Some r ∧
       SplitWords.strings r = tokenize_strings (B "a\ b  'c d'e").
Proof.
  apply (X23_split_words_agrees_with_tokenize SplitWords.isspace_ascii None
           (B "a\ b  'c d'e") (B "xyz")).
  - repeat (apply Forall_cons; split; [done|]). apply Forall_nil_2.
  - intros buffer [=].
  - repeat (apply Forall_cons; split; [done|]). apply Forall_nil_2.
Defined.

(** The words of the example of [split_words] above. *)
Example split_words_example :
  (SplitWords.split_words SplitWords.isspace_ascii None
     (B "a\ b  'c d'e" ++ Ch.nul :: B "xyz")) ≫= SplitWords.strings
  = Some [B "a b"; B "c de"].
Proof. vm_compute. reflexivity. Qed.

(** * A line in the C library and in the Go package *)

Lemma lex_closed_space (l : list byte) (ws : byte) :
  Lex.esc (Lex.run Lex.init l) = false →
  Lex.q (Lex.run Lex.init l) = Ch.nul →
  isSpace ws = true →
  Lex.lex (l ++ [ws]) = Lex.lex l.
Proof.
  intros He Hq Hs. rewrite (lex_app_space l [] ws He Hq Hs).
  by rewrite app_nil_r.
Qed.

(** X24: a line in the C library and in the Go package. When a call of
    [simple_fgetline], on a buffer of more than one byte as it asserts,
    returns a line, the terminating zero inside of the buffer, the words that [split_words] finds in the buffer, whatever it
    holds behind the terminating zero, are the tokens that [tokenize]
    finds in the first line of [scanLines] in what [lineReader.Read]
    leaves of the stream, provided that the stream holds no zero byte,
    that [isspace] is true of its bytes that [unicode.IsSpace] holds for
    white space, and that, if [scanLines] has dropped a carriage return,
    the line before it has no escape pending and no quotation open. *)
Theorem X24_C_and_Go_split_a_line_alike (isspace : byte → bool)
    (size : option Z) (stream line rest junk r tok : list byte)
    (bufsize adv : Z) (s : tstate) :
  (∀ z, size = Some z → 1 < z) →
  Fgetline.simple_fgetline size stream
  = Some (Fgetline.Line line bufsize rest) →
  Forall (λ c, c ≠ Ch.nul) stream →
  Forall (λ c, isspace c = isSpace c) stream →
  LineReader.Read stream = Some r →
  scanLines r true = (adv, Some tok) →
  tokenize_at tok (length tok) = Some s →
  (tok ++ [Ch.cr] `prefix_of` r → escaped s = false ∧ quote s = Ch.nul) →
  ∃ res,
    SplitWords.split_words isspace None (line ++ Ch.nul :: junk)
    = Some res ∧
    SplitWords.strings res = tokenize_strings tok.
Proof.
  intros _ Hget Hnul Hsp Hr Hscan Hs Hcr. apply fgetline_Line in Hget.
  rewrite Read_cont in Hr. injection Hr as <-.
  set (r := Cont.out (Cont.run Cont.init stream)) in *.
  assert (Hsub : sublist r stream).
  { apply (cont_run_sublist stream Cont.init). }
  rewrite <- (app_nil_r tok) in Hs at 1.
  apply tokenize_at_inv in Hs as [[_ _ _ _ _ _ Re Rq] _].
  assert (Hdrop : ∀ t, tok = dropCR t → t `prefix_of` r →
            Lex.lex t = Lex.lex tok).
  { intros t -> Hpre. destruct (dropCR_spec t) as [E|[E _]]; [|by rewrite E].
    rewrite E at 1. rewrite E in Hpre.
    destruct (Hcr Hpre) as [He Hq].
    apply lex_closed_space; [congruence|congruence|done]. }
  assert (Hline : sublist line r →
            Lex.lex line = Lex.lex tok →
            ∃ res,
              SplitWords.split_words isspace None (line ++ Ch.nul :: junk)
              = Some res ∧
              SplitWords.strings res = tokenize_strings tok).
  { intros Hl El.
    assert (Hin : ∀ c, c ∈ line → c ∈ stream).
    { intros c Hc. eapply elem_of_sublist; [|exact Hsub].
      eapply elem_of_sublist; [exact Hc|exact Hl]. }
    rewrite Forall_forall in Hnul. rewrite Forall_forall in Hsp.
    destruct (split_words_lex isspace None line junk)
      as (res & E & Hres & _).
    - apply Forall_forall. intros c Hc. by apply Hnul, Hin.
    - by intros buffer [=].
    - apply Forall_forall. intros c Hc. by apply Hsp, Hin.
    - exists res. split; [done|]. by rewrite Hres, tokenize_strings_lex, El. }
  destruct (fgetline_first_line stream)
    as [(t & rest' & Ef & Er & Hst & Hsc)|[Ef Hsc]].
  - rewrite Hget in Ef. injection Ef as -> ->.
    fold r in Er, Hsc. rewrite Hscan in Hsc. injection Hsc as -> Htok.
    destruct (scanLines_loop_lex t Lex.init 0 _ _ Hst) as [He Hq].
    apply Hline.
    + assert (Er' : r = (t ++ [Ch.nl])
                        ++ Cont.out (Cont.run Cont.init rest')).
      { rewrite Er, <- app_assoc. done. }
      rewrite Er'. apply sublist_inserts_r. reflexivity.
    + rewrite (lex_closed_space t Ch.nl He Hq eq_refl).
      apply Hdrop; [done|]. rewrite Er. by apply prefix_app_r.
  - rewrite Hget in Ef. injection Ef as -> ->.
    fold r in Hsc, Hline |- *. rewrite Hscan in Hsc.
    injection Hsc as -> Htok.
    destruct r as [|b r'] eqn:Er; [done|]. injection Htok as Htok.
    apply Hline; [reflexivity|by apply Hdrop].
Qed.

Lemma X24_witness :
  ∃ res,
    SplitWords.split_words SplitWords.isspace_ascii None
      ((B "a 'b" ++ Ch.nl :: B "c' d" ++ [Ch.cr; Ch.nl])
       ++ Ch.nul :: B "xyz") = Some res ∧
    SplitWords.strings res = tokenize_strings (B "a 'b" ++ Ch.nl :: B "c' d").
Proof.
  eapply (X24_C_and_Go_split_a_line_alike SplitWords.isspace_ascii None
            (B "a 'b" ++ Ch.nl :: B "c' d" ++ Ch.cr :: Ch.nl :: B "e")
            (B "a 'b" ++ Ch.nl :: B "c' d" ++ [Ch.cr; Ch.nl]) (B "e")
            (B "xyz") _ _ 128).
  - by intros z.
  - vm_compute. reflexivity.
  - repeat (apply Forall_cons; split; [done|]). apply Forall_nil_2.
  - repeat (apply Forall_cons; split; [done|]). apply Forall_nil_2.
  - vm_compute. reflexivity.
  - vm_compute. reflexivity.
  - vm_compute. reflexivity.
  - done.
Defined.

(** * foreach_line and the lines of the Go package *)

Lemma simpleio_loop_rest (stream : list byte) : ∀ s,
  (length (Simpleio.loop stream s).2 ≤ length stream - 1)%nat.
Proof.
  induction stream as [|c stream IH]; intros s; simpl; [lia|].
  destruct (Simpleio.body c s) as [s1 stop]. destruct stop; simpl; [lia|].
  specialize (IH s1). lia.
Qed.

Lemma scan_first_not_newline (t : list byte) (e : bool) (q : byte) :
  scanLines_loop t 0 false Ch.nul = Fallthrough e q →
  t !! 0%nat ≠ Some Ch.nl.
Proof.
  destruct t as [|c t]; [done|]. simpl.
  destruct (decide (c = Ch.nl)) as [->|Hc]; [done|].
  intros _ [= ->]. done.
Qed.

Lemma no_cr_dropCR (l : list byte) :
  Forall (λ c, c ≠ Ch.cr) l → dropCR l = l.
Proof.
  intros Hl. apply dropCR_keep. intros Hlast.
  apply last_Some in Hlast as [l' ->].
  apply Forall_app in Hl as [_ Hl].
  inversion Hl as [|? ? Hc _]. by apply Hc.
Qed.

Lemma fgetline_loop_size (stream : list byte) :
  ∀ s bufsize s' bufsize' rest,
  Fgetline.loop stream s bufsize = Some (s', bufsize', rest) →
  (∃ k, 1 ≤ k ∧ bufsize = Fgetline.block_size * k) →
  ∃ k, 1 ≤ k ∧ bufsize' = Fgetline.block_size * k.
Proof.
  induction stream as [|c stream IH]; intros s bufsize s' bufsize' rest.
  { simpl. by intros [= _ <- _]. }
  cbn [Fgetline.loop]. intros E (k & Hk & ->).
  set (b1 := if Simpleio.i s =? _ then _ else _) in E.
  assert (Hb1 : ∃ k1, 1 ≤ k1 ∧ b1 = Fgetline.block_size * k1).
  { unfold b1. destruct (Simpleio.i s =? _).
    - exists (k + 1). lia.
    - by exists k. }
  destruct ((0 <=? Simpleio.i s) && (Simpleio.i s <? b1)); [|done].
  destruct (Simpleio.body c s) as [s1 stop]. destruct stop.
  - by injection E as _ <- _.
  - by eapply IH.
Qed.

Lemma fgetline_off_block (size : option Z) (stream line rest : list byte) :
  blocks size →
  Simpleio.simple_fgetline stream = (line, rest) →
  len line = 0 ∨ len line mod Fgetline.block_size ≠ 0 →
  ∃ bufsize,
    Fgetline.simple_fgetline size stream
    = Some (Fgetline.Line line bufsize rest) ∧
    blocks (Some bufsize).
Proof.
  intros Hsize Ef Hline.
  assert (H0 : ∃ k, 1 ≤ k ∧
            default Fgetline.block_size size = Fgetline.block_size * k).
  { destruct size as [z|]; simpl; [by apply Hsize|]. exists 1. lia. }
  destruct (fgetline_loop_inv stream
              {| Simpleio.buf := []; Simpleio.i := 0;
                 Simpleio.previous := -1; Simpleio.quote := -1 |}
              (default Fgetline.block_size size))
    as (s & bufsize & rest' & El & Es & [Hlo Hhi Hbuf _] & _).
  { destruct H0 as (k & Hk & ->). unfold Fgetline.block_size.
    split; simpl; try done; lia. }
  destruct (fgetline_loop_size _ _ _ _ _ _ El H0) as (k & Hk & Ek).
  unfold Simpleio.simple_fgetline in Ef. rewrite Es in Ef.
  injection Ef as <- <-.
  assert (Hlen : len (take (Z.to_nat (Simpleio.i s)) (Simpleio.buf s))
                 = Simpleio.i s).
  { unfold len in *. rewrite length_take. lia. }
  rewrite Hlen in Hline.
  exists bufsize. split; [|intros z [= <-]; by exists k].
  unfold Fgetline.simple_fgetline. rewrite El. cbn [mbind option_bind].
  replace (0 <=? Simpleio.i s) with true by (symmetry; by apply Z.leb_le).
  replace (Simpleio.i s <? bufsize) with true; [done|].
  symmetry. apply Z.ltb_lt.
  destruct (decide (Simpleio.i s = bufsize)) as [Ei|]; [|lia].
  unfold Fgetline.block_size in *.
  destruct Hline as [Hz|Hm]; [lia|].
  destruct Hm. rewrite Ei, Ek, Z.mul_comm. apply Z_mod_mult.
Qed.

(** Every line takes at least one byte, so as many rounds as there are
    bytes, and one more, cut the data to its end. *)
Lemma cut_lines_total (fuel : nat) : ∀ d,
  (length d < fuel)%nat → ∃ lines, cut_lines fuel d = Some lines.
Proof.
  induction fuel as [|fuel IH]; intros d Hfuel; [lia|].
  simpl. destruct (scanLines d true) as [adv [tok|]] eqn:Es;
    [|by eexists].
  apply scanLines_advance in Es. unfold len in Es.
  destruct (IH (drop (Z.to_nat adv) d)) as [lines ->].
  { rewrite length_drop. lia. }
  by eexists.
Qed.

Lemma cut_lines_more_fuel (fuel : nat) : ∀ d lines (fuel' : nat),
  cut_lines fuel d = Some lines → (fuel ≤ fuel')%nat →
  cut_lines fuel' d = Some lines.
Proof.
  induction fuel as [|fuel IH]; intros d lines fuel' H Hle; [done|].
  destruct fuel' as [|fuel']; [lia|].
  simpl in *.
  destruct (scanLines d true) as [adv [tok|]]; [|done].
  destruct (cut_lines fuel _) as [ls|] eqn:Es; [|done].
  rewrite (IH _ ls fuel' Es) by lia. done.
Qed.

(** The lines of a stream are there, whatever the stream. *)
Lemma lines_of_total (stream : list byte) :
  ∃ lines, lines_of stream = Some lines.
Proof.
  unfold lines_of. rewrite Read_cont. cbn [mbind option_bind].
  apply cut_lines_total. lia.
Qed.

Section Foreach.

Variable isspace : byte → bool.
Variable func : list (list byte) → Z.
Variable prefix : list byte.
Variable n : Z.
Variable ndebug : bool.

(** The events and the status that [foreach_line] is to give for the
    lines of [scanLines]. *)
Let events (lines : list (list byte)) : list Sio.event :=
  map (λ l, (Sio.dispatch func prefix n (Lex.lex l)).1)
    (filter (λ l, nonempty l = true) lines).

Let status_of (status : Z) (lines : list (list byte)) : Z :=
  foldl (λ st l, Z.lor st (Sio.dispatch func prefix n (Lex.lex l)).2)
    status (filter (λ l, nonempty l = true) lines).

Lemma foreach_body_lex (wordsptr : option (list (option Z)))
    (line : list byte) :
  Forall (λ c, c ≠ Ch.nul) line →
  Forall (λ c, isspace c = isSpace c) line →
  (∀ buffer, wordsptr = Some buffer → 1 < len buffer) →
  ∃ wordsptr',
    Sio.foreach_body isspace func prefix n ndebug wordsptr line
    = Sio.Done (Sio.dispatch func prefix n (Lex.lex line), wordsptr') ∧
    (∀ buffer, wordsptr' = Some buffer → 1 < len buffer).
Proof.
  intros Hnul Hsp Hbuf. unfold Sio.foreach_body.
  replace (Sio.assertion ndebug _) with true.
  2:{ symmetry. unfold Sio.assertion. apply orb_true_iff. right.
      destruct wordsptr as [buffer|]; [|done].
      apply Z.ltb_lt. by apply Hbuf. }
  cbn [negb].
  destruct (split_words_lex isspace wordsptr line [] Hnul Hbuf Hsp)
    as ([[[nw ws] wl] m] & -> & Hstr & Hn & Hwl & Hws).
  simpl in Hn, Hwl, Hws. rewrite Hstr.
  subst nw. unfold Sio.dispatch.
  destruct ((0 <? n) && (len (Lex.lex line) <? n)); [|
    destruct ((0 <? n) && (n <? len (Lex.lex line)))];
    (eexists; split; [done|]);
    (intros buffer Hb; destruct (_ <? wl); [done|];
     injection Hb as <-; lia).
Qed.

Lemma foreach_loop_lines (fuel : nat) :
  ∀ (stream : list byte) (buf : bool) (bufsize : Z)
    (wordsptr : option (list (option Z))) (status : Z),
  (length stream < fuel)%nat →
  Forall (λ c, c ≠ Ch.nul) stream →
  Forall (λ c, c ≠ Ch.cr) stream →
  Forall (λ c, isspace c = isSpace c) stream →
  Sio.assertion ndebug (1 <? bufsize) = true →
  blocks (if buf then Some bufsize else None) →
  (∀ buffer, wordsptr = Some buffer → 1 < len buffer) →
  let r := Cont.out (Cont.run Cont.init stream) in
  ∃ lines,
    cut_lines (S (length r)) r = Some lines ∧
    (Forall off_block lines →
     Sio.foreach_loop isspace func prefix n ndebug fuel stream buf bufsize
       wordsptr status
     = Some (events lines, Sio.Done (status_of status lines))).
Proof.
  induction fuel as [|fuel IH];
    intros stream buf bufsize wordsptr status Hf Hnul Hcr Hsp Hassert
      Hsize Hbuf r; [lia|].
  destruct (decide (stream = [])) as [->|Hne].
  { exists []. split; [done|]. intros _. simpl. by rewrite Hassert. }
  assert (Hpos : (0 < length stream)%nat).
  { destruct stream; [done|simpl; lia]. }
  assert (Hloop : ∀ line size rest,
    Fgetline.simple_fgetline (if buf then Some bufsize else None) stream
    = Some (Fgetline.Line line size rest) →
    Sio.foreach_loop isspace func prefix n ndebug (S fuel) stream buf
      bufsize wordsptr status
    = if len line =? 0 then Some ([], Sio.Done status)
      else if bool_decide (line !! 0%nat = Some Ch.nl) then
        Sio.foreach_loop isspace func prefix n ndebug fuel rest true size
          wordsptr status
      else
        match Sio.foreach_body isspace func prefix n ndebug wordsptr
                line with
        | Sio.Aborted => Some ([], Sio.Aborted)
        | Sio.Fault => Some ([], Sio.Fault)
        | Sio.Done (ev, st, wordsptr') =>
            '(evs, o) ←
              Sio.foreach_loop isspace func prefix n ndebug fuel rest
                (negb (Sio.MAX_BUFSIZE <? size)) size wordsptr'
                (Z.lor status st);
            Some (ev :: evs, o)
        end).
  { intros line size rest E. destruct stream; [done|].
    cbn [Sio.foreach_loop]. by rewrite Hassert, E. }
  assert (Hgrown : ∀ size, blocks (Some size) →
            Sio.assertion ndebug (1 <? size) = true ∧
            ∀ b : bool, blocks (if b then Some size else None)).
  { intros size Hs. destruct (Hs size eq_refl) as (k & Hk & ->). split.
    - unfold Sio.assertion. apply orb_true_iff. right. apply Z.ltb_lt.
      unfold Fgetline.block_size. lia.
    - intros [|]; [done|]. by intros z. }
  assert (Hsub : sublist r stream).
  { apply (cont_run_sublist stream Cont.init). }
  assert (Hall : ∀ (P : byte → Prop) l,
            Forall P stream → sublist l r → Forall P l).
  { intros P l HP Hl. rewrite Forall_forall in HP |- *. intros c Hc.
    apply HP. eapply elem_of_sublist; [|exact Hsub].
    eapply elem_of_sublist; [exact Hc|exact Hl]. }
  assert (Hshort : (length (Simpleio.simple_fgetline stream).2
                    < length stream)%nat).
  { unfold Simpleio.simple_fgetline.
    pose proof (simpleio_loop_rest stream
                  {| Simpleio.buf := []; Simpleio.i := 0;
                     Simpleio.previous := -1; Simpleio.quote := -1 |}) as H.
    destruct (Simpleio.loop stream _) as [s' rest]. simpl in *. lia. }
  destruct (fgetline_first_line stream)
    as [(t & rest & Ef & Er & Hst & Hsc)|[Ef Hsc]].
  - (* a line that a newline ends *)
    fold r in Er, Hsc. rewrite Ef in Hshort. simpl in Hshort.
    set (R' := Cont.out (Cont.run Cont.init rest)) in *.
    assert (Er' : r = (t ++ [Ch.nl]) ++ R') by by rewrite Er, <- app_assoc.
    assert (Ht : sublist t r).
    { rewrite Er. by apply sublist_inserts_r. }
    assert (Htl : sublist (t ++ [Ch.nl]) r).
    { rewrite Er'. by apply sublist_inserts_r. }
    assert (Hrest : ∀ P : byte → Prop, Forall P stream → Forall P rest).
    { intros P HP.
      pose proof (fgetline_loop_refines stream
                    {| Simpleio.buf := []; Simpleio.i := 0;
                       Simpleio.previous := -1; Simpleio.quote := -1 |}
                    Cont.init Ch.nul) as Hl.
      unfold Simpleio.simple_fgetline in Ef.
      destruct (Simpleio.loop stream _) as [s' rest'] eqn:El.
      injection Ef as _ ->. simpl in Hl.
      destruct Hl as [[-> _]|(pre & E & _)].
      - split; simpl; try done. by left.
      - done.
      - rewrite E in HP. apply Forall_app in HP as [_ HP].
        by apply Forall_cons in HP as [_ HP]. }
    rewrite (no_cr_dropCR t) in Hsc by (by apply Hall).
    assert (Hscan : ∀ lines',
              cut_lines (S (length R')) R' = Some lines' →
              cut_lines (S (length r)) r = Some (t :: lines')).
    { intros lines' E. cbn [cut_lines]. rewrite Hsc.
      replace (Z.to_nat (len t + 1)) with (length (t ++ [Ch.nl]))
        by (rewrite length_app; unfold len; simpl; lia).
      assert (Hdrop : drop (length (t ++ [Ch.nl])) r = R').
      { rewrite Er'. apply drop_app_length. }
      rewrite Hdrop.
      rewrite (cut_lines_more_fuel _ _ _ (length r) E); [done|].
      rewrite Er', !length_app. simpl. lia. }
    assert (Hlen : len (t ++ [Ch.nl]) = len t + 1).
    { unfold len. rewrite length_app. simpl. lia. }
    assert (Hget : off_block t →
              ∃ size,
                Fgetline.simple_fgetline
                  (if buf then Some bufsize else None) stream
                = Some (Fgetline.Line (t ++ [Ch.nl]) size rest) ∧
                blocks (Some size)).
    { intros Hoff. apply fgetline_off_block; [done..|].
      right. rewrite Hlen. destruct Hoff as [->|[_ H]]; [done|done]. }
    assert (Hb0 : blocks (Some Fgetline.block_size)).
    { intros z [= <-]. exists 1. lia. }
    destruct t as [|c t'] eqn:Et.
    + (* an empty line is skipped *)
      destruct (IH rest true Fgetline.block_size wordsptr status)
        as (lines' & E & _);
        [lia|by apply Hrest..|by apply Hgrown|done|done|].
      exists ([] :: lines'). split; [by apply Hscan|].
      intros Hoff. apply Forall_cons in Hoff as [Hoff Hoffs].
      destruct (Hget Hoff) as (size & Eg & Hsz).
      rewrite (Hloop _ _ _ Eg).
      rewrite bool_decide_eq_true_2 by done.
      destruct (Hgrown size Hsz) as [Has Hbs].
      destruct (IH rest true size wordsptr status)
        as (lines'' & E' & El);
        [lia|by apply Hrest..|done|done|done|].
      rewrite E in E'. injection E' as <-.
      rewrite El by done. done.
    + rewrite <- Et in *.
      destruct (foreach_body_lex wordsptr (t ++ [Ch.nl]))
        as (wordsptr' & Eb & Hbuf'); [by apply Hall..|done|].
      destruct (scanLines_loop_lex t Lex.init 0 _ _ Hst) as [He Hq].
      rewrite (lex_closed_space t Ch.nl He Hq eq_refl) in Eb.
      set (ds := Sio.dispatch func prefix n (Lex.lex t)) in *.
      destruct (IH rest true Fgetline.block_size wordsptr'
                  (Z.lor status ds.2))
        as (lines' & E & _);
        [lia|by apply Hrest..|by apply Hgrown|done|done|].
      exists (t :: lines'). split; [by apply Hscan|].
      intros Hoff. apply Forall_cons in Hoff as [Hoff Hoffs].
      destruct (Hget Hoff) as (size & Eg & Hsz).
      rewrite (Hloop _ _ _ Eg).
      replace (len (t ++ [Ch.nl]) =? 0) with false.
      2:{ symmetry. apply Z.eqb_neq. pose proof (len_nonneg t). lia. }
      rewrite bool_decide_eq_false_2.
      2:{ rewrite lookup_app_l by (rewrite Et; simpl; lia).
          by eapply scan_first_not_newline. }
      rewrite Eb.
      destruct (Hgrown size Hsz) as [Has Hbs].
      destruct ds as [ev st] eqn:Eds.
      destruct (IH rest (negb (Sio.MAX_BUFSIZE <? size)) size wordsptr'
                  (Z.lor status st))
        as (lines'' & E' & El);
        [lia|by apply Hrest..|done|by apply Hbs|done|].
      rewrite E in E'. injection E' as <-.
      rewrite El by done.
      cbn [mbind option_bind].
      unfold events, status_of.
      rewrite !filter_cons_True by (by rewrite Et).
      simpl. fold ds. by rewrite Eds.
  - (* the rest of the stream *)
    fold r in Ef, Hsc. rewrite Ef in Hshort. simpl in Hshort.
    destruct r as [|b r'] eqn:Er.
    { exists []. split; [done|]. intros _.
      destruct (fgetline_off_block (if buf then Some bufsize else None)
                  stream [] [])
        as (size & Eg & _); [done|done|by left|].
      by rewrite (Hloop _ _ _ Eg). }
    rewrite <- Er in *.
    rewrite (no_cr_dropCR r) in Hsc by (by apply Hall).
    assert (Hr1 : r ≠ []) by by rewrite Er.
    assert (Hscanr : scanLines r true = (len r, Some r)).
    { by rewrite Hsc, Er. }
    assert (Hnl : r !! 0%nat ≠ Some Ch.nl).
    { intros Hnl. rewrite Er in Hnl. simpl in Hnl. injection Hnl as ->.
      rewrite scanLines_nonempty in Hscanr by done.
      rewrite Er in Hscanr. simpl in Hscanr.
      injection Hscanr as H1 H2. by vm_compute in H2. }
    destruct (foreach_body_lex wordsptr r)
      as (wordsptr' & Eb & Hbuf'); [by apply Hall..|done|].
    exists [r]. split.
    + cbn [cut_lines]. rewrite Hscanr. unfold len.
      rewrite Nat2Z.id, drop_all. rewrite Er. simpl. done.
    + intros Hoff. apply Forall_cons in Hoff as [[Hoff|[Hoff _]] _];
        [done|].
      destruct (fgetline_off_block (if buf then Some bufsize else None)
                  stream r [])
        as (size & Eg & Hsz); [done|done|by right|].
      rewrite (Hloop _ _ _ Eg).
      replace (len r =? 0) with false.
      2:{ symmetry. apply Z.eqb_neq. unfold len. rewrite Er. simpl. lia. }
      rewrite bool_decide_eq_false_2 by done.
      rewrite Eb.
      destruct (Hgrown size Hsz) as [Has Hbs].
      destruct fuel as [|fuel']; [lia|].
      destruct (Sio.dispatch func prefix n (Lex.lex r)) as [ev st] eqn:Eds.
      cbn [Sio.foreach_loop]. rewrite Has. cbn [negb mbind option_bind].
      unfold events, status_of.
      rewrite filter_cons_True by (by rewrite Er).
      simpl. by rewrite Eds.
Qed.

Lemma mapM_tokenize_strings (ls : list (list byte)) :
  mapM tokenize_strings ls = Some (map Lex.lex ls).
Proof.
  induction ls as [|l ls IH]; [done|].
  cbn [mapM]. by rewrite tokenize_strings_lex, IH.
Qed.

(** The assertions of [foreach_line] and of the first call of
    [simple_fgetline] hold, or they are compiled out. *)
Lemma assertions_hold (garbage : Z) :
  ndebug = true ∨ 0 ≤ n ∧ 1 < garbage →
  Sio.assertion ndebug (0 <=? n) = true ∧
  Sio.assertion ndebug (1 <? garbage) = true.
Proof.
  unfold Sio.assertion. intros [->|[Hn Hg]]; [done|].
  split; apply orb_true_iff; right; [by apply Z.leb_le|by apply Z.ltb_lt].
Qed.

Lemma foreach_line_lex (garbage : Z) (stream : list byte)
    (lines : list (list byte)) :
  ndebug = true ∨ 0 ≤ n ∧ 1 < garbage →
  Forall (λ c, c ≠ Ch.nul) stream →
  Forall (λ c, c ≠ Ch.cr) stream →
  Forall (λ c, isspace c = isSpace c) stream →
  lines_of stream = Some lines →
  Forall off_block lines →
  Sio.foreach_line isspace func prefix n ndebug garbage stream
  = Some (map (λ l, (Sio.dispatch func prefix n (Lex.lex l)).1)
            (filter (λ l, nonempty l = true) lines),
          Sio.Done
            (foldl (λ st l,
                      Z.lor st (Sio.dispatch func prefix n (Lex.lex l)).2)
               0 (filter (λ l, nonempty l = true) lines))).
Proof.
  intros Ha Hnul Hcr Hsp Hl Hoff.
  destruct (assertions_hold garbage Ha) as [Hn Hg].
  unfold lines_of in Hl. rewrite Read_cont in Hl.
  cbn [mbind option_bind] in Hl.
  destruct (foreach_loop_lines (S (length stream)) stream false garbage
              None 0)
    as (lines' & Hscan' & El); try done; [lia|].
  rewrite Hl in Hscan'. injection Hscan' as <-.
  unfold Sio.foreach_line. rewrite Hn. cbn [negb]. by rewrite El.
Qed.

(** X25: [foreach_line] and the lines of the Go package. Take a stream
    without zero bytes and carriage returns, of whose bytes [isspace] is
    true where [unicode.IsSpace] holds for white space, and the lines
    that [lineReader.Read] and [scanLines] make of it when it is read at
    once and scanned to its end; let none of them be as long as a
    multiple of [block_size], nor one byte less, unless it is empty; and
    let the assertions be compiled out, or [n] be at least zero and the
    value that [bufsize] has without being set be more than one. Then
    [foreach_line] returns, and it has handled these lines in their
    order, the empty ones left out: the words of each are the tokens of
    [tokenize], which go to [func] or, when they are not [n] and [n] is
    not zero, give an error; the status is the bitwise or of what the
    lines have given. *)
Theorem X25_foreach_line_handles_the_lines (garbage : Z)
    (stream : list byte) (lines : list (list byte)) :
  ndebug = true ∨ 0 ≤ n ∧ 1 < garbage →
  Forall (λ c, c ≠ Ch.nul) stream →
  Forall (λ c, c ≠ Ch.cr) stream →
  Forall (λ c, isspace c = isSpace c) stream →
  lines_of stream = Some lines →
  Forall off_block lines →
  ∃ tokss,
    mapM tokenize_strings (filter (λ l, nonempty l = true) lines)
    = Some tokss ∧
    Sio.foreach_line isspace func prefix n ndebug garbage stream
    = Some (map (λ ws, (Sio.dispatch func prefix n ws).1) tokss,
            Sio.Done
              (foldl (λ st ws, Z.lor st (Sio.dispatch func prefix n ws).2)
                 0 tokss)).
Proof.
  intros Ha Hnul Hcr Hsp Hl Hoff.
  exists (map Lex.lex (filter (λ l, nonempty l = true) lines)).
  split; [apply mapM_tokenize_strings|].
  rewrite (foreach_line_lex garbage stream lines) by done.
  assert (Hfold : ∀ (ls : list (list byte)) st,
    foldl (λ st l, Z.lor st (Sio.dispatch func prefix n (Lex.lex l)).2)
      st ls
    = foldl (λ st ws, Z.lor st (Sio.dispatch func prefix n ws).2)
        st (map Lex.lex ls)).
  { induction ls as [|l ls IH]; intros st; [done|]. simpl. apply IH. }
  by rewrite Hfold, map_map.
Qed.

(** X27: a first line that fills the line buffer. When the first line of
    the stream, of plain bytes, is with its newline as long as a multiple
    of [block_size], and the assertions hold or are compiled out,
    [simple_fgetline] writes its terminating zero outside of the buffer
    that [foreach_line] has for it, before any call of [func]. *)
Theorem X27_foreach_line_full_first_line (garbage k : Z)
    (l rest : list byte) :
  ndebug = true ∨ 0 ≤ n ∧ 1 < garbage →
  0 ≤ k →
  Forall (λ c, c ≠ Ch.nl ∧ c ≠ Ch.backslash ∧ isQuote c = false) l →
  len l + 1 = Fgetline.block_size * (k + 1) →
  Fgetline.simple_fgetline None (l ++ Ch.nl :: rest)
  = Some (Fgetline.OutOfBounds (len l + 1) (len l + 1)) ∧
  Sio.foreach_line isspace func prefix n ndebug garbage
    (l ++ Ch.nl :: rest)
  = Some ([], Sio.Fault).
Proof.
  intros Ha Hk Hl Hlen.
  destruct (assertions_hold garbage Ha) as [Hn Hg].
  assert (E : Fgetline.simple_fgetline None (l ++ Ch.nl :: rest)
              = Some (Fgetline.OutOfBounds (len l + 1) (len l + 1))).
  { unfold Fgetline.simple_fgetline.
    edestruct (fgetline_loop_plain Fgetline.block_size rest l)
      as (s & b & E & Ei & Ht); [exact Hl| | | | |].
    5:{ simpl. rewrite E. cbn [mbind option_bind]. simpl in Ei.
        destruct Ht as (Hle & j & Hj & Hb & Hmin).
        unfold Fgetline.block_size in *.
        assert (b = Simpleio.i s) as -> by lia.
        pose proof (len_nonneg l).
        replace (0 <=? Simpleio.i s) with true
          by (symmetry; apply Z.leb_le; lia).
        rewrite Z.ltb_irrefl. simpl. by rewrite Ei. }
    - done.
    - simpl. unfold Simpleio.code. simpl. lia.
    - done.
    - simpl. split; [unfold Fgetline.block_size; lia|]. exists 0.
      unfold Fgetline.block_size. lia. }
  split; [done|].
  unfold Sio.foreach_line. rewrite Hn. cbn [negb].
  destruct (l ++ Ch.nl :: rest) as [|c stream] eqn:Es.
  { by destruct l. }
  cbn [Sio.foreach_loop]. by rewrite Hg, E.
Qed.

(** X29: the assertion on a size that has no value. With the assertions
    compiled in, [foreach_line] ends by a failed assertion before it has
    read anything, whatever the stream, when [n] is below zero or when
    the value that [bufsize] has without being set is not more than one:
    the first call of [simple_fgetline] asserts on it, although the line
    buffer is [NULL] and the size is to be ignored. *)
Theorem X29_foreach_line_asserts_on_unset_size (garbage : Z)
    (stream : list byte) :
  ndebug = false →
  n < 0 ∨ garbage ≤ 1 →
  Sio.foreach_line isspace func prefix n ndebug garbage stream
  = Some ([], Sio.Aborted).
Proof.
  intros -> H. unfold Sio.foreach_line, Sio.assertion. cbn [orb].
  destruct (Z.leb_spec 0 n) as [Hn|Hn]; [|done].
  destruct H as [H|H]; [lia|]. cbn [negb Sio.foreach_loop].
  unfold Sio.assertion. cbn [orb].
  by replace (1 <? garbage) with false by (symmetry; apply Z.ltb_ge; lia).
Qed.

End Foreach.

Lemma X25_witness :
  ∃ tokss,
    mapM tokenize_strings
      (filter (λ l, nonempty l = true)
         [B "a 'b" ++ Ch.nl :: B "c' d"; []; B " e\ f"])
    = Some tokss ∧
    Sio.foreach_line SplitWords.isspace_ascii (λ ws, len ws - 2)
      (B "error") 2 false 4096
      (B "a 'b" ++ Ch.nl :: B "c' d" ++ Ch.nl :: Ch.nl :: B " e\ f")
    = Some (map (λ ws, (Sio.dispatch (λ ws, len ws - 2) (B "error") 2
                          ws).1) tokss,
            Sio.Done
              (foldl (λ st ws, Z.lor st
                        (Sio.dispatch (λ ws, len ws - 2) (B "error") 2
                           ws).2)
                 0 tokss)).
Proof.
  apply (X25_foreach_line_handles_the_lines SplitWords.isspace_ascii
           (λ ws, len ws - 2) (B "error") 2 false 4096).
  - right. lia.
  - repeat (apply Forall_cons; split; [done|]). apply Forall_nil_2.
  - repeat (apply Forall_cons; split; [done|]). apply Forall_nil_2.
  - repeat (apply Forall_cons; split; [done|]). apply Forall_nil_2.
  - vm_compute. reflexivity.
  - repeat (apply Forall_cons; split;
              [first [by left | right; by vm_compute]|]).
    apply Forall_nil_2.
Defined.

Lemma X27_witness :
  Fgetline.simple_fgetline None (replicate 127 "a"%byte ++ Ch.nl :: B "b")
  = Some (Fgetline.OutOfBounds (len (replicate 127 "a"%byte) + 1)
            (len (replicate 127 "a"%byte) + 1)) ∧
  Sio.foreach_line SplitWords.isspace_ascii (λ ws, 0) (B "error") 0
    true 0 (replicate 127 "a"%byte ++ Ch.nl :: B "b")
  = Some ([], Sio.Fault).
Proof.
  apply (X27_foreach_line_full_first_line SplitWords.isspace_ascii
           (λ ws, 0) (B "error") 0 true 0 0 (replicate 127 "a"%byte)
           (B "b")).
  - by left.
  - lia.
  - apply Forall_replicate. by vm_compute.
  - vm_compute. reflexivity.
Defined.

Lemma X29_witness :
  Sio.foreach_line SplitWords.isspace_ascii (λ ws, 0) (B "error") 2
    false 0 (B "a b" ++ [Ch.nl])
  = Some ([], Sio.Aborted).
Proof.
  apply (X29_foreach_line_asserts_on_unset_size SplitWords.isspace_ascii
           (λ ws, 0) (B "error") 2 false 0 (B "a b" ++ [Ch.nl]));
    [reflexivity|right; lia].
Defined.

(** The events of [foreach_line] on the stream above for three words,
    with the assertions compiled out. *)
Example foreach_line_example :
  Sio.foreach_line SplitWords.isspace_ascii (λ ws, 0) (B "error") 3 true 0
    (B "a 'b" ++ Ch.nl :: B "c' d" ++ Ch.nl :: Ch.nl :: B " e\ f")
  = Some ([Sio.Func [B "a"; B "b" ++ Ch.nl :: B "c"; B "d"];
           Sio.Stderr (B "error: too few arguments" ++ [Ch.nl])],
          Sio.Done 1).
Proof. vm_compute. reflexivity. Qed.

(** * sio_main *)

Lemma strrchr_spec (s : list byte) (c : byte) :
  match Sio.strrchr s c with
  | None => c ∉ s
  | Some i => s = take i s ++ c :: drop (S i) s ∧ c ∉ drop (S i) s
  end.
Proof.
  induction s as [|x s IH]; simpl.
  { apply not_elem_of_nil. }
  destruct (Sio.strrchr s c) as [i|].
  - destruct IH as [E Hn]. simpl. split; [by rewrite <- E|done].
  - destruct (decide (x = c)) as [->|Hx].
    + rewrite byte_eqb_refl. simpl. rewrite drop_0. by split.
    + rewrite (byte_eqb_ne _ _ Hx). by apply not_elem_of_cons.
Qed.

(** X26: the program name and the usage message of [sio_main]. The
    program name is a part of [argv[0]] at its end, not empty unless
    [argv[0]] is; it is what follows the last slash, so that it holds no
    slash, unless [argv[0]] ends with a slash, and then it is [argv[0]].
    The usage message with its terminating zero fills the array
    [usagemsg] exactly. *)
Theorem X26_progname_and_usage (argv0 usage_args : list byte) :
  Sio.progname argv0 `suffix_of` argv0 ∧
  (argv0 ≠ [] → Sio.progname argv0 ≠ []) ∧
  (last argv0 ≠ Some Sio.slash → Sio.slash ∉ Sio.progname argv0) ∧
  (last argv0 = Some Sio.slash → Sio.progname argv0 = argv0) ∧
  len (Sio.usage_text (Sio.progname argv0) usage_args) + 1
  = Sio.usagemsg_size (Sio.progname argv0) usage_args.
Proof.
  split_and!.
  - unfold Sio.progname.
    destruct (Sio.strrchr argv0 Sio.slash) as [i|]; [|done].
    destruct (drop (S i) argv0) eqn:E; [done|].
    rewrite <- E. apply suffix_drop.
  - intros Hne. unfold Sio.progname.
    destruct (Sio.strrchr argv0 Sio.slash) as [i|]; [|done].
    by destruct (drop (S i) argv0).
  - intros Hl. unfold Sio.progname.
    pose proof (strrchr_spec argv0 Sio.slash) as Hs.
    destruct (Sio.strrchr argv0 Sio.slash) as [i|]; [|done].
    destruct Hs as [E Hn].
    destruct (drop (S i) argv0) eqn:Ed; [|done].
    destruct Hl. rewrite E, last_app. simpl. done.
  - intros Hl. unfold Sio.progname.
    pose proof (strrchr_spec argv0 Sio.slash) as Hs.
    destruct (Sio.strrchr argv0 Sio.slash) as [i|]; [|done].
    destruct Hs as [E Hn].
    destruct (drop (S i) argv0) as [|b post] eqn:Ed; [done|].
    destruct Hn. rewrite E in Hl. try rewrite Ed in Hl.
    change (Sio.slash :: b :: post) with ([Sio.slash] ++ b :: post) in Hl.
    rewrite !last_app in Hl.
    destruct (last (b :: post)) as [x|] eqn:Ep.
    + injection Hl as ->. apply last_Some in Ep as [l' ->].
      apply elem_of_app. right. by apply list_elem_of_singleton.
    + by apply last_None in Ep.
  - unfold Sio.usage_text, Sio.usagemsg_size.
    rewrite !len_app. unfold len at 1 3 5. simpl. lia.
Qed.

Lemma dispatch_cases (func : list (list byte) → Z) (prefix : list byte)
    (n : Z) (ws : list (list byte)) :
  (∃ text, Sio.dispatch func prefix n ws = (Sio.Stderr text, 1)) ∨
  (Sio.dispatch func prefix n ws = (Sio.Func ws, func ws) ∧
   (0 < n → len ws = n)).
Proof.
  unfold Sio.dispatch.
  destruct (Z.ltb_spec 0 n); simpl; [|right; split; [done|lia]].
  destruct (Z.ltb_spec (len ws) n); [left; by eexists|].
  destruct (Z.ltb_spec n (len ws)); [left; by eexists|].
  right. split; [done|lia].
Qed.

Lemma foldl_lor_zero {A : Type} (f : A → Z) (ls : list A) : ∀ st,
  foldl (λ st l, Z.lor st (f l)) st ls = 0
  ↔ st = 0 ∧ Forall (λ l, f l = 0) ls.
Proof.
  induction ls as [|l ls IH]; intros st; simpl.
  { split; [by intros ->|by intros [-> _]]. }
  rewrite IH, Z.lor_eq_0_iff, Forall_cons. tauto.
Qed.

(** What the events and the status of [foreach_line] have to do with
    each other. *)
Lemma dispatch_status (func : list (list byte) → Z) (prefix : list byte)
    (n : Z) (wss : list (list (list byte))) :
  let evs := map (λ ws, (Sio.dispatch func prefix n ws).1) wss in
  let st := foldl (λ st ws, Z.lor st (Sio.dispatch func prefix n ws).2)
              0 wss in
  (st ≠ 0 ↔ (∃ text, Sio.Stderr text ∈ evs) ∨
            (∃ ws, Sio.Func ws ∈ evs ∧ func ws ≠ 0)) ∧
  (∀ ws, Sio.Func ws ∈ evs → 0 < n → len ws = n) ∧
  (∀ text, Sio.Stdout text ∉ evs).
Proof.
  intros evs st. split_and!.
  - unfold st. rewrite foldl_lor_zero. split.
    + intros Hst.
      assert (Hex : Exists (λ ws, (Sio.dispatch func prefix n ws).2 ≠ 0)
                      wss).
      { apply not_Forall_Exists; [intros ws; apply _|].
        intros Hall. by apply Hst. }
      apply Exists_exists in Hex as (ws & Hin & Hne).
      destruct (dispatch_cases func prefix n ws) as [[text E]|[E _]].
      * left. exists text. apply list_elem_of_fmap.
        exists ws. by rewrite E.
      * right. exists ws. rewrite E in Hne. split; [|done].
        apply list_elem_of_fmap. exists ws. by rewrite E.
    + intros [[text Hin]|(ws & Hin & Hne)] [_ Hall];
        apply list_elem_of_fmap in Hin as (ws' & E & Hin');
        rewrite Forall_forall in Hall; specialize (Hall ws' Hin');
        destruct (dispatch_cases func prefix n ws') as [[t' E']|[E' _]];
        rewrite E' in E, Hall; simpl in *; try done.
      injection E as ->. done.
  - intros ws Hin Hn.
    apply list_elem_of_fmap in Hin as (ws' & E & Hin').
    destruct (dispatch_cases func prefix n ws') as [[t' E']|[E' Hlen]];
      rewrite E' in E; simpl in E; [done|].
    injection E as ->. by apply Hlen.
  - intros text Hin.
    apply list_elem_of_fmap in Hin as (ws' & E & Hin').
    destruct (dispatch_cases func prefix n ws') as [[t' E']|[E' Hlen]];
      by rewrite E' in E.
Qed.

(** X28: the exit status of [sio_main]. When the standard input is as
    [foreach_line] can take it (see X25), and the assertions are compiled
    out or [n] is at least zero and the value that [bufsize] has without
    being set is more than one, [sio_main] returns 0 or 1; it returns 1
    exactly when it has written to the standard error or a call of [func]
    has returned a status other than zero; for [n] above zero every call
    of [func] has [n] arguments; and it writes to the standard output
    only the usage message, for the one argument [-h] or [--help], and
    then it does nothing else. *)
Theorem X28_sio_main_status (isspace : byte → bool)
    (func : list (list byte) → Z) (n : Z) (usage_args : list byte)
    (ndebug : bool) (garbage : Z) (argv0 : list byte)
    (args : list (list byte)) (isatty : bool)
    (stdin : list byte) (lines : list (list byte)) :
  ndebug = true ∨ 0 ≤ n ∧ 1 < garbage →
  Forall (λ c, c ≠ Ch.nul) stdin →
  Forall (λ c, c ≠ Ch.cr) stdin →
  Forall (λ c, isspace c = isSpace c) stdin →
  lines_of stdin = Some lines →
  Forall off_block lines →
  ∃ evs st,
    Sio.sio_main isspace func n usage_args ndebug garbage argv0 args isatty
      stdin
    = Some (evs, Sio.Done st) ∧
    (st = 0 ∨ st = 1) ∧
    (st = 1 ↔ (∃ text, Sio.Stderr text ∈ evs) ∨
              (∃ ws, Sio.Func ws ∈ evs ∧ func ws ≠ 0)) ∧
    (∀ ws, Sio.Func ws ∈ evs → 0 < n → len ws = n) ∧
    (∀ text, Sio.Stdout text ∈ evs →
       evs = [Sio.Stdout text] ∧
       text = Sio.usage_text (Sio.progname argv0) usage_args ∧
       (args = [B "-h"] ∨ args = [B "--help"])).
Proof.
  intros Ha Hnul Hcr Hsp Hl Hoff.
  destruct (assertions_hold n ndebug garbage Ha) as [Hn _].
  assert (Hpxs : ∀ s, (Sio.PXS s = 0 ∨ Sio.PXS s = 1) ∧
                      (Sio.PXS s = 1 ↔ s ≠ 0)).
  { intros s. unfold Sio.PXS. destruct (Z.eqb_spec s 0); split; auto;
      split; try done; lia. }
  assert (Hone : ∀ (a : list (list byte)) x,
            len a + 1 = 2 → a !! 0%nat = Some x → a = [x]).
  { intros [|y [|z a]] x Hlen Hx; unfold len in Hlen; simpl in *;
      [done| |lia]. by injection Hx as ->. }
  unfold Sio.sio_main. rewrite Hn. cbn [negb].
  replace (Sio.usagemsg_size _ _ <? _) with false.
  2:{ symmetry. apply Z.ltb_ge. unfold Sio.usage_text, Sio.usagemsg_size.
      rewrite !len_app. unfold len at 1 3 5. simpl. lia. }
  set (usagemsg := Sio.usage_text _ _).
  destruct ((len args + 1 =? 2) && _) eqn:Eh.
  { (* -h or --help *)
    exists [Sio.Stdout usagemsg], (Sio.PXS 0). split; [done|].
    apply andb_prop in Eh as [Hlen Ho]. apply Z.eqb_eq in Hlen.
    split_and!.
    - by left.
    - split; [done|].
      intros [[text Hin]|(ws & Hin & _)];
        by apply list_elem_of_singleton in Hin.
    - intros ws Hin. by apply list_elem_of_singleton in Hin.
    - intros text Hin. apply list_elem_of_singleton in Hin.
      injection Hin as ->. split; [done|]. split; [done|].
      apply orb_prop in Ho as [Ho|Ho]; apply bool_decide_eq_true_1 in Ho;
        [left|right]; by apply Hone. }
  destruct ((len args + 1 =? 1) && negb isatty
            || (len args + 1 =? 2)
               && bool_decide (args !! 0%nat = Some (B "-"))) eqn:Ein.
  { (* the standard input *)
    rewrite (foreach_line_lex isspace func (B "error") n ndebug garbage
               stdin lines) by done.
    cbn [mbind option_bind].
    set (ls := filter (λ l, nonempty l = true) lines).
    assert (Hfold : ∀ (ls : list (list byte)) st,
      foldl (λ st l,
               Z.lor st (Sio.dispatch func (B "error") n (Lex.lex l)).2)
        st ls
      = foldl (λ st ws, Z.lor st (Sio.dispatch func (B "error") n ws).2)
          st (map Lex.lex ls)).
    { induction ls0 as [|l ls0 IH]; intros st; [done|]. simpl. apply IH. }
    rewrite Hfold, <- (map_map Lex.lex
                         (λ ws, (Sio.dispatch func (B "error") n ws).1)).
    destruct (dispatch_status func (B "error") n (map Lex.lex ls))
      as (Hst & Har & Hout).
    eexists _, _. split; [done|]. split_and!.
    - apply Hpxs.
    - rewrite <- Hst. apply Hpxs.
    - exact Har.
    - intros text Hin. by apply Hout in Hin. }
  destruct ((n =? 0) && (1 <? len args + 1)
            || (0 <? n) && (len args + 1 - 1 =? n)) eqn:Eargs.
  { (* the command line *)
    exists [Sio.Func args], (Sio.PXS (func args)). split; [done|].
    split_and!.
    - apply Hpxs.
    - rewrite (proj2 (Hpxs _)). split.
      + intros Hne. right. exists args. split; [|done].
        by apply list_elem_of_singleton.
      + intros [[text Hin]|(ws & Hin & Hne)];
          apply list_elem_of_singleton in Hin; [done|].
        by injection Hin as ->.
    - intros ws Hin Hpos. apply list_elem_of_singleton in Hin.
      injection Hin as ->.
      apply orb_prop in Eargs as [E|E]; apply andb_prop in E as [E1 E2].
      + apply Z.eqb_eq in E1. lia.
      + apply Z.eqb_eq in E2. lia.
    - intros text Hin. by apply list_elem_of_singleton in Hin. }
  (* the wrong number of arguments *)
  exists [Sio.Stderr usagemsg], (Sio.PXS 1). split; [done|].
  split_and!.
  - by right.
  - split; [|done]. intros _. left. exists usagemsg.
    by apply list_elem_of_singleton.
  - intros ws Hin. by apply list_elem_of_singleton in Hin.
  - intros text Hin. by apply list_elem_of_singleton in Hin.
Qed.

Lemma X28_witness :
  ∃ evs st,
    Sio.sio_main SplitWords.isspace_ascii (λ ws, len ws - 2) 0
      (B "x y") false 128 (B "/bin/prog") [B "-"] true
      (B "a 'b" ++ Ch.nl :: B "c' d" ++ Ch.nl :: Ch.nl :: B " e\ f")
    = Some (evs, Sio.Done st) ∧
    (st = 0 ∨ st = 1) ∧
    (st = 1 ↔ (∃ text, Sio.Stderr text ∈ evs) ∨
              (∃ ws, Sio.Func ws ∈ evs ∧ len ws - 2 ≠ 0)) ∧
    (∀ ws, Sio.Func ws ∈ evs → 0 < 0 → len ws = 0) ∧
    (∀ text, Sio.Stdout text ∈ evs →
       evs = [Sio.Stdout text] ∧
       text = Sio.usage_text (Sio.progname (B "/bin/prog")) (B "x y") ∧
       ([B "-"] = [B "-h"] ∨ [B "-"] = [B "--help"])).
Proof.
  apply (X28_sio_main_status SplitWords.isspace_ascii (λ ws, len ws - 2) 0
           (B "x y") false 128 (B "/bin/prog") [B "-"] true
           (B "a 'b" ++ Ch.nl :: B "c' d" ++ Ch.nl :: Ch.nl :: B " e\ f")
           [B "a 'b" ++ Ch.nl :: B "c' d"; []; B " e\ f"]).
  - right. lia.
  - repeat (apply Forall_cons; split; [done|]). apply Forall_nil_2.
  - repeat (apply Forall_cons; split; [done|]). apply Forall_nil_2.
  - repeat (apply Forall_cons; split; [done|]). apply Forall_nil_2.
  - vm_compute. reflexivity.
  - repeat (apply Forall_cons; split;
              [first [by left | right; by vm_compute]|]).
    apply Forall_nil_2.
Defined.

(** [sio_main] on the command line and on the standard input, with the
    assertions compiled out, and with them on a size of zero. *)
Example sio_main_example :
  Sio.sio_main SplitWords.isspace_ascii (λ ws, len ws - 2) 2
    (B "x y") true 0 (B "/bin/prog") [B "a"; B "b"] true []
  = Some ([Sio.Func [B "a"; B "b"]], Sio.Done 0) ∧
  Sio.sio_main SplitWords.isspace_ascii (λ ws, len ws - 2) 2
    (B "x y") true 0 (B "/bin/prog") [B "a"] true []
  = Some ([Sio.Stderr (B "usage: prog x y" ++ [Ch.nl])], Sio.Done 1) ∧
  Sio.sio_main SplitWords.isspace_ascii (λ ws, len ws - 2) 2
    (B "x y") true 0 (B "/bin/prog") [] false (B "a b" ++ Ch.nl :: B "c")
  = Some ([Sio.Func [B "a"; B "b"];
           Sio.Stderr (B "error: too few arguments" ++ [Ch.nl])],
          Sio.Done 1) ∧
  Sio.sio_main SplitWords.isspace_ascii (λ ws, len ws - 2) 2
    (B "x y") false 0 (B "/bin/prog") [] false (B "a b" ++ Ch.nl :: B "c")
  = Some ([], Sio.Aborted).
Proof. vm_compute. split_and!; reflexivity. Qed.
